(** * Implicit interval tree with interpolation index (iitii.h)

    A shallow embedding of the two index classes of [iitii.h], [iit] and
    [iitii], and of the helper templates they share, followed by the
    verification of the properties listed in the specification.

    Conventions.
    - [Pos] is an integer position type; its [numeric_limits] are the section
      variables [Pos_min] and [Pos_max].  The index applies only comparisons
      and [std::max] to positions; the domain functions of the prediction
      model also subtract and divide them, with the wrap-around of [to_pos].
    - [Rank] and every other [size_t] value is a [Z] in [0, 2^64): each
      arithmetic operation of the source is followed by [wrap].
    - [Level] is a [nat] (a level is a bit position of a [Rank]).
    - A result of type [const Item*] points into the node array; it is
      modelled by the rank of the node it points to.
    - The single-precision model of [iitii] (the [parameters] table,
      [roundf]) is kept abstract: the field [model] of an index maps a query
      position to the level and level-rank that the float computation of
      [predict] produces, or to [None] where the stored level is negative.
      [train] is an argument of the constructor.  [which_domain], which is
      integer arithmetic, is modelled on its own.
    - A function is modelled as it computes where its assertions hold.
      [scan_checked] and [overlap_checked] are [scan] and [overlap] with the
      assertions of a build without [NDEBUG]: they return [None] where the
      program aborts. *)

From stdpp Require Import base numbers list option sorting.
Local Open Scope Z_scope.

(** ** [size_t] arithmetic *)

Abbreviation Pos := Z (only parsing).
Abbreviation Rank := Z (only parsing).
Abbreviation Level := nat (only parsing).
Abbreviation LevelRank := Z (only parsing).

(** The short-circuit operators [&&] and [||] of the source: the right
    operand is evaluated only when the left one does not decide. *)
Notation "a &&& b" := (if a then b else false)
  (at level 40, left associativity, only parsing).
Notation "a ||| b" := (if a then true else b)
  (at level 50, left associativity, only parsing).

Definition wrap (z : Z) : Z := z mod 2 ^ 64.

(** [x << k] on [size_t] *)
Definition shl (x : Z) (k : nat) : Z := wrap (Z.shiftl x (Z.of_nat k)).

(** [std::numeric_limits<Rank>::max()], the invalid rank *)
Definition nrank : Rank := 2 ^ 64 - 1.

(** [__builtin_ctzll]: trailing zero bits of a 64-bit word *)
Fixpoint ctzll (bits : nat) (x : Z) : nat :=
  match bits with
  | O => O
  | S b => if Z.testbit x 0 then O else S (ctzll b (Z.shiftr x 1))
  end.

(** ** Implicit-tree geometry ([iit_base], lines 98-169) *)

Definition level (node : Rank) : Level := ctzll 64 (wrap (Z.lnot node)).

(** The check that the debug build of [level] runs on its answer:
    [for (chk=0; node&1; chk++, node>>=1);] *)
Fixpoint level_chk (fuel : nat) (node : Rank) (chk : Level) : option Level :=
  if Z.land node 1 =? 0 then Some chk
  else
    match fuel with
    | O => None
    | S f => level_chk f (Z.shiftr node 1) (S chk)
    end.

Definition parent (root : Rank) (node : Rank) (k : Level) : Rank :=
  if node =? root then nrank
  else
    let ofs := shl 1 k in
    if Z.testbit node (Z.of_nat (k + 1)) then wrap (node - ofs)
    else wrap (node + ofs).

Definition parent2 (root : Rank) (node : Rank) : Rank :=
  parent root node (level node).

Definition left (node : Rank) (k : Level) : Rank :=
  if (0 <? k)%nat then wrap (node - shl 1 (k - 1)) else nrank.

Definition left2 (node : Rank) : Rank := left node (level node).

Definition right (node : Rank) (k : Level) : Rank :=
  if (0 <? k)%nat then wrap (node + shl 1 (k - 1)) else nrank.

Definition right2 (node : Rank) : Rank := right node (level node).

Definition leftmost_leaf (subtree : Rank) (k : Level) : Rank :=
  let ofs := wrap (shl 1 k - 1) in
  wrap (subtree - ofs).

Definition leftmost_leaf2 (subtree : Rank) : Rank :=
  leftmost_leaf subtree (level subtree).

Definition rightmost_leaf (subtree : Rank) (k : Level) : Rank :=
  let ofs := wrap (shl 1 k - 1) in
  wrap (subtree + ofs).

Definition rightmost_leaf2 (subtree : Rank) : Rank :=
  rightmost_leaf subtree (level subtree).

(** Level-rank navigation ([iitii], lines 442-448) *)

Definition rank_of_levelrank (k : Level) (ofs : LevelRank) : Rank :=
  wrap (wrap (shl 1 k * wrap (wrap (2 * ofs) + 1)) - 1).

Definition levelrank_of_rank (r : Rank) : LevelRank :=
  wrap (wrap (r + 1) / shl 1 (level r) - 1) / 2.

(** The tree relation induced by [left] and [right]: [in_subtree r k m]
    holds when [m] is [r] or is reached from the level-[k] node [r] by
    child steps. *)
Inductive in_subtree : Rank → Level → Rank → Prop :=
  | in_subtree_root r k : in_subtree r k r
  | in_subtree_left r k m :
      in_subtree (left r (S k)) k m → in_subtree r (S k) m
  | in_subtree_right r k m :
      in_subtree (right r (S k)) k m → in_subtree r (S k) m.

(** [vec[i]] on a vector of [size_t] or [Pos]; the source never reads out of
    range, where the model yields 0. *)
Definition vec_at (v : list Z) (i : Z) : Z := default 0 (v !! Z.to_nat i).

(** ** [log2ull] (lines 396-401) *)

(** [__builtin_clzll]: leading zero bits of a 64-bit word *)
Fixpoint clzll (bits : nat) (x : Z) : nat :=
  match bits with
  | O => O
  | S b => if Z.testbit x (Z.of_nat b) then O else S (clzll b x)
  end.

(** [unsigned(8*sizeof(unsigned long long) - __builtin_clzll(x) - 1)] *)
Definition log2ull (x : Z) : Z :=
  wrap (wrap (8 * 8 - Z.of_nat (clzll 64 x)) - 1) mod 2 ^ 32.

(** ** Ranks of the implicit tree, for the specification *)

Definition pow2 (k : nat) : Z := 2 ^ Z.of_nat k.

(** [r] is the [i]-th node of level [k], for some [i] *)
Definition at_level (k : nat) (r : Z) : Prop :=
  ∃ i, 0 ≤ i ∧ r = (2 * i + 1) * pow2 k - 1.

(** [r] is a level-[k] node of the full tree of root level [L] *)
Definition in_tree (L k : nat) (r : Z) : Prop :=
  at_level k r ∧ r + pow2 k ≤ pow2 (S L) - 1.

(** the ranks below a level-[k] node [r] are [lo k r .. hi k r] *)
Definition lo (k : nat) (r : Z) : Z := r - (pow2 k - 1).
Definition hi (k : nat) (r : Z) : Z := r + (pow2 k - 1).

(** [b] is the level-[j] node above the leaf [b0] *)
Definition on_border (L : nat) (b0 : Z) (j : nat) (b : Z) : Prop :=
  in_tree L j b ∧ lo j b ≤ b0 ≤ hi j b.

(** ** The instance of the header comment: items are pairs of [int] *)
Module IntPair.

Definition intpair : Type := Z * Z.
Definition p_get_beg (p : intpair) : Z := p.1.
Definition p_get_end (p : intpair) : Z := p.2.
Definition int_min : Z := - 2 ^ 31.
Definition int_max : Z := 2 ^ 31 - 1.

Definition header_items : list intpair := [(12, 34); (0, 23); (34, 56)].

Definition chain_items : list intpair :=
  [(0, 1); (1, 2); (2, 3); (3, 4); (4, 5); (5, 6); (6, 7); (7, 8); (8, 9);
   (9, 10); (10, 111)].

Definition same_beg_items : list intpair := [(7, 9); (7, 10); (7, 12)].

Definition one_item : list intpair := [(7, 9)].

End IntPair.

Section Iit.

Context {Item : Type}.
Variables get_beg get_end : Item → Pos.
Variables Pos_min Pos_max : Pos.

(** ** Nodes *)

Record iit_node_base := {
  item : Item;
  inside_max_end : Pos;
}.

Definition iit_node_base_new (item_ : Item) : iit_node_base :=
  {| item := item_; inside_max_end := get_end item_ |}.

Record iitii_node := {
  iitii_base : iit_node_base;
  outside_max_end : Pos;
}.

Definition iitii_node_new (item_ : Item) : iitii_node :=
  {| iitii_base := iit_node_base_new item_; outside_max_end := Pos_min |}.

(** The template parameter [Node] of [iit_base]: a type derived from
    [iit_node_base], constructible from an item, whose [inside_max_end]
    member can be assigned. *)
Class IitNode (Node : Type) := {
  node_new : Item → Node;
  node_base : Node → iit_node_base;
  node_set_ime : Pos → Node → Node;
  node_base_new : ∀ it, node_base (node_new it) = iit_node_base_new it;
  node_base_set_ime : ∀ v n,
    node_base (node_set_ime v n)
    = {| item := item (node_base n); inside_max_end := v |};
}.

#[export] Instance iit_node_base_IitNode : IitNode iit_node_base := {|
  node_new := iit_node_base_new;
  node_base := id;
  node_set_ime := λ v n, {| item := item n; inside_max_end := v |};
  node_base_new := λ _, eq_refl;
  node_base_set_ime := λ _ _, eq_refl;
|}.

#[export] Instance iitii_node_IitNode : IitNode iitii_node := {|
  node_new := iitii_node_new;
  node_base := iitii_base;
  node_set_ime := λ v n,
    {| iitii_base := {| item := item (iitii_base n); inside_max_end := v |};
       outside_max_end := outside_max_end n |};
  node_base_new := λ _, eq_refl;
  node_base_set_ime := λ _ _, eq_refl;
|}.

Definition set_outside_max_end (v : Pos) (n : iitii_node) : iitii_node :=
  {| iitii_base := iitii_base n; outside_max_end := v |}.

Section Base.

Context {Node : Type} `{!IitNode Node}.

Definition beg (n : Node) : Pos := get_beg (item (node_base n)).
Definition end_ (n : Node) : Pos := get_end (item (node_base n)).
Definition ime (n : Node) : Pos := inside_max_end (node_base n).

(** [operator<] of [iit_node_base] *)
Definition node_lt (lhs rhs : Node) : bool :=
  let lbeg := beg lhs in
  let rbeg := beg rhs in
  if lbeg =? rbeg then end_ lhs <? end_ rhs else lbeg <? rbeg.

(** [nodes.size()] and the members of [nodes[r]]; the source reads real
    nodes only, the model yields 0 elsewhere. *)
Definition size (nodes : list Node) : Z := Z.of_nat (length nodes).

Definition node_beg (nodes : list Node) (r : Rank) : Pos :=
  from_option beg 0 (nodes !! Z.to_nat r).
Definition node_end (nodes : list Node) (r : Rank) : Pos :=
  from_option end_ 0 (nodes !! Z.to_nat r).
Definition node_ime (nodes : list Node) (r : Rank) : Pos :=
  from_option ime 0 (nodes !! Z.to_nat r).

(** ** Top-down scan ([iit_base::scan], lines 173-213)

    [scan] is the function as it computes: the two assertions that open it
    and those of the navigation functions it calls are left to
    [scan_checked], which follows and is the function as a build with
    assertions runs it. *)

(** The unrolled loop [for (; r <= rml; ++r)]; [cnt] is the number of ranks
    left in [r..rml]. Returns the final [r]. *)
Fixpoint scan_leaves (nodes : list Node) (cnt : nat) (r : Rank)
    (qbeg qend : Pos) (ans : list Rank) : Rank * list Rank :=
  match cnt with
  | O => (r, ans)
  | S c =>
      if qend <=? node_beg nodes r then (r, ans)
      else
        let ans := if qbeg <? node_end nodes r then ans ++ [r] else ans in
        scan_leaves nodes c (wrap (r + 1)) qbeg qend ans
  end.

Fixpoint scan (nodes : list Node) (subtree : Rank) (k : Level)
    (qbeg qend : Pos) (ans : list Rank) {struct k} : Z * list Rank :=
  if size nodes <=? subtree then
    match k with
    | O => (1, ans)
    | S ck =>
        let '(c, ans) := scan nodes (left subtree k) ck qbeg qend ans in
        (wrap (1 + c), ans)
    end
  else if (k <=? 2)%nat then
    let lml := leftmost_leaf subtree k in
    let rml := Z.min (rightmost_leaf subtree k) (wrap (size nodes - 1)) in
    let '(r, ans) :=
      scan_leaves nodes (Z.to_nat (rml + 1 - lml)) lml qbeg qend ans in
    (wrap (r - lml), ans)
  else
    match k with
    | O => (1, ans)
    | S ck =>
        if qbeg <? node_ime nodes subtree then
          let '(c, ans) := scan nodes (left subtree k) ck qbeg qend ans in
          let cost := wrap (1 + c) in
          if node_beg nodes subtree <? qend then
            let ans :=
              if qbeg <? node_end nodes subtree then ans ++ [subtree]
              else ans in
            let '(c, ans) := scan nodes (right subtree k) ck qbeg qend ans in
            (wrap (cost + c), ans)
          else (cost, ans)
        else (1, ans)
    end.

(** [scan] in a build with assertions: [None] where one fails and the
    program aborts. The assertions are [subtree < full_size] and
    [k == level(subtree)] on entry (lines 174-175), which are also those of
    [left] and [right], and [subtree >= ofs] and [subtree + ofs < full_size]
    in [leftmost_leaf] and [rightmost_leaf]. *)
Fixpoint scan_checked (full_size : Z) (nodes : list Node) (subtree : Rank)
    (k : Level) (qbeg qend : Pos) (ans : list Rank) {struct k}
    : option (Z * list Rank) :=
  if (subtree <? full_size) &&& (k =? level subtree)%nat then
    if size nodes <=? subtree then
      match k with
      | O => Some (1, ans)
      | S ck =>
          '(c, ans) ← scan_checked full_size nodes (left subtree k) ck
                        qbeg qend ans;
          Some (wrap (1 + c), ans)
      end
    else if (k <=? 2)%nat then
      let ofs := wrap (shl 1 k - 1) in
      if (ofs <=? subtree) &&& (wrap (subtree + ofs) <? full_size) then
        let lml := leftmost_leaf subtree k in
        let rml := Z.min (rightmost_leaf subtree k) (wrap (size nodes - 1)) in
        let '(r, ans) :=
          scan_leaves nodes (Z.to_nat (rml + 1 - lml)) lml qbeg qend ans in
        Some (wrap (r - lml), ans)
      else None
    else
      match k with
      | O => Some (1, ans)
      | S ck =>
          if qbeg <? node_ime nodes subtree then
            '(c, ans) ← scan_checked full_size nodes (left subtree k) ck
                          qbeg qend ans;
            let cost := wrap (1 + c) in
            if node_beg nodes subtree <? qend then
              let ans :=
                if qbeg <? node_end nodes subtree then ans ++ [subtree]
                else ans in
              '(c, ans) ← scan_checked full_size nodes (right subtree k) ck
                            qbeg qend ans;
              Some (wrap (cost + c), ans)
            else Some (cost, ans)
          else Some (1, ans)
      end
  else None.

(** ** Construction ([iit_base::iit_base], lines 215-267) *)

Record iit_base := {
  nodes : list Node;
  full_size : Z;
  root : Rank;
  root_level : Level;
}.

(** The loop deriving [root_level] and [full_size]; [None] when it would
    shift by the width of [size_t]. *)
Fixpoint tree_geometry (fuel : nat) (sz : Z) (root_level : Level)
    (full_size : Z) : option (Level * Z) :=
  if full_size <? sz then
    match fuel with
    | O => None
    | S f =>
        let root_level := S root_level in
        tree_geometry f sz root_level (wrap (shl 1 (root_level + 1) - 1))
    end
  else Some (root_level, full_size).

(** [while (right_border_nodes.back() != root) push_back(parent2(back))] *)
Fixpoint right_border (fuel : nat) (root : Rank) (border : list Rank)
    (back : Rank) : option (list Rank) :=
  if back =? root then Some border
  else
    match fuel with
    | O => None
    | S f =>
        let p := parent2 root back in
        right_border f root (border ++ [p]) p
    end.

(** The inner loop of the bottom-up pass over the nodes [n] of level [k];
    the state is the node array and [right_border_ime]. *)
Fixpoint index_level (fuel : nat) (k : Level) (border_k : Rank) (step : Z)
    (n : Rank) (st : list Node * Pos) : option (list Node * Pos) :=
  let '(nodes, right_border_ime) := st in
  if n <? size nodes then
    match fuel with
    | O => None
    | S f =>
        let ime := node_end nodes n in
        let ime := Z.max ime (node_ime nodes (left n k)) in
        let ime :=
          if right n k <? size nodes
          then Z.max ime (node_ime nodes (right n k))
          else Z.max ime right_border_ime in
        let nodes := alter (node_set_ime ime) (Z.to_nat n) nodes in
        let right_border_ime :=
          if n =? border_k then ime else right_border_ime in
        index_level f k border_k step (wrap (n + step))
          (nodes, right_border_ime)
    end
  else Some st.

(** The outer loop [for (Level k=1; k <= root_level; ++k)] *)
Fixpoint index_levels (fuel : nat) (k : Level) (root_level : Level)
    (border : list Rank) (st : list Node * Pos) : option (list Node * Pos) :=
  if (k <=? root_level)%nat then
    match fuel with
    | O => None
    | S f =>
        let x := shl 1 (k - 1) in
        let step := shl x 2 in
        st ← index_level (length st.1) k (vec_at border (Z.of_nat k)) step
               (wrap (shl x 1 - 1)) st;
        index_levels f (S k) root_level border st
    end
  else Some st.

(** The rank [nodes.size() - (2 - nodes.size() % 2)] *)
Definition rightmost_real_leaf (sz : Z) : Rank :=
  wrap (sz - wrap (2 - sz mod 2)).

Definition iit_base_new (nodes_ : list Node) : option iit_base :=
  '(root_level, full_size) ← tree_geometry 64 (size nodes_) 0 0;
  let root := wrap (shl 1 root_level - 1) in
  if size nodes_ =? 0 then
    Some {| nodes := nodes_; full_size := full_size; root := root;
            root_level := root_level |}
  else
    let leaf := rightmost_real_leaf (size nodes_) in
    border ← right_border 64 root [leaf] leaf;
    let right_border_ime := node_ime nodes_ (vec_at border 0) in
    st ← index_levels 64 1 root_level border (nodes_, right_border_ime);
    Some {| nodes := st.1; full_size := full_size; root := root;
            root_level := root_level |}.

(** [iit_base::overlap] *)
Definition overlap (t : iit_base) (qbeg qend : Pos) : Z * list Rank :=
  scan (nodes t) (root t) (root_level t) qbeg qend [].

(** [iit_base::overlap] in a build with assertions *)
Definition overlap_checked (t : iit_base) (qbeg qend : Pos)
    : option (Z * list Rank) :=
  scan_checked (full_size t) (nodes t) (root t) (root_level t) qbeg qend [].

(** ** Builder ([iit_sort], [iit_builder_base], lines 284-323) *)

(** [std::sort] with [operator<], as an insertion sort *)
Fixpoint sort_insert (x : Node) (l : list Node) : list Node :=
  match l with
  | [] => [x]
  | y :: l' => if node_lt y x then y :: sort_insert x l' else x :: l
  end.

Definition iit_sort (vec : list Node) : list Node :=
  foldr sort_insert [] vec.

Record iit_builder_base := {
  nodes_ : list Node;
  sort_ : list Node → list Node;
}.

Definition builder_new (sort : list Node → list Node) : iit_builder_base :=
  {| nodes_ := []; sort_ := sort |}.

Definition add (b : iit_builder_base) (it : Item) : iit_builder_base :=
  {| nodes_ := nodes_ b ++ [node_new it]; sort_ := sort_ b |}.

Definition add_range (b : iit_builder_base) (items : list Item)
    : iit_builder_base :=
  fold_left add items b.

Definition builder_range (items : list Item) : iit_builder_base :=
  add_range (builder_new iit_sort) items.

End Base.

(** ** The basic index [iit] *)

Definition iit := @iit_base iit_node_base.

Definition iit_build (b : @iit_builder_base iit_node_base) : option iit :=
  iit_base_new (sort_ b (nodes_ b)).

(** ** The interpolation index [iitii] (lines 404-650) *)

Definition node_ome (nodes : list iitii_node) (r : Rank) : Pos :=
  from_option outside_max_end 0 (nodes !! Z.to_nat r).

Definition outside_min_beg (nodes : list iitii_node) (subtree : Rank)
    (k : Level) : Pos :=
  let r := rightmost_leaf subtree k in
  let beg := node_beg nodes subtree in
  let l := leftmost_leaf subtree k in
  if negb (l =? 0) &&& (node_beg nodes (wrap (l - 1)) =? beg) then beg
  else if r <? wrap (size nodes - 1) then node_beg nodes (wrap (r + 1))
  else Pos_max.

Record iitii := {
  super : @iit_base iitii_node;
  model : Pos → option (Level * LevelRank);
  queries : Z;
  total_climb_cost : Z;
}.

Definition interpolate (nodes : list iitii_node) (k : Level)
    (ofs : LevelRank) : Rank :=
  let r := rank_of_levelrank k ofs in
  let nsz := size nodes in
  if r <? nsz then r else wrap (nsz - wrap (2 - nsz mod 2)).

Definition predict (t : iitii) (qbeg : Pos) : Rank :=
  match model t qbeg with
  | None => nrank
  | Some (k, ofs) => interpolate (nodes (super t)) k ofs
  end.

(** [running_max_end]: the loop [for (n = 1; n < nodes.size(); ++n)] *)
Fixpoint running_max_loop (nodes : list iitii_node) (cnt : nat) (n : Rank)
    (running_max_end : list Pos) : list Pos :=
  match cnt with
  | O => running_max_end
  | S c =>
      running_max_loop nodes c (wrap (n + 1))
        (running_max_end
           ++ [Z.max (vec_at running_max_end (wrap (n - 1)))
                 (node_end nodes n)])
  end.

(** [while (nodes[leq].beg() == node.beg()) { if (leq == 0) break; --leq; }] *)
Fixpoint walk_leq (fuel : nat) (nodes : list iitii_node) (nbeg : Pos)
    (leq : Rank) : option Rank :=
  if node_beg nodes leq =? nbeg then
    if leq =? 0 then Some leq
    else
      match fuel with
      | O => None
      | S f => walk_leq f nodes nbeg (wrap (leq - 1))
      end
  else Some leq.

(** The body of the loop that fills [outside_max_end] *)
Definition fill_outside_max_end_at (running_max_end : list Pos)
    (nodes : list iitii_node) (n : Rank) : option (list iitii_node) :=
  let l := leftmost_leaf2 n in
  if 0 <? l then
    leq ← walk_leq (length nodes) nodes (node_beg nodes n) (wrap (l - 1));
    let ome :=
      if node_beg nodes leq <? node_beg nodes n
      then vec_at running_max_end leq
      else Pos_min in
    Some (alter (set_outside_max_end ome) (Z.to_nat n) nodes)
  else Some nodes.

Fixpoint fill_outside_max_end (cnt : nat) (n : Rank)
    (running_max_end : list Pos) (nodes : list iitii_node)
    : option (list iitii_node) :=
  match cnt with
  | O => Some nodes
  | S c =>
      nodes ← fill_outside_max_end_at running_max_end nodes n;
      fill_outside_max_end c (wrap (n + 1)) running_max_end nodes
  end.

(** The constructor of [iitii]. [train] stands for the member function of
    that name: from the index built so far it yields the prediction model.
    On an empty array the parameters stay at -1, which is no prediction. *)
Definition iitii_new
    (train : @iit_base iitii_node → Pos → option (Level * LevelRank))
    (nodes_ : list iitii_node) : option iitii :=
  t ← iit_base_new nodes_;
  if size (nodes t) =? 0 then
    Some {| super := t; model := λ _, None; queries := 0;
            total_climb_cost := 0 |}
  else
    let running_max_end :=
      running_max_loop (nodes t) (length (nodes t) - 1) 1
        [node_end (nodes t) 0] in
    nodes' ← fill_outside_max_end (length (nodes t)) 0 running_max_end
               (nodes t);
    let t' := {| nodes := nodes'; full_size := full_size t; root := root t;
                 root_level := root_level t |} in
    Some {| super := t'; model := train t'; queries := 0;
            total_climb_cost := 0 |}.

Definition iitii_build
    (train : @iit_base iitii_node → Pos → option (Level * LevelRank))
    (b : @iit_builder_base iitii_node) : option iitii :=
  iitii_new train (sort_ b (nodes_ b)).

(** The climb loop of [iitii::overlap] (lines 625-632); [None] when [fuel]
    iterations do not reach the exit. *)
Fixpoint climb (fuel : nat) (t : @iit_base iitii_node) (qbeg qend : Pos)
    (subtree : Rank) (k : Level) : option (Rank * Level) :=
  if negb (subtree =? root t)
     &&& ((size (nodes t) <=? subtree)
          ||| (qbeg <? node_ome (nodes t) subtree)
          ||| (outside_min_beg (nodes t) subtree k <? qend))
  then
    match fuel with
    | O => None
    | S f => climb f t qbeg qend (parent (root t) subtree k) (S k)
    end
  else Some (subtree, k).

(** [iitii::overlap]: the cost, the answer and the index with its counters
    updated. *)
Definition iitii_overlap (t : iitii) (qbeg qend : Pos)
    : option (Z * list Rank * iitii) :=
  let prediction := predict t qbeg in
  if prediction =? nrank then Some (overlap (super t) qbeg qend, t)
  else
    let k0 := level prediction in
    '(subtree, k) ← climb 64 (super t) qbeg qend prediction k0;
    let climb_cost := wrap (Z.of_nat k - Z.of_nat k0) in
    let t' := {| super := super t; model := model t;
                 queries := wrap (queries t + 1);
                 total_climb_cost :=
                   wrap (total_climb_cost t + climb_cost) |} in
    let '(c, ans) := scan (nodes (super t)) subtree k qbeg qend [] in
    Some (wrap (c + wrap (3 * climb_cost)), ans, t').

(** ** The domains of the prediction model (lines 460-472, 562-570)

    The members [domains] and [domain_size] as the constructor sets them on
    a node array that is not empty, and [which_domain], with the arithmetic
    of the source: the differences and the quotient of [which_domain] are
    taken in [Pos], the quotient of the constructor in [size_t], and a value
    is converted where it passes from one type to the other. [Pos] is an
    integer type that integer promotion leaves as it is, such as [int] or
    [uint32_t]. These definitions stand beside the field [model] of an
    index, which covers the float computation that uses them. *)

(** A value brought into [Pos], by a conversion or as the result of an
    operation of [Pos]: it wraps around the range from [Pos_min] to
    [Pos_max]. Where a signed [Pos] overflows the source leaves the result
    undefined; the compiled code wraps. *)
Definition to_pos (z : Z) : Pos :=
  Pos_min + (z - Pos_min) mod (Pos_max - Pos_min + 1).

(** [std::max(Domain(1), domains_)] *)
Definition iitii_domains (domains_ : Z) : Z := Z.max 1 domains_.

(** [1 + (nodes[nodes.size()-1].beg() - min_beg) / domains], assigned to
    the member [domain_size] *)
Definition iitii_domain_size (domains_ : Z) (min_beg max_beg : Pos) : Pos :=
  to_pos
    (wrap (1 + wrap (to_pos (max_beg - min_beg)) / iitii_domains domains_)).

(** [which_domain]; [None] where the division of [Pos] traps: by zero, and
    of the least [Pos] by -1 *)
Definition which_domain (domains : Z) (min_beg domain_size : Pos)
    (beg : Pos) : option Z :=
  if beg <? min_beg then Some 0
  else
    let d := to_pos (beg - min_beg) in
    if (domain_size =? 0) ||| ((d =? Pos_min) &&& (domain_size =? -1))
    then None
    else Some (Z.min (wrap (domains - 1)) (wrap (Z.quot d domain_size))).

(** * Specification

    The predicates in which the properties of the index are stated. *)

Section NodeSpec.

Context {Node : Type} `{!IitNode Node}.

Implicit Types nodes : list Node.

(** the node array is in ascending order of [beg] (the assertion of lines
    227-229) *)
Definition sorted_beg nodes : Prop :=
  ∀ i j, 0 ≤ i → i ≤ j → j < size nodes →
    node_beg nodes i ≤ node_beg nodes j.

Definition beg_le (x y : Node) : Prop := beg x ≤ beg y.

(** the real node of rank [m] overlaps the query [qbeg, qend) *)
Definition overlaps nodes (qbeg qend : Pos) (m : Rank) : Prop :=
  0 ≤ m < size nodes ∧ node_beg nodes m < qend ∧ qbeg < node_end nodes m.

(** the items of a node array, in rank order *)
Definition node_items nodes : list Item :=
  map (λ n, item (node_base n)) nodes.

(** [v] is the largest [end] among the real nodes ranked in [a..b], and
    one of them has it *)
Definition is_max_end nodes (a b : Rank) (v : Pos) : Prop :=
  (∀ m, a ≤ m ≤ b → 0 ≤ m < size nodes → node_end nodes m ≤ v)
  ∧ (∃ m, a ≤ m ≤ b ∧ 0 ≤ m < size nodes ∧ node_end nodes m = v).

(** [inside_max_end] bounds [end] over the subtree, at every real node of
    the tree of root level [L] *)
Definition ime_bound (L : nat) nodes : Prop :=
  ∀ k r m, in_tree L k r → r < size nodes →
    lo k r ≤ m ≤ hi k r → 0 ≤ m < size nodes →
    node_end nodes m ≤ node_ime nodes r.

(** [x] is [x0] after some assignments to its [inside_max_end] *)
Inductive ime_upd : Node → Node → Prop :=
  | ime_upd_refl x : ime_upd x x
  | ime_upd_set v x0 x : ime_upd x0 x → ime_upd x0 (node_set_ime v x).

(** nodes as the builder makes them *)
Definition fresh nodes : Prop :=
  ∀ r, node_ime nodes r = node_end nodes r.

(** the bottom-up pass: [inside_max_end] of the level-[j] node [r] of
    [nodes] is right for the items of [nodes0] *)
Definition ime_ok (nodes0 nodes : list Node) (j : nat) (r : Rank) : Prop :=
  is_max_end nodes0 (lo j r) (hi j r) (node_ime nodes r).

(** [right_border_ime] covers the subtree of the level-[j] border node [b] *)
Definition border_ok (nodes0 : list Node) (j : nat) (b : Rank) (rbi : Pos)
    : Prop :=
  is_max_end nodes0 (lo j b) (hi j b) rbi.

(** the invariant of [index_level] at level [S k'] before it visits [n];
    [Bk] and [Bk'] are the border nodes of levels [S k'] and [k'] *)
Definition inner_inv (L : nat) (nodes0 : list Node) (k' : nat)
    (Bk Bk' : Rank) (n : Rank) (nodes : list Node) (rbi : Pos) : Prop :=
  Forall2 ime_upd nodes0 nodes
  ∧ (∀ j r, in_tree L j r → r < size nodes0 →
       (j < S k')%nat ∨ (j = S k' ∧ r < n) → ime_ok nodes0 nodes j r)
  ∧ (n ≤ Bk → border_ok nodes0 k' Bk' rbi)
  ∧ (Bk < n → border_ok nodes0 (S k') Bk rbi).

(** the invariant of [index_levels] before level [k]; [b] is the border
    node of level [k - 1] *)
Definition outer_inv (L : nat) (nodes0 : list Node) (k : nat) (b : Rank)
    (nodes : list Node) (rbi : Pos) : Prop :=
  Forall2 ime_upd nodes0 nodes
  ∧ (∀ j r, in_tree L j r → r < size nodes0 → (j < k)%nat →
       ime_ok nodes0 nodes j r)
  ∧ border_ok nodes0 (k - 1) b rbi.

(** The invariant of a constructed index with root level [L] *)
Definition wf_index (L : nat) (t : @iit_base Node) : Prop :=
  (root_level t = L ∧ root t = pow2 L - 1
   ∧ full_size t = if decide (size (nodes t) = 0) then 0 else pow2 (S L) - 1)
  ∧ (L ≤ 61)%nat ∧ size (nodes t) < 2 ^ 62
  ∧ size (nodes t) ≤ pow2 (S L) - 1
  ∧ (size (nodes t) = 0 → L = 0%nat)
  ∧ sorted_beg (nodes t)
  ∧ ∀ j r, in_tree L j r → r < size (nodes t) →
      is_max_end (nodes t) (lo j r) (hi j r) (node_ime (nodes t) r).

(** [inside_max_end] is the largest [end] in the subtree, at every node *)
Definition inside_augmented nodes : Prop :=
  ∀ r, 0 ≤ r < size nodes →
    (∀ m, 0 ≤ m < size nodes → in_subtree r (level r) m →
       node_end nodes m ≤ node_ime nodes r)
    ∧ ∃ m, 0 ≤ m < size nodes ∧ in_subtree r (level r) m
           ∧ node_ime nodes r = node_end nodes m.

End NodeSpec.

(** two nodes, of any two node types, hold the same item *)
Definition same_item {Node1 Node2 : Type} `{!IitNode Node1} `{!IitNode Node2}
    (x : Node1) (y : Node2) : Prop :=
  item (node_base x) = item (node_base y).

Section IitiiSpec.

Implicit Types nodes : list iitii_node.

(** A real node outside the subtree of the level-[k] node [r] that begins
    before [r] does, or not before *)
Definition outside_left nodes (r : Rank) (k : nat) (m : Rank) : Prop :=
  0 ≤ m < size nodes ∧ ¬ (lo k r ≤ m ≤ hi k r)
  ∧ node_beg nodes m < node_beg nodes r.

Definition outside_right nodes (r : Rank) (k : nat) (m : Rank) : Prop :=
  0 ≤ m < size nodes ∧ ¬ (lo k r ≤ m ≤ hi k r)
  ∧ node_beg nodes r ≤ node_beg nodes m.

(** [v] is the value [outside_max_end] is documented to have at [r] *)
Definition ome_ok nodes (r : Rank) (k : nat) (v : Pos) : Prop :=
  (∀ m, outside_left nodes r k m → node_end nodes m ≤ v)
  ∧ ((∃ m, outside_left nodes r k m) →
      ∃ m, outside_left nodes r k m ∧ node_end nodes m = v)
  ∧ ((¬ ∃ m, outside_left nodes r k m) → v = Pos_min).

(** [v] is the value [outside_min_beg] is documented to have at [r] *)
Definition omb_ok nodes (r : Rank) (k : nat) (v : Pos) : Prop :=
  (∀ m, outside_right nodes r k m → v ≤ node_beg nodes m)
  ∧ ((∃ m, outside_right nodes r k m) →
      ∃ m, outside_right nodes r k m ∧ node_beg nodes m = v)
  ∧ ((¬ ∃ m, outside_right nodes r k m) → v = Pos_max).

(** two node arrays that differ in [outside_max_end] only *)
Definition same_base nodes0 nodes : Prop :=
  Forall2 (λ x0 x, iitii_base x = iitii_base x0) nodes0 nodes.

(** The invariant of a constructed [iitii] *)
Definition wf_iitii (L : nat) (t : iitii) : Prop :=
  wf_index L (super t)
  ∧ (∀ r, 0 ≤ r < size (nodes (super t)) →
       ome_ok (nodes (super t)) r (level r) (node_ome (nodes (super t)) r))
  ∧ (size (nodes (super t)) = 0 → ∀ q, model t q = None).

(** [outside_max_end] is what lines 348-349 say, at every node *)
Definition outside_augmented nodes : Prop :=
  ∀ r, 0 ≤ r < size nodes →
    let outside m :=
      0 ≤ m < size nodes ∧ ¬ in_subtree r (level r) m
      ∧ node_beg nodes m < node_beg nodes r in
    (∀ m, outside m → node_end nodes m ≤ node_ome nodes r)
    ∧ ((∃ m, outside m) → ∃ m, outside m ∧ node_ome nodes r = node_end nodes m)
    ∧ ((¬ ∃ m, outside m) → node_ome nodes r = Pos_min)
    ∧ (leftmost_leaf2 r = 0 → node_ome nodes r = Pos_min).

(** [v] is the least [beg] of a real node outside the subtree of the
    level-[k] node [r] that does not begin before [r], or [Pos_max] when
    there is none (lines 352-353) *)
Definition is_outside_min_beg nodes (r : Rank) (k : nat) (v : Pos) : Prop :=
  let outside m :=
    0 ≤ m < size nodes ∧ ¬ in_subtree r k m
    ∧ node_beg nodes r ≤ node_beg nodes m in
  (∀ m, outside m → v ≤ node_beg nodes m)
  ∧ ((∃ m, outside m) → ∃ m, outside m ∧ v = node_beg nodes m)
  ∧ ((¬ ∃ m, outside m) → v = Pos_max).

End IitiiSpec.

Section AnswerSpec.

Context {Node : Type} `{!IitNode Node}.

(** the items that the ranks of an answer point to *)
Definition answer_items (nodes : list Node) (ans : list Rank) : list Item :=
  omap (λ m, node_items nodes !! Z.to_nat m) ans.

(** the interval of a node *)
Definition interval_of (n : Node) : Pos * Pos := (beg n, end_ n).

End AnswerSpec.

Section ClimbSpec.

(** the test that ends the climb of [iitii::overlap] below the root: the
    node is real and neither side can hold an overlap outside its subtree *)
Definition climb_stops (nodes : list iitii_node) (qbeg qend : Pos)
    (r : Rank) (k : Level) : Prop :=
  r < size nodes ∧ node_ome nodes r ≤ qbeg
  ∧ qend ≤ outside_min_beg nodes r k.

End ClimbSpec.

(** * Verification *)

Lemma pow2_0 : pow2 0 = 1.
Proof. reflexivity. Qed.

Lemma pow2_S k : pow2 (S k) = 2 * pow2 k.
Proof. unfold pow2. rewrite Nat2Z.inj_succ, Z.pow_succ_r; lia. Qed.

Lemma pow2_pos k : 0 < pow2 k.
Proof. unfold pow2. apply Z.pow_pos_nonneg; lia. Qed.

Lemma pow2_le j k : (j ≤ k)%nat → pow2 j ≤ pow2 k.
Proof. intros. unfold pow2. apply Z.pow_le_mono_r; lia. Qed.

Lemma pow2_lt j k : (j < k)%nat → 2 * pow2 j ≤ pow2 k.
Proof. intros. rewrite <- pow2_S. apply pow2_le. lia. Qed.

Lemma pow2_le_inv j k : pow2 j ≤ pow2 k → (j ≤ k)%nat.
Proof.
  intros H. destruct (decide (j ≤ k)%nat) as [|Hn]; [done|].
  assert (2 * pow2 k ≤ pow2 j) by (apply pow2_lt; lia).
  pose proof (pow2_pos k). lia.
Qed.

Lemma pow2_64 : pow2 64 = 2 ^ 64.
Proof. reflexivity. Qed.

Lemma wrap_small z : 0 ≤ z < 2 ^ 64 → wrap z = z.
Proof. intros. unfold wrap. apply Z.mod_small. lia. Qed.

Lemma wrap_range z : 0 ≤ wrap z < 2 ^ 64.
Proof. unfold wrap. apply Z.mod_pos_bound. lia. Qed.

Lemma shl_pow2 x k : 0 ≤ x → x * pow2 k < 2 ^ 64 → shl x k = x * pow2 k.
Proof.
  intros Hx Hb. unfold shl. rewrite Z.shiftl_mul_pow2 by lia.
  apply wrap_small. fold (pow2 k). pose proof (pow2_pos k). nia.
Qed.

Lemma shl_1 k : (k < 64)%nat → shl 1 k = pow2 k.
Proof.
  intros. rewrite shl_pow2; [lia|lia|].
  assert (2 * pow2 k ≤ pow2 64) by (apply pow2_lt; lia).
  rewrite pow2_64 in *. pose proof (pow2_pos k). lia.
Qed.

(** Trailing zeros *)
Lemma ctzll_decomp bits x :
  0 < x < pow2 bits →
  (ctzll bits x < bits)%nat
  ∧ ∃ j, 0 ≤ j ∧ x = (2 * j + 1) * pow2 (ctzll bits x).
Proof.
  revert x. induction bits as [|b IH]; intros x Hx.
  - rewrite pow2_0 in Hx. lia.
  - cbn [ctzll]. rewrite Z.bit0_odd. destruct (Z.odd x) eqn:Hodd.
    + split; [lia|]. exists (x / 2). rewrite pow2_0.
      pose proof (Z.div_mod x 2). rewrite Zmod_odd, Hodd in *. lia.
    + rewrite Z.shiftr_div_pow2 by lia. change (2 ^ 1) with 2.
      pose proof (Z.div_mod x 2) as Hdm. rewrite Zmod_odd, Hodd in Hdm.
      rewrite pow2_S in Hx.
      destruct (IH (x / 2)) as [Hlt (j & Hj & Heq)]; [lia|].
      split; [lia|]. exists j. split; [done|]. rewrite pow2_S. lia.
Qed.

Lemma odd_pow2_unique i j a b :
  0 ≤ i → 0 ≤ j → (2 * i + 1) * pow2 a = (2 * j + 1) * pow2 b → a = b ∧ i = j.
Proof.
  revert b. induction a as [|a IH]; intros b Hi Hj H.
  - destruct b as [|b]; [rewrite pow2_0 in H; lia|].
    rewrite pow2_0, pow2_S in H. lia.
  - destruct b as [|b].
    + rewrite pow2_0, pow2_S in H. lia.
    + rewrite !pow2_S in H. destruct (IH b Hi Hj); [lia|]. lia.
Qed.

Lemma wrap_lnot r : 0 ≤ r < 2 ^ 64 → wrap (Z.lnot r) = 2 ^ 64 - 1 - r.
Proof.
  intros. unfold wrap, Z.lnot. symmetry.
  apply (Z.mod_unique _ _ (-1)); lia.
Qed.

Lemma level_decomp r :
  0 ≤ r < 2 ^ 64 - 1 →
  (level r < 64)%nat ∧ ∃ i, 0 ≤ i ∧ r = (2 * i + 1) * pow2 (level r) - 1.
Proof.
  intros Hr. unfold level. rewrite wrap_lnot by lia.
  destruct (ctzll_decomp 64 (2 ^ 64 - 1 - r)) as [Hlt (j & Hj & Heq)].
  { rewrite pow2_64. lia. }
  split; [done|].
  set (k := ctzll 64 (2 ^ 64 - 1 - r)) in *.
  exists (pow2 (63 - k) - j - 1).
  assert (Hp : pow2 64 = 2 * pow2 (63 - k) * pow2 k).
  { replace 64%nat with (S ((63 - k) + k)) by lia. rewrite pow2_S.
    unfold pow2. rewrite Nat2Z.inj_add, Z.pow_add_r; lia. }
  rewrite pow2_64 in Hp.
  pose proof (pow2_pos k). pose proof (pow2_pos (63 - k)).
  split; [nia|]. nia.
Qed.

Lemma level_at_level k r : level r = k → 0 ≤ r < 2 ^ 64 - 1 → at_level k r.
Proof. intros <- Hr. by destruct (level_decomp r Hr) as [_ ?]. Qed.

Lemma at_level_level k r : at_level k r → r < 2 ^ 64 - 1 → level r = k.
Proof.
  intros (i & Hi & Hr) Hb.
  assert (0 ≤ r) by (pose proof (pow2_pos k); nia).
  destruct (level_decomp r) as [_ (j & Hj & Hr')]; [lia|].
  destruct (odd_pow2_unique j i (level r) k); [done|done|lia|done].
Qed.

Lemma pow2_63 : pow2 63 = 2 ^ 63.
Proof. reflexivity. Qed.

Lemma pow2_bound k : (k ≤ 63)%nat → pow2 k ≤ 2 ^ 63.
Proof. intros. rewrite <- pow2_63. by apply pow2_le. Qed.

Section Tree.

Variable L : nat.
Hypothesis HL : (L ≤ 62)%nat.

Lemma in_tree_bounds k r :
  in_tree L k r →
  (k ≤ L)%nat ∧ pow2 k - 1 ≤ r ∧ r + pow2 k ≤ pow2 (S L) - 1
  ∧ pow2 (S L) ≤ 2 ^ 63 ∧ 0 < pow2 k.
Proof.
  intros [(i & Hi & Hr) Hb]. pose proof (pow2_pos k).
  pose proof (pow2_bound (S L) ltac:(lia)).
  assert (pow2 k - 1 ≤ r) by nia.
  repeat split; try lia.
  apply pow2_le_inv. rewrite pow2_S in Hb. lia.
Qed.

Lemma leftmost_leaf_eq k r : in_tree L k r → leftmost_leaf r k = lo k r.
Proof.
  intros H. destruct (in_tree_bounds _ _ H) as (? & ? & ? & ? & ?).
  unfold leftmost_leaf, lo. rewrite shl_1 by lia.
  rewrite (wrap_small (pow2 k - 1)) by lia. apply wrap_small. lia.
Qed.

Lemma rightmost_leaf_eq k r : in_tree L k r → rightmost_leaf r k = hi k r.
Proof.
  intros H. destruct (in_tree_bounds _ _ H) as (? & ? & ? & ? & ?).
  unfold rightmost_leaf, hi. rewrite shl_1 by lia.
  rewrite (wrap_small (pow2 k - 1)) by lia. apply wrap_small. lia.
Qed.

Lemma left_eq k r : in_tree L (S k) r → left r (S k) = r - pow2 k.
Proof.
  intros H. destruct (in_tree_bounds _ _ H) as (? & ? & ? & ? & ?).
  rewrite !pow2_S in *.
  unfold left. replace (S k - 1)%nat with k by lia. cbn [Nat.ltb Nat.leb].
  rewrite shl_1 by lia. apply wrap_small. lia.
Qed.

Lemma right_eq k r : in_tree L (S k) r → right r (S k) = r + pow2 k.
Proof.
  intros H. destruct (in_tree_bounds _ _ H) as (? & ? & ? & ? & ?).
  rewrite !pow2_S in *.
  unfold right. replace (S k - 1)%nat with k by lia. cbn [Nat.ltb Nat.leb].
  rewrite shl_1 by lia. apply wrap_small. lia.
Qed.

Lemma in_tree_left k r : in_tree L (S k) r → in_tree L k (r - pow2 k).
Proof.
  intros H. destruct (in_tree_bounds _ _ H) as (? & ? & ? & ? & ?).
  destruct H as [(i & Hi & Hr) Hb]. rewrite pow2_S in *.
  split; [|lia]. exists (2 * i). split; lia.
Qed.

Lemma in_tree_right k r : in_tree L (S k) r → in_tree L k (r + pow2 k).
Proof.
  intros H. destruct (in_tree_bounds _ _ H) as (? & ? & ? & ? & ?).
  destruct H as [(i & Hi & Hr) Hb]. rewrite pow2_S in *.
  split; [|lia]. exists (2 * i + 1). split; lia.
Qed.

Lemma in_tree_level k r : in_tree L k r → level r = k.
Proof.
  intros H. destruct (in_tree_bounds _ _ H) as (? & ? & ? & ? & ?).
  apply at_level_level; [apply H|]. lia.
Qed.

Lemma in_tree_root : in_tree L L (pow2 L - 1).
Proof.
  split; [|rewrite pow2_S; lia]. exists 0. split; lia.
Qed.

Lemma in_tree_top r : in_tree L L r → r = pow2 L - 1.
Proof.
  intros [(i & Hi & Hr) Hb]. rewrite pow2_S in Hb. pose proof (pow2_pos L).
  assert (i = 0) by nia. subst i. lia.
Qed.

Lemma in_tree_unique k r r' m :
  in_tree L k r → in_tree L k r' →
  lo k r ≤ m ≤ hi k r → lo k r' ≤ m ≤ hi k r' → r = r'.
Proof.
  intros [(i & Hi & Hr) _] [(j & Hj & Hr') _]. unfold lo, hi.
  pose proof (pow2_pos k). intros ? ?.
  assert (i = j) by nia. by subst.
Qed.

(** Bit [k+1] of a level-[k] rank tells on which side of its parent it is *)
Lemma testbit_at_level k i :
  0 ≤ i →
  Z.testbit ((2 * i + 1) * pow2 k - 1) (Z.of_nat (k + 1)) = Z.odd i.
Proof.
  intros Hi. pose proof (pow2_pos k).
  rewrite Z.testbit_odd, Z.shiftr_div_pow2 by lia. f_equal.
  fold (pow2 (k + 1)). replace (k + 1)%nat with (S k) by lia.
  rewrite pow2_S. symmetry.
  apply (Z.div_unique _ _ _ (pow2 k - 1)); lia.
Qed.

Lemma parent_cases k r :
  in_tree L k r → (k < L)%nat →
  ∃ p, parent (pow2 L - 1) r k = p ∧ in_tree L (S k) p
       ∧ (p = r + pow2 k ∨ p = r - pow2 k).
Proof.
  intros H Hk. destruct (in_tree_bounds _ _ H) as (? & ? & ? & ? & ?).
  destruct H as [(i & Hi & Hr) Hb].
  assert (HkL : 2 * pow2 k ≤ pow2 L) by (by apply pow2_lt).
  rewrite !pow2_S in *.
  assert (Hne : r ≠ pow2 L - 1).
  { intros Heq. apply (f_equal (λ x, x + 1)) in Heq.
    replace (r + 1) with ((2 * i + 1) * pow2 k) in Heq by lia.
    replace (pow2 L - 1 + 1) with ((2 * 0 + 1) * pow2 L) in Heq by lia.
    apply odd_pow2_unique in Heq; lia. }
  unfold parent. cbn zeta. destruct (Z.eqb_spec r (pow2 L - 1)) as [|_]; [done|].
  rewrite shl_1 by lia.
  assert (Hbit : Z.testbit r (Z.of_nat (k + 1)) = Z.odd i)
    by (rewrite Hr; by apply testbit_at_level).
  rewrite Hbit.
  pose proof (Z.div_mod i 2 ltac:(lia)) as Hdm. rewrite Zmod_odd in Hdm.
  destruct (Z.odd i) eqn:Hodd.
  - rewrite wrap_small by lia. eexists; split; [done|]. split; [|by right].
    split; [exists (i / 2); rewrite pow2_S; split; [lia|nia]|].
    rewrite !pow2_S. lia.
  - rewrite wrap_small by lia. eexists; split; [done|]. split; [|by left].
    assert (Hat : r + pow2 k = (2 * (i / 2) + 1) * pow2 (S k) - 1)
      by (rewrite pow2_S; nia).
    split; [exists (i / 2); split; [lia|done]|].
    rewrite !pow2_S.
    assert (Hpk : pow2 L = pow2 (L - S k) * (2 * pow2 k)).
    { replace L with ((L - S k) + S k)%nat at 1 by lia.
      unfold pow2 at 1. rewrite Nat2Z.inj_add, Z.pow_add_r by lia.
      fold (pow2 (L - S k)) (pow2 (S k)). by rewrite pow2_S. }
    pose proof (pow2_pos (L - S k)).
    assert (i / 2 + 1 ≤ pow2 (L - S k)) by nia.
    nia.
Qed.

End Tree.

Section ScanProofs.
Context {Node : Type} `{!IitNode Node}.

Implicit Types nodes : list Node.

Lemma size_nonneg nodes : 0 ≤ size nodes.
Proof. unfold size. lia. Qed.

Lemma scan_leaves_spec nodes qbeg qend cnt r ans :
  0 ≤ r → r + Z.of_nat cnt < 2 ^ 64 →
  ∃ r' new,
    scan_leaves nodes cnt r qbeg qend ans = (r', ans ++ new)
    ∧ r ≤ r' ≤ r + Z.of_nat cnt
    ∧ (∀ m, m ∈ new ↔ (r ≤ m < r' ∧ qbeg < node_end nodes m))
    ∧ (∀ m, r ≤ m < r' → node_beg nodes m < qend)
    ∧ (r' < r + Z.of_nat cnt → qend ≤ node_beg nodes r')
    ∧ NoDup new.
Proof.
  revert r ans. induction cnt as [|c IH]; intros r ans Hr Hb.
  - exists r, []. cbn [scan_leaves]. rewrite app_nil_r.
    refine (conj _ (conj _ (conj _ (conj _ (conj _ _))))); [done|lia|..];
      try (intros; lia); [|constructor].
    intros m. rewrite elem_of_nil. lia.
  - cbn [scan_leaves]. destruct (Z.leb_spec qend (node_beg nodes r)) as [Hge|Hlt].
    + exists r, []. rewrite app_nil_r.
      refine (conj _ (conj _ (conj _ (conj _ (conj _ _))))); [done|lia|..];
        try (intros; lia); [|constructor].
      intros m. rewrite elem_of_nil. lia.
    + rewrite wrap_small by lia.
      set (ans1 := if qbeg <? node_end nodes r then ans ++ [r] else ans).
      destruct (IH (r + 1) ans1)
        as (r' & new & Heq & Hr' & Hnew & Hbeg & Hstop & Hnd); [lia|lia|].
      rewrite Heq.
      exists r', ((if qbeg <? node_end nodes r then [r] else []) ++ new).
      refine (conj _ (conj _ (conj _ (conj _ (conj _ _))))).
      * f_equal. subst ans1. destruct (qbeg <? node_end nodes r);
          by rewrite <- ?app_assoc.
      * lia.
      * intros m. rewrite elem_of_app, Hnew.
        destruct (Z.ltb_spec qbeg (node_end nodes r)).
        -- rewrite list_elem_of_singleton.
           split; [intros [->|?]; lia|].
           intros [? ?]. destruct (decide (m = r)); [by left|right; lia].
        -- rewrite elem_of_nil.
           split; [intros [[]|?]; lia|].
           intros [? ?]. right. split; [|done].
           destruct (decide (m = r)) as [->|]; lia.
      * intros m Hm. destruct (decide (m = r)) as [->|]; [done|].
        apply Hbeg. lia.
      * intros. apply Hstop. lia.
      * destruct (qbeg <? node_end nodes r); [|done].
        cbn. constructor; [|done]. rewrite Hnew. lia.
Qed.

Section WithTree.

Variable L : nat.
Hypothesis HL : (L ≤ 62)%nat.
Variable nodes : list Node.
Variables qbeg qend : Z.
Hypothesis Hsize : size nodes < 2 ^ 63.
Hypothesis Hsorted : sorted_beg nodes.
Hypothesis Hime : ime_bound L nodes.

Lemma scan_spec k : ∀ r ans,
  in_tree L k r →
  ∃ c new,
    scan nodes r k qbeg qend ans = (c, ans ++ new)
    ∧ NoDup new
    ∧ ∀ m, m ∈ new ↔ (lo k r ≤ m ≤ hi k r ∧ overlaps nodes qbeg qend m).
Proof.
  induction k as [|ck IH]; intros r ans Hin;
    destruct (in_tree_bounds L HL _ _ Hin) as (HkL & Hlo & Hhi & HLb & Hp);
    pose proof (size_nonneg nodes) as HN.
  - (* leaves *)
    cbn [scan]. destruct (Z.leb_spec (size nodes) r) as [Himag|Hreal].
    + exists 1, []. rewrite app_nil_r. split; [done|]. split; [constructor|].
      intros m. rewrite elem_of_nil. unfold lo, hi, overlaps. rewrite pow2_0. lia.
    + cbn [Nat.leb]. rewrite (leftmost_leaf_eq L HL), (rightmost_leaf_eq L HL) by done.
      rewrite (wrap_small (size nodes - 1)) by lia.
      unfold lo, hi in *. rewrite pow2_0 in *.
      replace (Z.to_nat (Z.min (r + (1 - 1)) (size nodes - 1) + 1 - (r - (1 - 1))))
        with 1%nat by lia.
      destruct (scan_leaves_spec nodes qbeg qend 1 (r - (1 - 1)) ans)
        as (r' & new & Heq & Hr' & Hnew & Hbeg & Hstop & Hnd); [lia|lia|].
      rewrite Heq. eexists _, new. split; [done|]. split; [done|].
      intros m. rewrite Hnew. unfold overlaps. split.
      * intros [? ?]. split; [lia|]. split; [lia|]. split; [|done].
        apply Hbeg. lia.
      * intros (? & ? & Hb & ?). split; [|done].
        destruct (decide (r' = r)) as [->|]; [|lia].
        replace m with r in * by lia. lia.
  - cbn [scan]. destruct (Z.leb_spec (size nodes) r) as [Himag|Hreal].
    + (* imaginary: only the left subtree can hold real nodes *)
      rewrite (left_eq L HL) by done.
      destruct (IH (r - pow2 ck) ans) as (c & new & Heq & Hnd & Hnew);
        [by apply in_tree_left|].
      rewrite Heq. eexists _, new. split; [done|]. split; [done|].
      intros m. rewrite Hnew. unfold lo, hi, overlaps. rewrite !pow2_S. lia.
    + destruct (Nat.leb_spec (S ck) 2) as [Hsmall|Hbig].
      * (* unrolled traversal *)
        rewrite (leftmost_leaf_eq L HL), (rightmost_leaf_eq L HL) by done.
        rewrite (wrap_small (size nodes - 1)) by lia.
        set (rml := Z.min (hi (S ck) r) (size nodes - 1)).
        assert (Hrml : lo (S ck) r ≤ rml + 1) by (unfold lo, hi in *; lia).
        destruct (scan_leaves_spec nodes qbeg qend
                    (Z.to_nat (rml + 1 - lo (S ck) r)) (lo (S ck) r) ans)
          as (r' & new & Heq & Hr' & Hnew & Hbeg & Hstop & Hnd);
          [unfold lo; lia|unfold lo, hi in *; lia|].
        rewrite Heq. eexists _, new. split; [done|]. split; [done|].
        intros m. rewrite Hnew. unfold overlaps. split.
        -- intros [? ?]. split; [unfold hi in *; lia|].
           split; [unfold lo in *; lia|]. split; [|done]. apply Hbeg. lia.
        -- intros (? & ? & Hb & ?). split; [|done]. split; [lia|].
           destruct (decide (m < r')); [done|exfalso].
           assert (qend ≤ node_beg nodes r') by (apply Hstop; lia).
           assert (node_beg nodes r' ≤ node_beg nodes m);
             [apply Hsorted; unfold lo in *; lia|lia].
      * (* textbook recursive search *)
        rewrite (left_eq L HL), (right_eq L HL) by done.
        destruct (Z.ltb_spec qbeg (node_ime nodes r)) as [Hin_q|Hout].
        -- destruct (IH (r - pow2 ck) ans) as (c1 & new1 & Heq1 & Hnd1 & Hnew1);
             [by apply in_tree_left|].
           rewrite Heq1.
           destruct (Z.ltb_spec (node_beg nodes r) qend) as [Hbq|Hbq].
           ++ set (mid := if qbeg <? node_end nodes r then [r] else []).
              destruct (IH (r + pow2 ck)
                (if qbeg <? node_end nodes r
                 then (ans ++ new1) ++ [r] else ans ++ new1))
                as (c2 & new2 & Heq2 & Hnd2 & Hnew2); [by apply in_tree_right|].
              rewrite Heq2. eexists _, (new1 ++ mid ++ new2). split.
              { f_equal. subst mid. destruct (qbeg <? node_end nodes r);
                  by rewrite <- ?app_assoc. }
              split.
              { apply list.NoDup_app. split; [done|]. split.
                - intros m Hm1 Hm2. apply Hnew1 in Hm1.
                  apply elem_of_app in Hm2 as [Hm2|Hm2].
                  + subst mid. destruct (qbeg <? node_end nodes r);
                      [apply list_elem_of_singleton in Hm2|
                       apply elem_of_nil in Hm2; done].
                    unfold hi in Hm1. lia.
                  + apply Hnew2 in Hm2. unfold lo, hi in *. lia.
                - apply list.NoDup_app. split; [|split; [|done]].
                  + subst mid. destruct (qbeg <? node_end nodes r);
                      [apply NoDup_singleton|constructor].
                  + intros m Hm1 Hm2. apply Hnew2 in Hm2.
                    subst mid. destruct (qbeg <? node_end nodes r);
                      [apply list_elem_of_singleton in Hm1|
                       apply elem_of_nil in Hm1; done].
                    unfold lo in Hm2. lia. }
              intros m. rewrite !elem_of_app, Hnew1, Hnew2.
              unfold lo, hi, overlaps in *. rewrite !pow2_S in *.
              subst mid. destruct (Z.ltb_spec qbeg (node_end nodes r)).
              ** rewrite list_elem_of_singleton.
                 split; [intros [?|[->|?]]; lia|].
                 intros [? ?].
                 destruct (Z.lt_total m r) as [?|[->|?]];
                   [left|right;left|right;right]; try done; lia.
              ** rewrite elem_of_nil.
                 split; [intros [?|[[]|?]]; lia|].
                 intros [? ?].
                 destruct (Z.lt_total m r) as [?|[->|?]];
                   [left|lia|right;right]; lia.
           ++ eexists _, new1. split; [done|]. split; [done|].
              intros m. rewrite Hnew1.
              unfold lo, hi, overlaps in *. rewrite !pow2_S in *.
              split; [lia|]. intros [? (? & ? & ?)].
              destruct (decide (m < r)); [lia|exfalso].
              assert (node_beg nodes r ≤ node_beg nodes m);
                [apply Hsorted; lia|lia].
        -- exists 1, []. rewrite app_nil_r. split; [done|].
           split; [constructor|].
           intros m. rewrite elem_of_nil. split; [done|].
           intros [? (? & ? & ?)].
           assert (node_end nodes m ≤ node_ime nodes r);
             [by apply (Hime (S ck))|lia].
Qed.

End WithTree.
End ScanProofs.

Lemma at_level_in_tree L k r :
  at_level k r → (k ≤ L)%nat → r < pow2 (S L) - 1 → in_tree L k r.
Proof.
  intros (i & Hi & Hr) Hk Hb. split; [by exists i|].
  assert (Hp : pow2 (S L) = pow2 (L - k) * (2 * pow2 k)).
  { replace (S L) with ((L - k) + S k)%nat by lia.
    unfold pow2 at 1. rewrite Nat2Z.inj_add, Z.pow_add_r by lia.
    fold (pow2 (L - k)) (pow2 (S k)). by rewrite pow2_S. }
  pose proof (pow2_pos k). pose proof (pow2_pos (L - k)).
  assert (i + 1 ≤ pow2 (L - k)) by nia. nia.
Qed.

Lemma at_level_unique j k r : at_level j r → at_level k r → j = k.
Proof.
  intros (a & Ha & Hr) (b & Hb & Hr').
  destruct (odd_pow2_unique a b j k); [done|done|lia|done].
Qed.

(** The geometry loop *)
Lemma tree_geometry_from fuel sz j :
  (1 ≤ j ≤ 61)%nat → (62 ≤ j + fuel)%nat → sz < 2 ^ 62 →
  ∃ L, tree_geometry fuel sz j (pow2 (S j) - 1) = Some (L, pow2 (S L) - 1)
       ∧ (j ≤ L ≤ 61)%nat ∧ sz ≤ pow2 (S L) - 1
       ∧ (L = j ∨ pow2 L - 1 < sz).
Proof.
  revert j. induction fuel as [|f IH]; intros j Hj Hf Hsz; [lia|].
  cbn [tree_geometry].
  destruct (Z.ltb_spec (pow2 (S j) - 1) sz) as [Hlt|Hge].
  - assert (S j ≤ 61)%nat.
    { destruct (decide (S j ≤ 61)%nat) as [|Hn]; [done|exfalso].
      assert (pow2 62 ≤ pow2 (S j)) by (apply pow2_le; lia).
      change (pow2 62) with (2 ^ 62) in *. lia. }
    replace (S j + 1)%nat with (S (S j)) by lia.
    rewrite shl_1 by lia.
    pose proof (pow2_bound (S (S j)) ltac:(lia)). pose proof (pow2_pos (S (S j))).
    rewrite wrap_small by lia.
    destruct (IH (S j)) as (L & Heq & HL & Hsz' & Hprev); [lia|lia|done|].
    exists L. split; [done|]. split; [lia|]. split; [done|].
    right. destruct Hprev as [->|]; [done|done].
  - exists j. split; [done|]. lia.
Qed.

Lemma tree_geometry_spec sz :
  0 ≤ sz < 2 ^ 62 →
  ∃ L, tree_geometry 64 sz 0 0
       = Some (L, if decide (sz = 0) then 0 else pow2 (S L) - 1)
       ∧ (L ≤ 61)%nat ∧ sz ≤ pow2 (S L) - 1
       ∧ (sz = 0 → L = 0%nat) ∧ (0 < sz → (1 ≤ L)%nat)
       ∧ ((L ≤ 1)%nat ∨ pow2 L - 1 < sz).
Proof.
  intros Hsz. cbn [tree_geometry]. destruct (Z.ltb_spec 0 sz) as [Hpos|Hz].
  - destruct (tree_geometry_from 63 sz 1) as (L & Heq & HL & Hb & Hprev);
      [lia|lia|lia|].
    change (pow2 2 - 1) with 3 in Heq. change (wrap (shl 1 (1 + 1) - 1)) with 3.
    exists L. rewrite decide_False by lia. split; [done|].
    repeat split; lia.
  - exists 0%nat. rewrite decide_True by lia. split; [done|].
    rewrite pow2_S, pow2_0. repeat split; lia.
Qed.

Lemma rightmost_real_leaf_spec sz :
  0 < sz < 2 ^ 63 →
  ∃ i, 0 ≤ i ∧ rightmost_real_leaf sz = 2 * i ∧ sz - 2 ≤ 2 * i ≤ sz - 1.
Proof.
  intros Hsz. unfold rightmost_real_leaf.
  pose proof (Z.mod_pos_bound sz 2 ltac:(lia)).
  pose proof (Z.div_mod sz 2 ltac:(lia)).
  rewrite (wrap_small (2 - sz `mod` 2)) by lia.
  rewrite wrap_small by lia.
  exists ((sz - 1) / 2).
  pose proof (Z.div_mod (sz - 1) 2 ltac:(lia)).
  pose proof (Z.mod_pos_bound (sz - 1) 2 ltac:(lia)).
  assert (sz `mod` 2 = 0 ∨ sz `mod` 2 = 1) as [Hm|Hm] by lia; rewrite Hm in *.
  - assert ((sz - 1) `div` 2 = sz `div` 2 - 1) by lia. lia.
  - assert ((sz - 1) `div` 2 = sz `div` 2) by lia. lia.
Qed.

Section Border.

Variable L : nat.
Hypothesis HL : (L ≤ 62)%nat.
Variable b0 : Z.

Lemma on_border_leaf sz :
  0 < sz ≤ pow2 (S L) - 1 → b0 = rightmost_real_leaf sz → on_border L b0 0 b0.
Proof.
  intros Hsz ->. pose proof (pow2_bound (S L) ltac:(lia)).
  destruct (rightmost_real_leaf_spec sz) as (i & Hi & -> & Hr); [lia|].
  unfold on_border, lo, hi. rewrite pow2_0. split; [|lia].
  apply at_level_in_tree; [|lia|lia]. exists i. rewrite pow2_0. lia.
Qed.

Lemma on_border_unique j b b' :
  on_border L b0 j b → on_border L b0 j b' → b = b'.
Proof. intros [? ?] [? ?]. by eapply in_tree_unique. Qed.

Lemma on_border_parent j b :
  on_border L b0 j b → (j < L)%nat →
  on_border L b0 (S j) (parent2 (pow2 L - 1) b).
Proof.
  intros [Hin Hsp] Hj. unfold parent2. rewrite (in_tree_level L HL j) by done.
  destruct (parent_cases L HL j b Hin Hj) as (p & -> & Hp & Hcase).
  split; [done|]. unfold lo, hi in *. rewrite pow2_S. pose proof (pow2_pos j).
  destruct Hcase as [->| ->]; lia.
Qed.

Lemma on_border_root j b : on_border L b0 j b → b = pow2 L - 1 → j = L.
Proof.
  intros [[Hat _] _] ->. eapply at_level_unique; [done|].
  exists 0. split; lia.
Qed.

Lemma right_border_spec fuel j border back :
  on_border L b0 j back → length border = S j →
  (∀ i, (i ≤ j)%nat → ∃ b, border !! i = Some b ∧ on_border L b0 i b) →
  (L ≤ j + fuel)%nat →
  ∃ border', right_border fuel (pow2 L - 1) border back = Some border'
    ∧ ∀ i, (i ≤ L)%nat → ∃ b, border' !! i = Some b ∧ on_border L b0 i b.
Proof.
  revert j border back. induction fuel as [|f IH]; intros j border back Hb Hlen Hpre Hf.
  - destruct (in_tree_bounds L HL _ _ (proj1 Hb)) as (HjL & _).
    assert (j = L) by lia. subst j.
    rewrite (in_tree_top L HL back) by apply Hb.
    cbn [right_border]. rewrite Z.eqb_refl. by exists border.
  - cbn [right_border]. destruct (Z.eqb_spec back (pow2 L - 1)) as [Heq|Hne].
    + exists border. split; [done|].
      assert (j = L) as -> by (by eapply on_border_root). done.
    + destruct (in_tree_bounds L HL _ _ (proj1 Hb)) as (HjL & _).
      assert (j < L)%nat.
      { destruct (decide (j = L)) as [->|]; [|lia].
        by destruct Hne; apply in_tree_top, Hb. }
      apply (IH (S j)); [by apply on_border_parent| |  |lia].
      * rewrite length_app. cbn. lia.
      * intros i Hi. destruct (decide (i = S j)) as [->|].
        -- eexists. split; [|by apply on_border_parent].
           rewrite lookup_app_r by lia. by rewrite Hlen, Nat.sub_diag.
        -- destruct (Hpre i) as (b & Hb1 & Hb2); [lia|].
           exists b. split; [|done]. by apply lookup_app_l_Some.
Qed.

(** Children on the border *)
Lemma on_border_child j b b' :
  on_border L b0 (S j) b → on_border L b0 j b' →
  b' = b - pow2 j ∨ b' = b + pow2 j.
Proof.
  intros [Hin Hsp] Hb'.
  destruct (in_tree_bounds L HL _ _ Hin) as (? & ? & ? & ? & ?).
  pose proof (in_tree_left L HL j b Hin) as Hl.
  pose proof (in_tree_right L HL j b Hin) as Hr.
  destruct (decide (b0 < b)); [left|].
  { apply (on_border_unique j); [done|]. split; [done|].
    unfold lo, hi in *. rewrite !pow2_S in *. lia. }
  destruct (decide (b < b0)); [right|].
  { apply (on_border_unique j); [done|]. split; [done|].
    unfold lo, hi in *. rewrite !pow2_S in *. lia. }
  (* b0 = b cannot be: b0 lies below b' which is below b *)
  exfalso. assert (b0 = b) by lia. subst b0.
  destruct Hb' as [Hin' Hsp'].
  destruct (in_tree_bounds L HL _ _ Hin') as (? & ? & ? & ? & ?).
  destruct Hin as [(i & Hi & Hb) _], Hin' as [(i' & Hi' & Hb') _].
  unfold lo, hi in *. rewrite !pow2_S in *.
  assert (i' = 2 * i ∨ i' = 2 * i + 1 ∨ i' < 2 * i ∨ 2 * i + 1 < i') as Hc by lia.
  destruct Hc as [->|[->|[?|?]]]; nia.
Qed.

End Border.

Section Access.
Context {Node : Type} `{!IitNode Node}.

Implicit Types nodes : list Node.

Lemma ime_upd_item x0 x :
  ime_upd x0 x → item (node_base x) = item (node_base x0).
Proof.
  induction 1 as [|v x0 x _ IH]; [done|]. by rewrite node_base_set_ime.
Qed.

Lemma size_alter (f : Node → Node) i nodes :
  size (alter f i nodes) = size nodes.
Proof. unfold size. by rewrite length_alter. Qed.

Lemma node_end_alter v i nodes m :
  node_end (alter (node_set_ime v) i nodes) m = node_end nodes m.
Proof.
  unfold node_end. rewrite list_lookup_alter. case_decide; [|done].
  subst i. destruct (nodes !! Z.to_nat m); [|done].
  cbn. unfold end_. by rewrite node_base_set_ime.
Qed.

Lemma node_beg_alter v i nodes m :
  node_beg (alter (node_set_ime v) i nodes) m = node_beg nodes m.
Proof.
  unfold node_beg. rewrite list_lookup_alter. case_decide; [|done].
  subst i. destruct (nodes !! Z.to_nat m); [|done].
  cbn. unfold beg. by rewrite node_base_set_ime.
Qed.

Lemma node_ime_alter_eq v n nodes :
  0 ≤ n < size nodes →
  node_ime (alter (node_set_ime v) (Z.to_nat n) nodes) n = v.
Proof.
  intros Hn. unfold node_ime. rewrite list_lookup_alter_eq.
  destruct (lookup_lt_is_Some_2 nodes (Z.to_nat n)) as [x ->];
    [unfold size in Hn; lia|].
  cbn. unfold ime. by rewrite node_base_set_ime.
Qed.

Lemma node_ime_alter_ne v n nodes m :
  0 ≤ n → 0 ≤ m → m ≠ n →
  node_ime (alter (node_set_ime v) (Z.to_nat n) nodes) m = node_ime nodes m.
Proof.
  intros Hn Hm Hne. unfold node_ime.
  rewrite list_lookup_alter_ne; [done|lia].
Qed.

Lemma ime_upd_alter nodes0 nodes v i :
  Forall2 ime_upd nodes0 nodes →
  Forall2 ime_upd nodes0 (alter (node_set_ime v) i nodes).
Proof.
  intros H. revert i. induction H as [|x0 x l0 l Hx Hl IH]; intros i; [constructor|].
  destruct i as [|i]; cbn.
  - constructor; [by constructor|done].
  - constructor; [done|apply IH].
Qed.

Lemma ime_upd_size nodes0 nodes :
  Forall2 ime_upd nodes0 nodes → size nodes = size nodes0.
Proof. intros H. unfold size. apply Forall2_length in H. lia. Qed.

Lemma ime_upd_lookup nodes0 nodes i :
  Forall2 ime_upd nodes0 nodes →
  option_Forall2 ime_upd (nodes0 !! i) (nodes !! i).
Proof. intros H. by apply Forall2_lookup. Qed.

Lemma ime_upd_end nodes0 nodes m :
  Forall2 ime_upd nodes0 nodes → node_end nodes m = node_end nodes0 m.
Proof.
  intros H. unfold node_end.
  destruct (ime_upd_lookup nodes0 nodes (Z.to_nat m) H) as [x0 x Hx|]; [|done].
  cbn. unfold end_. by rewrite (ime_upd_item _ _ Hx).
Qed.

Lemma ime_upd_beg nodes0 nodes m :
  Forall2 ime_upd nodes0 nodes → node_beg nodes m = node_beg nodes0 m.
Proof.
  intros H. unfold node_beg.
  destruct (ime_upd_lookup nodes0 nodes (Z.to_nat m) H) as [x0 x Hx|]; [|done].
  cbn. unfold beg. by rewrite (ime_upd_item _ _ Hx).
Qed.

Lemma is_max_end_join nodes a b a1 b1 a2 b2 r v1 v2 :
  a ≤ a1 → b1 ≤ b → a ≤ a2 → b2 ≤ b → a ≤ r ≤ b → 0 ≤ r < size nodes →
  (∀ m, a ≤ m ≤ b → 0 ≤ m < size nodes →
     a1 ≤ m ≤ b1 ∨ m = r ∨ a2 ≤ m ≤ b2) →
  is_max_end nodes a1 b1 v1 → is_max_end nodes a2 b2 v2 →
  is_max_end nodes a b (Z.max (Z.max (node_end nodes r) v1) v2).
Proof.
  intros ? ? ? ? ? ? Hcov [Hub1 (m1 & ? & ? & ?)] [Hub2 (m2 & ? & ? & ?)]. split.
  - intros m Hm Hreal. destruct (Hcov m Hm Hreal) as [?|[->|?]].
    + pose proof (Hub1 m). lia.
    + lia.
    + pose proof (Hub2 m). lia.
  - destruct (Z.max_spec (Z.max (node_end nodes r) v1) v2) as [[_ ->]|[_ ->]].
    + exists m2. lia.
    + destruct (Z.max_spec (node_end nodes r) v1) as [[_ ->]|[_ ->]].
      * exists m1. lia.
      * exists r. lia.
Qed.

Lemma is_max_end_widen nodes a b a1 b1 v :
  a ≤ a1 → b1 ≤ b →
  (∀ m, a ≤ m ≤ b → 0 ≤ m < size nodes → a1 ≤ m ≤ b1) →
  is_max_end nodes a1 b1 v → is_max_end nodes a b v.
Proof.
  intros ? ? Hcov [Hub (m1 & ? & ? & ?)]. split.
  - intros m Hm Hreal. apply Hub; [|done]. by apply Hcov.
  - exists m1. lia.
Qed.

Lemma is_max_end_single nodes r :
  0 ≤ r < size nodes → is_max_end nodes r r (node_end nodes r).
Proof.
  intros Hr. split.
  - intros m Hm _. by replace m with r by lia.
  - exists r. lia.
Qed.

End Access.

Section BottomUp.
Context {Node : Type} `{!IitNode Node}.

Variable L : nat.
Hypothesis HL : (L ≤ 62)%nat.
Variable nodes0 : list Node.
Hypothesis HN : 0 < size nodes0 ≤ pow2 (S L) - 1.
Variable b0 : Z.
Hypothesis Hb0 : size nodes0 - 2 ≤ b0 ≤ size nodes0 - 1.

(** [inside_max_end] of the level-[j] node [r] is right *)

Lemma real_in_tree k n :
  at_level k n → (k ≤ L)%nat → n < size nodes0 → in_tree L k n.
Proof. intros. apply at_level_in_tree; [done|done|lia]. Qed.

Lemma imaginary_right_on_border k' n :
  in_tree L (S k') n → n < size nodes0 → size nodes0 ≤ n + pow2 k' →
  on_border L b0 (S k') n.
Proof.
  intros Hin Hn Hr. split; [done|].
  unfold lo, hi. rewrite pow2_S. pose proof (pow2_pos k'). lia.
Qed.

Lemma imaginary_border_left k' b b' :
  on_border L b0 (S k') b → on_border L b0 k' b' → size nodes0 ≤ b →
  b' = b - pow2 k'.
Proof.
  intros Hb Hb' Himag.
  destruct (on_border_child L HL b0 k' b b' Hb Hb') as [->| ->]; [done|].
  destruct Hb' as [_ Hsp]. unfold lo, hi in Hsp. lia.
Qed.

Lemma border_ok_up k' b b' rbi :
  on_border L b0 (S k') b → on_border L b0 k' b' → size nodes0 ≤ b →
  border_ok nodes0 k' b' rbi → border_ok nodes0 (S k') b rbi.
Proof.
  intros Hb Hb' Himag Hok.
  rewrite (imaginary_border_left k' b b' Hb Hb' Himag) in Hok.
  pose proof (pow2_pos k').
  eapply is_max_end_widen; [| | |exact Hok];
    unfold lo, hi; rewrite ?pow2_S; try lia.
Qed.

Section Level.

Variable k' : nat.
Variables Bk Bk' : Z.
Hypothesis HBk : on_border L b0 (S k') Bk.
Hypothesis HBk' : on_border L b0 k' Bk'.

Lemma index_level_step n nodes rbi :
  in_tree L (S k') n → n < size nodes0 → inner_inv L nodes0 k' Bk Bk' n nodes rbi →
  let ime := Z.max (node_end nodes n) (node_ime nodes (n - pow2 k')) in
  is_max_end nodes0 (lo (S k') n) (hi (S k') n)
    (if n + pow2 k' <? size nodes
     then Z.max ime (node_ime nodes (n + pow2 k'))
     else Z.max ime rbi).
Proof.
  intros Hin Hn (Hupd & Hok & Hrb1 & Hrb2). cbn zeta.
  destruct (in_tree_bounds L HL _ _ Hin) as (HkL & Hlo & Hhi & HLb & Hp).
  rewrite pow2_S in *.
  rewrite (ime_upd_size _ _ Hupd), (ime_upd_end _ _ n Hupd).
  pose proof (in_tree_left L HL k' n Hin) as Hl.
  pose proof (in_tree_right L HL k' n Hin) as Hr.
  assert (Hokl : ime_ok nodes0 nodes k' (n - pow2 k')) by (apply Hok; [done|lia|lia]).
  destruct (Z.ltb_spec (n + pow2 k') (size nodes0)) as [Hreal|Himag].
  - assert (Hokr : ime_ok nodes0 nodes k' (n + pow2 k')) by (apply Hok; [done|lia|lia]).
    eapply is_max_end_join; [..|exact Hokl|exact Hokr];
      unfold lo, hi; rewrite ?pow2_S; lia.
  - pose proof (imaginary_right_on_border k' n Hin Hn Himag) as Hbn.
    assert (n = Bk) by (by eapply on_border_unique). subst Bk.
    specialize (Hrb1 ltac:(lia)).
    destruct HBk' as [_ Hsp'].
    destruct (on_border_child L HL b0 k' n Bk' Hbn HBk') as [->| ->];
      (eapply is_max_end_join; [..|exact Hokl|exact Hrb1]);
      unfold lo, hi in *; rewrite ?pow2_S; lia.
Qed.

Lemma level_spacing n r :
  at_level (S k') n → at_level (S k') r → r < n + pow2 (S (S k')) →
  r ≤ n.
Proof.
  intros (i & Hi & ->) (j & Hj & ->). rewrite !pow2_S. pose proof (pow2_pos k').
  intros. assert (j ≤ i) by nia. nia.
Qed.

Lemma index_level_spec fuel : ∀ n nodes rbi,
  at_level (S k') n → inner_inv L nodes0 k' Bk Bk' n nodes rbi →
  size nodes0 - n ≤ Z.of_nat fuel →
  ∃ nodes' rbi',
    index_level fuel (S k') Bk (pow2 (S (S k'))) n (nodes, rbi)
    = Some (nodes', rbi')
    ∧ outer_inv L nodes0 (S (S k')) Bk nodes' rbi'.
Proof.
  induction fuel as [|f IH]; intros n nodes rbi Hat Hinv Hf.
  - (* out of fuel only past the last real node *)
    destruct Hinv as (Hupd & Hok & Hrb1 & Hrb2).
    cbn [index_level]. rewrite (ime_upd_size _ _ Hupd).
    destruct (Z.ltb_spec n (size nodes0)); [lia|].
    exists nodes, rbi. split; [done|]. split; [done|]. split.
    + intros j r Hin Hr Hj. apply Hok; [done|done|].
      destruct (decide (j = S k')) as [->|]; [right|left]; lia.
    + replace (S (S k') - 1)%nat with (S k') by lia.
      destruct (decide (Bk < n)); [by apply Hrb2|].
      apply (border_ok_up k' Bk Bk'); [done|done|lia|]. apply Hrb1. lia.
  - pose proof Hinv as (Hupd & Hok & Hrb1 & Hrb2).
    cbn [index_level]. rewrite (ime_upd_size _ _ Hupd).
    destruct (Z.ltb_spec n (size nodes0)) as [Hn|Hn].
    + destruct (in_tree_bounds L HL _ _ (proj1 HBk)) as (HkL & _).
      assert (Hin : in_tree L (S k') n) by (by apply real_in_tree).
      destruct (in_tree_bounds L HL _ _ Hin) as (_ & Hlo & Hhi & HLb & Hp).
      rewrite (left_eq L HL), (right_eq L HL) by done.
      pose proof (index_level_step n nodes rbi Hin Hn Hinv) as Hv.
      rewrite (ime_upd_size _ _ Hupd) in Hv. cbn zeta in Hv.
      set (ime := Z.max (node_end nodes n) (node_ime nodes (n - pow2 k'))) in *.
      set (v := if n + pow2 k' <? size nodes0
                then Z.max ime (node_ime nodes (n + pow2 k'))
                else Z.max ime rbi) in *.
      assert (Hstep : 0 ≤ n + pow2 (S (S k')) < 2 ^ 64).
      { rewrite !pow2_S in *. lia. }
      rewrite (wrap_small (n + _)) by done.
      apply IH.
      * destruct Hat as (i & Hi & ->). exists (i + 1).
        rewrite !pow2_S. split; lia.
      * split; [by apply ime_upd_alter|]. split; [|split].
        -- intros j r Hinr Hr Hj. unfold ime_ok.
           destruct (decide (r = n)) as [->|Hne].
           ++ assert (j = S k') as ->
                by (eapply at_level_unique; [apply Hinr|apply Hat]).
              rewrite node_ime_alter_eq; [done|].
              rewrite (ime_upd_size _ _ Hupd). lia.
           ++ destruct (in_tree_bounds L HL _ _ Hinr) as (_ & ? & _).
              pose proof (pow2_pos j).
              rewrite node_ime_alter_ne by lia.
              apply Hok; [done|done|].
              destruct Hj as [?|[-> ?]]; [by left|right]. split; [done|].
              assert (r ≤ n); [|lia].
              apply level_spacing; [apply Hat|apply Hinr|done].
        -- intros Hle. destruct (Z.eqb_spec n Bk); [rewrite !pow2_S in *; lia|].
           apply Hrb1. rewrite !pow2_S in *. lia.
        -- intros Hlt.
           assert (Bk ≤ n) by (apply level_spacing; [apply Hat|apply HBk|done]).
           destruct (Z.eqb_spec n Bk) as [->|]; [done|].
           apply Hrb2. lia.
      * rewrite !pow2_S in *. lia.
    + exists nodes, rbi. split; [done|]. split; [done|]. split.
      * intros j r Hin Hr Hj. apply Hok; [done|done|].
        destruct (decide (j = S k')) as [->|]; [right|left]; lia.
      * replace (S (S k') - 1)%nat with (S k') by lia.
        destruct (decide (Bk < n)); [by apply Hrb2|].
        apply (border_ok_up k' Bk Bk'); [done|done|lia|]. apply Hrb1. lia.
Qed.

End Level.
End BottomUp.

Section Construct.
Context {Node : Type} `{!IitNode Node}.

Section Levels.

Variable L : nat.
Hypothesis HL : (L ≤ 62)%nat.
Variable nodes0 : list Node.
Hypothesis HN : 0 < size nodes0 ≤ pow2 (S L) - 1.
Variable b0 : Z.
Hypothesis Hb0 : size nodes0 - 2 ≤ b0 ≤ size nodes0 - 1.
Variable border : list Z.
Hypothesis Hborder :
  ∀ i, (i ≤ L)%nat → ∃ b, border !! i = Some b ∧ on_border L b0 i b.

Lemma vec_at_border i :
  (i ≤ L)%nat → on_border L b0 i (vec_at border (Z.of_nat i)).
Proof.
  intros Hi. destruct (Hborder i Hi) as (b & Hb & Hon).
  unfold vec_at. by rewrite Nat2Z.id, Hb.
Qed.

Lemma index_levels_spec fuel : ∀ k' nodes rbi,
  outer_inv L nodes0 (S k') (vec_at border (Z.of_nat k')) nodes rbi →
  (L - k' ≤ fuel)%nat → (k' ≤ L)%nat →
  ∃ nodes' rbi',
    index_levels fuel (S k') L border (nodes, rbi) = Some (nodes', rbi')
    ∧ outer_inv L nodes0 (S L) (vec_at border (Z.of_nat L)) nodes' rbi'.
Proof.
  induction fuel as [|f IH]; intros k' nodes rbi Hinv Hf Hk.
  - assert (k' = L) as -> by lia. cbn [index_levels].
    destruct (Nat.leb_spec (S L) L); [lia|]. by exists nodes, rbi.
  - cbn [index_levels]. destruct (Nat.leb_spec (S k') L) as [Hle|Hgt].
    + replace (S k' - 1)%nat with k' by lia.
      pose proof (pow2_bound (S (S k')) ltac:(lia)) as Hpb.
      pose proof (pow2_pos k'). rewrite !pow2_S in Hpb.
      rewrite (shl_1 k') by lia.
      rewrite (shl_pow2 _ 2), (shl_pow2 _ 1)
        by (change (pow2 2) with 4; change (pow2 1) with 2; lia).
      change (pow2 2) with 4; change (pow2 1) with 2.
      rewrite (wrap_small (pow2 k' * 2 - 1)) by lia.
      replace (pow2 k' * 4) with (pow2 (S (S k'))) by (rewrite !pow2_S; lia).
      replace (pow2 k' * 2 - 1) with (pow2 (S k') - 1) by (rewrite !pow2_S; lia).
      pose proof (vec_at_border (S k') Hle) as HBk.
      pose proof (vec_at_border k' Hk) as HBk'.
      destruct (in_tree_bounds L HL _ _ (proj1 HBk)) as (_ & HBlo & _).
      destruct Hinv as (Hupd & Hok & Hrb). cbn [fst].
      replace (S k' - 1)%nat with k' in Hrb by lia.
      destruct (index_level_spec L HL nodes0 HN b0 Hb0 k'
                  (vec_at border (Z.of_nat (S k'))) (vec_at border (Z.of_nat k'))
                  HBk HBk' (length nodes) (pow2 (S k') - 1) nodes rbi)
        as (nodes1 & rbi1 & Heq & Hinv1).
      * exists 0. split; lia.
      * split; [done|]. split; [|split].
        -- intros j r Hin Hr [?|[-> ?]]; [by apply Hok|].
           destruct (in_tree_bounds L HL _ _ Hin) as (_ & ? & _). lia.
        -- done.
        -- lia.
      * rewrite <- (ime_upd_size _ _ Hupd). unfold size.
        pose proof (pow2_pos (S k')). lia.
      * rewrite Heq. cbn. apply IH; [done|lia|lia].
    + assert (k' = L) as -> by lia. by exists nodes, rbi.
Qed.

End Levels.

Local Arguments right_border : simpl never.
Local Arguments index_levels : simpl never.
Local Arguments rightmost_real_leaf : simpl never.
Local Arguments wrap : simpl never.
Local Arguments shl : simpl never.
Local Arguments vec_at : simpl never.
Local Arguments node_ime : simpl never.
Local Arguments size : simpl never.

(** What the constructor establishes *)
Lemma iit_base_new_spec (nodes0 : list Node) :
  fresh nodes0 → size nodes0 < 2 ^ 62 →
  ∃ t L, iit_base_new nodes0 = Some t
    ∧ root_level t = L ∧ root t = pow2 L - 1
    ∧ full_size t = (if decide (size nodes0 = 0) then 0 else pow2 (S L) - 1)
    ∧ (L ≤ 61)%nat ∧ size nodes0 ≤ pow2 (S L) - 1
    ∧ (size nodes0 = 0 → L = 0%nat)
    ∧ Forall2 ime_upd nodes0 (nodes t)
    ∧ (∀ j r, in_tree L j r → r < size nodes0 →
         ime_ok nodes0 (nodes t) j r).
Proof.
  intros Hfresh Hsz. pose proof (size_nonneg nodes0) as Hnn.
  destruct (tree_geometry_spec (size nodes0)) as (L & Hgeo & HL & Hfull & Hz & Hpos & _);
    [lia|].
  unfold iit_base_new. rewrite Hgeo. cbn.
  pose proof (pow2_bound L ltac:(lia)). pose proof (pow2_pos L).
  rewrite shl_1 by lia. rewrite wrap_small by lia.
  assert (Hrefl : Forall2 ime_upd nodes0 nodes0).
  { apply Forall2_same_length_lookup_2; [done|].
    intros i x y Hx Hy. rewrite Hx in Hy. injection Hy as ->. constructor. }
  assert (Hleaf : ∀ r, in_tree L 0 r → r < size nodes0 →
            ime_ok nodes0 nodes0 0 r).
  { intros r Hin Hr. unfold ime_ok, lo, hi. rewrite pow2_0, Hfresh.
    replace (r - (1 - 1)) with r by lia. replace (r + (1 - 1)) with r by lia.
    apply is_max_end_single. destruct (in_tree_bounds L ltac:(lia) _ _ Hin). lia. }
  destruct (Z.eqb_spec (size nodes0) 0) as [Hempty|Hne].
  - eexists _, L. split; [done|]. cbn. rewrite decide_True by done.
    split_and!; try done. intros j r Hin Hr.
    destruct (in_tree_bounds L ltac:(lia) _ _ Hin) as (_ & ? & _).
    pose proof (pow2_pos j). lia.
  - set (b0 := rightmost_real_leaf (size nodes0)).
    assert (HN : 0 < size nodes0 ≤ pow2 (S L) - 1) by lia.
    assert (Hb0 : size nodes0 - 2 ≤ b0 ≤ size nodes0 - 1).
    { destruct (rightmost_real_leaf_spec (size nodes0)) as (i & ? & Hi & ?); [lia|].
      subst b0. rewrite Hi. lia. }
    pose proof (on_border_leaf L ltac:(lia) b0 (size nodes0) HN eq_refl) as Hon0.
    destruct (right_border_spec L ltac:(lia) b0 64 0 [b0] b0) as (border & Hrb & Hborder);
      [done|done| |lia|].
    { intros i Hi. assert (i = 0%nat) as -> by lia. by exists b0. }
    rewrite Hrb. cbn.
    assert (Hv0 : vec_at border 0 = b0).
    { destruct (Hborder 0%nat ltac:(lia)) as (b & Hb & Hon).
      unfold vec_at. change (Z.to_nat 0) with 0%nat. rewrite Hb. cbn.
      by apply (on_border_unique L ltac:(lia) b0 0%nat). }
    destruct (index_levels_spec L ltac:(lia) nodes0 HN b0 Hb0 border Hborder
                64 0 nodes0 (node_ime nodes0 (vec_at border 0)))
      as (nodes1 & rbi1 & Heq & Hupd & Hok & _); [|lia|lia|].
    { split; [done|]. split.
      - intros j r Hin Hr Hj. assert (j = 0%nat) as -> by lia. by apply Hleaf.
      - change (Z.of_nat 0) with 0. rewrite Hv0. apply Hleaf; [apply Hon0|lia]. }
    rewrite Heq. cbn. eexists _, L. split; [done|]. cbn.
    rewrite decide_False by done.
    split_and!; try done; try lia.
    intros j r Hin Hr. apply Hok; [done|done|].
    destruct (in_tree_bounds L ltac:(lia) _ _ Hin). lia.
Qed.

End Construct.

(** The subtree of a node is the rank interval around it *)
Lemma in_subtree_0 r m : in_subtree r 0 m ↔ m = r.
Proof. split; [by inversion 1|intros ->; constructor]. Qed.

Lemma in_subtree_S r k m :
  in_subtree r (S k) m ↔
  m = r ∨ in_subtree (left r (S k)) k m ∨ in_subtree (right r (S k)) k m.
Proof.
  split.
  - inversion 1; subst; auto.
  - intros [->|[?|?]]; [constructor|by apply in_subtree_left|by apply in_subtree_right].
Qed.

Lemma in_subtree_span L k : (L ≤ 62)%nat → ∀ r m,
  in_tree L k r → in_subtree r k m ↔ lo k r ≤ m ≤ hi k r.
Proof.
  intros HL. induction k as [|k IH]; intros r m Hin.
  - rewrite in_subtree_0. unfold lo, hi. rewrite pow2_0. lia.
  - rewrite in_subtree_S, (left_eq L HL), (right_eq L HL) by done.
    rewrite (IH (r - pow2 k)), (IH (r + pow2 k))
      by (by apply in_tree_left || by apply in_tree_right).
    unfold lo, hi. rewrite !pow2_S. pose proof (pow2_pos k). lia.
Qed.

Section Sorting.
Context {Node : Type} `{!IitNode Node}.

Lemma sort_insert_Forall (P : Node → Prop) x l :
  P x → Forall P l → Forall P (sort_insert x l).
Proof.
  intros Hx. induction 1 as [|y l Hy Hl IH]; cbn; [by constructor|].
  destruct (node_lt y x); constructor; auto.
Qed.

Lemma sort_insert_sorted x l :
  StronglySorted beg_le l → StronglySorted beg_le (sort_insert x l).
Proof.
  induction 1 as [|y l Hl IH Hy]; cbn; [by repeat constructor|].
  destruct (node_lt y x) eqn:Hlt.
  - constructor; [done|]. apply sort_insert_Forall; [|done].
    unfold node_lt, beg_le in *.
    destruct (Z.eqb_spec (beg y) (beg x)); [lia|].
    apply Z.ltb_lt in Hlt. lia.
  - assert (Hxy : beg_le x y).
    { unfold node_lt, beg_le in *.
      destruct (Z.eqb_spec (beg y) (beg x)); [lia|].
      apply Z.ltb_ge in Hlt. lia. }
    constructor; [by constructor|]. constructor; [done|].
    eapply Forall_impl; [exact Hy|]. unfold beg_le in *. intros z ?. lia.
Qed.

Lemma iit_sort_sorted l : StronglySorted beg_le (iit_sort l).
Proof.
  induction l as [|x l IH]; cbn; [constructor|]. by apply sort_insert_sorted.
Qed.

Lemma iit_sort_Forall (P : Node → Prop) l : Forall P l → Forall P (iit_sort l).
Proof.
  induction 1 as [|x l Hx Hl IH]; cbn; [constructor|].
  by apply sort_insert_Forall.
Qed.

Lemma sort_insert_perm x l : sort_insert x l ≡ₚ x :: l.
Proof.
  induction l as [|y l IH]; cbn; [done|].
  destruct (node_lt y x); [|done]. rewrite IH. apply Permutation_swap.
Qed.

Lemma iit_sort_perm l : iit_sort l ≡ₚ l.
Proof.
  induction l as [|x l IH]; cbn; [done|]. by rewrite sort_insert_perm, IH.
Qed.

Lemma iit_sort_length l : length (iit_sort l) = length l.
Proof. by rewrite iit_sort_perm. Qed.

Lemma StronglySorted_lookup_le (l : list Node) (i j : nat) x y :
  StronglySorted beg_le l → (i ≤ j)%nat →
  l !! i = Some x → l !! j = Some y → beg x ≤ beg y.
Proof.
  intros Hs. revert i j. induction Hs as [|z l Hl IH Hz]; intros i j Hij Hi Hj.
  - done.
  - destruct i as [|i], j as [|j]; cbn in *; try lia.
    + by simplify_eq.
    + simplify_eq. rewrite Forall_lookup in Hz. by apply (Hz j).
    + apply (IH i j); [lia|done|done].
Qed.

Lemma sorted_beg_of_StronglySorted (l : list Node) :
  StronglySorted beg_le l → sorted_beg l.
Proof.
  intros Hs i j Hi Hij Hj. unfold node_beg.
  destruct (lookup_lt_is_Some_2 l (Z.to_nat i)) as [x Hx]; [unfold size in *; lia|].
  destruct (lookup_lt_is_Some_2 l (Z.to_nat j)) as [y Hy]; [unfold size in *; lia|].
  rewrite Hx, Hy. cbn. eapply StronglySorted_lookup_le; [done| |done|done]. lia.
Qed.

Lemma builder_range_nodes (items : list Item) :
  nodes_ (builder_range items) = map node_new items.
Proof.
  unfold builder_range, add_range.
  assert (H : ∀ b, nodes_ (fold_left (add) items b)
                   = nodes_ b ++ map node_new items).
  { induction items as [|it items IH]; intros b; cbn.
    - by rewrite app_nil_r.
    - rewrite IH. cbn. by rewrite <- app_assoc. }
  by rewrite H.
Qed.

Lemma builder_range_sort (items : list Item) :
  sort_ (builder_range items) = iit_sort.
Proof.
  unfold builder_range, add_range.
  assert (H : ∀ b, sort_ (fold_left (add) items b) = sort_ b).
  { induction items as [|it items IH]; intros b; cbn; [done|]. by rewrite IH. }
  by rewrite H.
Qed.

Lemma fresh_of_Forall (l : list Node) :
  Forall (λ n, ime n = end_ n) l → fresh l.
Proof.
  intros H r. unfold node_ime, node_end.
  destruct (l !! Z.to_nat r) as [x|] eqn:Hx; [|done].
  cbn. exact (Forall_lookup_1 _ _ _ _ H Hx).
Qed.

Lemma node_new_fresh (items : list Item) :
  Forall (λ n : Node, ime n = end_ n) (map node_new items).
Proof.
  induction items as [|it items IH]; cbn; constructor; [|done].
  unfold ime, end_. by rewrite node_base_new.
Qed.

End Sorting.

Section Index.
Context {Node : Type} `{!IitNode Node}.

Implicit Types nodes : list Node.

Lemma is_max_end_ext nodes nodes' a b v :
  size nodes' = size nodes → (∀ m, node_end nodes' m = node_end nodes m) →
  is_max_end nodes a b v → is_max_end nodes' a b v.
Proof.
  intros Hsz Hend [Hub (m & ? & ? & ?)]. split.
  - intros m' ? ?. rewrite Hend. apply Hub; [done|lia].
  - exists m. rewrite Hend. lia.
Qed.

Lemma sorted_beg_ext nodes nodes' :
  size nodes' = size nodes → (∀ m, node_beg nodes' m = node_beg nodes m) →
  sorted_beg nodes → sorted_beg nodes'.
Proof.
  intros Hsz Hbeg Hs i j ? ? ?. rewrite !Hbeg. apply Hs; lia.
Qed.

Lemma iit_base_new_wf nodes0 :
  fresh nodes0 → sorted_beg nodes0 → size nodes0 < 2 ^ 62 →
  ∃ t L, iit_base_new nodes0 = Some t ∧ wf_index L t
         ∧ Forall2 ime_upd nodes0 (nodes t).
Proof.
  intros Hfresh Hsorted Hsz.
  destruct (iit_base_new_spec nodes0 Hfresh Hsz)
    as (t & L & Heq & HrL & Hroot & Hfull & HL & HN & Hz & Hupd & Hok).
  pose proof (ime_upd_size _ _ Hupd) as Hsize.
  exists t, L. split; [done|]. split; [|done].
  unfold wf_index. rewrite Hsize. split_and!; try done.
  - eapply sorted_beg_ext; [done| |done].
    intros m. by apply ime_upd_beg.
  - intros j r Hin Hr. eapply is_max_end_ext; [done| |by apply Hok].
    intros m. by apply ime_upd_end.
Qed.

Section WithIndex.

Variable L : nat.
Variable t : @iit_base Node.
Hypothesis Hwf : wf_index L t.

Lemma wf_ime_bound : ime_bound L (nodes t).
Proof.
  destruct Hwf as (_ & _ & _ & _ & _ & _ & Hok).
  intros k r m Hin Hr Hm Hreal. destruct (Hok k r Hin Hr) as [Hub _].
  by apply Hub.
Qed.

Lemma scan_wf k r qbeg qend ans :
  in_tree L k r →
  ∃ c new,
    scan (nodes t) r k qbeg qend ans = (c, ans ++ new)
    ∧ NoDup new
    ∧ ∀ m, m ∈ new ↔ (lo k r ≤ m ≤ hi k r ∧ overlaps (nodes t) qbeg qend m).
Proof.
  destruct Hwf as (_ & HL & Hsz & _ & _ & Hs & _).
  apply scan_spec; [lia|lia|done|apply wf_ime_bound].
Qed.

Lemma overlap_wf qbeg qend :
  NoDup (overlap t qbeg qend).2
  ∧ ∀ m, m ∈ (overlap t qbeg qend).2 ↔ overlaps (nodes t) qbeg qend m.
Proof.
  destruct Hwf as ((HrL & Hroot & _) & HL & Hsz & HN & Hz & Hs & _).
  unfold overlap. rewrite HrL, Hroot.
  destruct (decide (size (nodes t) = 0)) as [Hempty|Hne].
  - rewrite (Hz Hempty). cbn. rewrite Hempty. cbn. split; [constructor|].
    intros m. rewrite elem_of_nil. unfold overlaps. lia.
  - destruct (scan_wf L (pow2 L - 1) qbeg qend [])
      as (c & new & Heq & Hnd & Hnew); [apply in_tree_root; lia|].
    rewrite Heq. cbn. split; [done|]. intros m.
    rewrite Hnew. unfold overlaps, lo, hi.
    rewrite pow2_S in HN. split; [tauto|]. intros ?. split; [lia|done].
Qed.

End WithIndex.

Lemma build_wf (items : list Item) :
  Z.of_nat (length items) < 2 ^ 62 →
  let b := builder_range items in
  ∃ t L, iit_base_new (sort_ b (nodes_ b)) = Some t ∧ wf_index L t
    ∧ Forall2 ime_upd (iit_sort (map node_new items)) (nodes t).
Proof.
  intros Hlen b. subst b. rewrite builder_range_sort, builder_range_nodes.
  apply iit_base_new_wf.
  - apply fresh_of_Forall, iit_sort_Forall, node_new_fresh.
  - apply sorted_beg_of_StronglySorted, iit_sort_sorted.
  - unfold size. by rewrite iit_sort_length, length_map.
Qed.

End Index.

Lemma same_base_size nodes0 nodes :
  same_base nodes0 nodes → size nodes = size nodes0.
Proof. intros H. unfold size. apply Forall2_length in H. lia. Qed.

Lemma same_base_lookup nodes0 nodes i :
  same_base nodes0 nodes →
  option_Forall2 (λ x0 x, iitii_base x = iitii_base x0)
    (nodes0 !! i) (nodes !! i).
Proof. intros H. by apply Forall2_lookup. Qed.

Lemma same_base_beg nodes0 nodes m :
  same_base nodes0 nodes → node_beg nodes m = node_beg nodes0 m.
Proof.
  intros H. unfold node_beg.
  destruct (same_base_lookup nodes0 nodes (Z.to_nat m) H) as [x0 x Hx|]; [|done].
  cbn. unfold beg. cbn. by rewrite Hx.
Qed.

Lemma same_base_end nodes0 nodes m :
  same_base nodes0 nodes → node_end nodes m = node_end nodes0 m.
Proof.
  intros H. unfold node_end.
  destruct (same_base_lookup nodes0 nodes (Z.to_nat m) H) as [x0 x Hx|]; [|done].
  cbn. unfold end_. cbn. by rewrite Hx.
Qed.

Lemma same_base_ime nodes0 nodes m :
  same_base nodes0 nodes → node_ime nodes m = node_ime nodes0 m.
Proof.
  intros H. unfold node_ime.
  destruct (same_base_lookup nodes0 nodes (Z.to_nat m) H) as [x0 x Hx|]; [|done].
  cbn. unfold ime. cbn. by rewrite Hx.
Qed.

Lemma same_base_refl nodes : same_base nodes nodes.
Proof. by apply Forall2_same_length_lookup_2; [|intros; simplify_eq]. Qed.

Lemma same_base_alter nodes0 nodes v i :
  same_base nodes0 nodes →
  same_base nodes0 (alter (set_outside_max_end v) i nodes).
Proof.
  intros H. revert i. induction H as [|x0 x l0 l Hx Hl IH]; intros i; [constructor|].
  destruct i as [|i]; cbn; constructor; [done|done|done|apply IH].
Qed.

Lemma node_ome_alter_eq v n nodes :
  0 ≤ n < size nodes →
  node_ome (alter (set_outside_max_end v) (Z.to_nat n) nodes) n = v.
Proof.
  intros Hn. unfold node_ome. rewrite list_lookup_alter_eq.
  destruct (lookup_lt_is_Some_2 nodes (Z.to_nat n)) as [x ->];
    [unfold size in Hn; lia|done].
Qed.

Lemma node_ome_alter_ne v n nodes m :
  0 ≤ n → 0 ≤ m → m ≠ n →
  node_ome (alter (set_outside_max_end v) (Z.to_nat n) nodes) m
  = node_ome nodes m.
Proof.
  intros Hn Hm Hne. unfold node_ome.
  rewrite list_lookup_alter_ne; [done|lia].
Qed.

Lemma ime_upd_ome (x0 x : iitii_node) :
  ime_upd x0 x → outside_max_end x = outside_max_end x0.
Proof. induction 1 as [|v x0 x _ IH]; [done|]. done. Qed.

Lemma ime_upd_node_ome nodes0 nodes m :
  Forall2 (ime_upd) nodes0 nodes → node_ome nodes m = node_ome nodes0 m.
Proof.
  intros H. unfold node_ome.
  destruct (ime_upd_lookup nodes0 nodes (Z.to_nat m) H) as [x0 x Hx|];
    [|done].
  cbn. by apply ime_upd_ome.
Qed.

(** The running maximum *)
Lemma is_max_end_snoc nodes a n v :
  a ≤ n → 0 ≤ n < size nodes →
  is_max_end nodes a (n - 1) v →
  is_max_end nodes a n (Z.max v (node_end nodes n)).
Proof.
  intros ? ? [Hub (m & ? & ? & ?)]. split.
  - intros m' ? ?. destruct (decide (m' = n)) as [->|]; [lia|].
    pose proof (Hub m'). lia.
  - destruct (Z.max_spec v (node_end nodes n)) as [[_ ->]|[_ ->]].
    + exists n. lia.
    + exists m. lia.
Qed.

Lemma running_max_loop_spec nodes cnt : ∀ n rme,
  1 ≤ n → n + Z.of_nat cnt = size nodes → size nodes < 2 ^ 62 →
  Z.of_nat (length rme) = n →
  (∀ i, 0 ≤ i < n → is_max_end nodes 0 i (vec_at rme i)) →
  ∀ i, 0 ≤ i < size nodes →
    is_max_end nodes 0 i (vec_at (running_max_loop nodes cnt n rme) i).
Proof.
  induction cnt as [|c IH]; intros n rme Hn Hcnt Hsz Hlen Hpre i Hi.
  - cbn. apply Hpre. lia.
  - cbn [running_max_loop]. rewrite !wrap_small by lia.
    apply IH; [lia|lia|done|rewrite length_app; cbn; lia| |done].
    intros i' Hi'. unfold vec_at.
    destruct (decide (i' = n)) as [->|].
    + rewrite lookup_app_r by lia.
      replace (Z.to_nat n - length rme)%nat with 0%nat by lia. cbn.
      apply is_max_end_snoc; [lia|lia|]. apply Hpre. lia.
    + rewrite lookup_app_l by lia. apply Hpre. lia.
Qed.

(** The walk to the left over nodes that begin where [node] does *)
Lemma walk_leq_spec nodes nbeg fuel : ∀ leq,
  0 ≤ leq < 2 ^ 64 → leq ≤ Z.of_nat fuel →
  ∃ leq', walk_leq fuel nodes nbeg leq = Some leq'
    ∧ 0 ≤ leq' ≤ leq
    ∧ (∀ m, leq' < m ≤ leq → node_beg nodes m = nbeg)
    ∧ (node_beg nodes leq' = nbeg → leq' = 0).
Proof.
  induction fuel as [|f IH]; intros leq Hleq Hf.
  - assert (leq = 0) as -> by lia. cbn [walk_leq].
    destruct (Z.eqb_spec (node_beg nodes 0) nbeg); cbn;
      exists 0; (split; [done|]); (split; [lia|]); (split; [intros; lia|done]).
  - cbn [walk_leq].
    destruct (Z.eqb_spec (node_beg nodes leq) nbeg) as [Heq|Hne].
    + destruct (Z.eqb_spec leq 0) as [->|Hnz].
      * exists 0. split; [done|]. split; [lia|]. split; [intros; lia|done].
      * rewrite wrap_small by lia.
        destruct (IH (leq - 1)) as (leq' & Hw & Hr & Hrun & Hstop); [lia|lia|].
        exists leq'. split; [done|]. split; [lia|]. split; [|done].
        intros m Hm. destruct (decide (m = leq)) as [->|]; [done|].
        apply Hrun. lia.
    + exists leq. split; [done|]. split; [lia|]. split; [intros; lia|done].
Qed.

Lemma real_node_in_tree L r sz :
  (L ≤ 62)%nat → 0 ≤ r < sz → sz ≤ pow2 (S L) - 1 → in_tree L (level r) r.
Proof.
  intros HL Hr Hsz. pose proof (pow2_bound (S L) ltac:(lia)).
  destruct (level_decomp r) as [_ (i & Hi & Hat)]; [lia|].
  apply at_level_in_tree; [by exists i| |lia].
  destruct (decide (level r ≤ L)%nat) as [|Hn]; [done|exfalso].
  assert (pow2 (S L) ≤ pow2 (level r)) by (apply pow2_le; lia).
  pose proof (pow2_pos (level r)). nia.
Qed.

Section Fill.

Variable L : nat.
Hypothesis HL : (L ≤ 61)%nat.
Variable nodes1 : list iitii_node.
Hypothesis Hsz : size nodes1 < 2 ^ 62.
Hypothesis Hfull : size nodes1 ≤ pow2 (S L) - 1.
Hypothesis Hsorted : sorted_beg nodes1.

(** No node before the subtree: nothing is outside to the left *)
Lemma outside_left_after k r m :
  in_tree L k r → r < size nodes1 → outside_left nodes1 r k m → m < lo k r.
Proof.
  intros Hin Hr (Hm & Hout & Hbeg).
  destruct (in_tree_bounds L ltac:(lia) _ _ Hin) as (_ & ? & _ & _ & ?).
  destruct (decide (m < lo k r)) as [|Hn]; [done|exfalso].
  assert (node_beg nodes1 r ≤ node_beg nodes1 m); [|lia].
  apply Hsorted; unfold lo, hi in *; lia.
Qed.

Variable rme : list Z.
Hypothesis Hrme :
  ∀ i, 0 ≤ i < size nodes1 → is_max_end nodes1 0 i (vec_at rme i).

Lemma fill_outside_max_end_at_spec nodes n :
  same_base nodes1 nodes → 0 ≤ n < size nodes1 →
  node_ome nodes n = Pos_min →
  ∃ nodes', fill_outside_max_end_at rme nodes n = Some nodes'
    ∧ same_base nodes1 nodes'
    ∧ ome_ok nodes1 n (level n) (node_ome nodes' n)
    ∧ ∀ m, 0 ≤ m → m ≠ n → node_ome nodes' m = node_ome nodes m.
Proof.
  intros Hsame Hn Hinit.
  pose proof (real_node_in_tree L n (size nodes1) ltac:(lia) Hn Hfull) as Hin.
  destruct (in_tree_bounds L ltac:(lia) _ _ Hin) as (_ & Hlo & Hhi & HLb & Hp).
  pose proof (same_base_size _ _ Hsame) as Hsize.
  unfold fill_outside_max_end_at, leftmost_leaf2.
  rewrite (leftmost_leaf_eq L ltac:(lia)) by done.
  set (k := level n) in *.
  destruct (Z.ltb_spec 0 (lo k n)) as [Hl|Hl].
  - rewrite (wrap_small (lo k n - 1)) by (unfold lo in *; lia).
    destruct (walk_leq_spec nodes (node_beg nodes n)
                (length nodes) (lo k n - 1))
      as (leq & Hw & Hleq & Hrun & Hstop);
      [unfold lo in *; lia|unfold size, lo in *; lia|].
    rewrite Hw. cbn. eexists. split; [done|].
    split; [by apply same_base_alter|].
    split; [|intros; by apply node_ome_alter_ne; lia].
    rewrite node_ome_alter_eq by lia.
    assert (Hb : ∀ m, node_beg nodes m = node_beg nodes1 m)
      by (intros; by apply same_base_beg).
    rewrite !Hb in *.
    assert (Hrun' : ∀ m, leq < m ≤ lo k n - 1 →
              node_beg nodes1 m = node_beg nodes1 n)
      by (intros m ?; rewrite <- (Hb m); by apply Hrun).
    assert (Hle : node_beg nodes1 leq ≤ node_beg nodes1 n)
      by (apply Hsorted; unfold lo in *; lia).
    assert (Hin_left : ∀ m, outside_left nodes1 n k m → 0 ≤ m ≤ leq).
    { intros m Hm. pose proof (outside_left_after k n m Hin ltac:(lia) Hm).
      destruct Hm as (? & _ & ?). split; [lia|].
      destruct (decide (m ≤ leq)) as [|Hgt]; [done|].
      rewrite Hrun' in *; lia. }
    destruct (Z.ltb_spec (node_beg nodes1 leq) (node_beg nodes1 n)) as [Hlt|Hge].
    + destruct (Hrme leq) as [Hub (m0 & Hm0 & Hreal & Hend)];
        [unfold lo in *; lia|].
      assert (Hout0 : outside_left nodes1 n k m0).
      { split; [done|]. split; [unfold lo in *; lia|].
        assert (node_beg nodes1 m0 ≤ node_beg nodes1 leq); [|lia].
        apply Hsorted; unfold lo in *; lia. }
      split; [|split].
      * intros m Hm. apply Hub; [by apply Hin_left|apply Hm].
      * intros _. by exists m0.
      * intros Hnone. destruct Hnone. by exists m0.
    + assert (leq = 0) as -> by (apply Hstop; lia).
      assert (Hnone : ∀ m, ¬ outside_left nodes1 n k m).
      { intros m Hm. pose proof (Hin_left m Hm). assert (m = 0) as -> by lia.
        destruct Hm as (_ & _ & ?). lia. }
      split; [|split].
      * intros m Hm. by destruct (Hnone m).
      * intros [m Hm]. by destruct (Hnone m).
      * done.
  - exists nodes. split; [done|]. split; [done|]. split; [|done].
    rewrite Hinit.
    assert (Hnone : ∀ m, ¬ outside_left nodes1 n k m).
    { intros m Hm. pose proof (outside_left_after k n m Hin ltac:(lia) Hm).
      destruct Hm as (? & _). lia. }
    split; [|split].
    + intros m Hm. by destruct (Hnone m).
    + intros [m Hm]. by destruct (Hnone m).
    + done.
Qed.

Lemma fill_outside_max_end_spec cnt : ∀ n nodes,
  0 ≤ n → n + Z.of_nat cnt = size nodes1 → same_base nodes1 nodes →
  (∀ r, 0 ≤ r < n → ome_ok nodes1 r (level r) (node_ome nodes r)) →
  (∀ r, n ≤ r < size nodes1 → node_ome nodes r = Pos_min) →
  ∃ nodes', fill_outside_max_end cnt n rme nodes = Some nodes'
    ∧ same_base nodes1 nodes'
    ∧ ∀ r, 0 ≤ r < size nodes1 → ome_ok nodes1 r (level r) (node_ome nodes' r).
Proof.
  induction cnt as [|c IH]; intros n nodes Hn Hcnt Hsame Hdone Htodo.
  - exists nodes. split; [done|]. split; [done|]. intros r Hr. apply Hdone. lia.
  - cbn [fill_outside_max_end].
    destruct (fill_outside_max_end_at_spec nodes n)
      as (nodes2 & Heq & Hsame2 & Hok & Hrest); [done|lia|apply Htodo; lia|].
    rewrite Heq. cbn. rewrite wrap_small by lia.
    apply IH; [lia|lia|done| |].
    + intros r Hr. destruct (decide (r = n)) as [->|]; [done|].
      rewrite Hrest by lia. apply Hdone. lia.
    + intros r Hr. rewrite Hrest by lia. apply Htodo. lia.
Qed.

(** [outside_min_beg] computes what its name says *)
Lemma outside_min_beg_spec k r :
  in_tree L k r → r < size nodes1 →
  omb_ok nodes1 r k (outside_min_beg nodes1 r k).
Proof.
  intros Hin Hr.
  destruct (in_tree_bounds L ltac:(lia) _ _ Hin) as (_ & Hlo & Hhi & HLb & Hp).
  unfold outside_min_beg.
  rewrite (leftmost_leaf_eq L ltac:(lia)), (rightmost_leaf_eq L ltac:(lia)) by done.
  rewrite (wrap_small (size nodes1 - 1)) by lia.
  assert (Hright : ∀ m, outside_right nodes1 r k m → hi k r < m →
            hi k r + 1 < size nodes1
            ∧ node_beg nodes1 (hi k r + 1) ≤ node_beg nodes1 m).
  { intros m (? & _ & _) ?. split; [lia|].
    apply Hsorted; unfold hi in *; lia. }
  assert (Hleft : ∀ m, outside_right nodes1 r k m → m < lo k r →
            0 < lo k r ∧ node_beg nodes1 (lo k r - 1) = node_beg nodes1 r).
  { intros m (? & _ & ?) ?. split; [lia|].
    assert (node_beg nodes1 m ≤ node_beg nodes1 (lo k r - 1))
      by (apply Hsorted; unfold lo in *; lia).
    assert (node_beg nodes1 (lo k r - 1) ≤ node_beg nodes1 r)
      by (apply Hsorted; unfold lo in *; lia).
    lia. }
  assert (Hcase : ∀ m, outside_right nodes1 r k m → m < lo k r ∨ hi k r < m).
  { intros m (_ & ? & _). lia. }
  destruct (Z.eqb_spec (lo k r) 0) as [Hl0|Hl0]; cbn [negb].
  - (* nothing to the left *)
    destruct (Z.ltb_spec (hi k r) (size nodes1 - 1)) as [Hhi1|Hhi1].
    + rewrite wrap_small by (unfold hi in *; lia).
      assert (Hw : outside_right nodes1 r k (hi k r + 1)).
      { split; [unfold hi in *; lia|]. split; [lia|].
        apply Hsorted; unfold hi in *; lia. }
      split; [|split].
      * intros m Hm. destruct (Hcase m Hm) as [?|?];
          [destruct (Hleft m Hm); lia|by apply Hright].
      * intros _. by exists (hi k r + 1).
      * intros Hnone. destruct Hnone. by exists (hi k r + 1).
    + assert (Hnone : ∀ m, ¬ outside_right nodes1 r k m).
      { intros m Hm. destruct (Hcase m Hm) as [?|?];
          [destruct (Hleft m Hm); lia|destruct (Hright m Hm); lia]. }
      split; [|split].
      * intros m Hm. by destruct (Hnone m).
      * intros [m Hm]. by destruct (Hnone m).
      * done.
  - rewrite (wrap_small (lo k r - 1)) by (unfold lo in *; lia).
    destruct (Z.eqb_spec (node_beg nodes1 (lo k r - 1)) (node_beg nodes1 r))
      as [Heq|Hne].
    + (* a node to the left begins where r does *)
      assert (Hw : outside_right nodes1 r k (lo k r - 1)).
      { split; [unfold lo in *; lia|]. split; [lia|]. lia. }
      split; [|split].
      * intros m (_ & _ & ?). done.
      * intros _. by exists (lo k r - 1).
      * intros Hnone. destruct Hnone. by exists (lo k r - 1).
    + destruct (Z.ltb_spec (hi k r) (size nodes1 - 1)) as [Hhi1|Hhi1].
      * rewrite wrap_small by (unfold hi in *; lia).
        assert (Hw : outside_right nodes1 r k (hi k r + 1)).
        { split; [unfold hi in *; lia|]. split; [lia|].
          apply Hsorted; unfold hi in *; lia. }
        split; [|split].
        -- intros m Hm. destruct (Hcase m Hm) as [?|?];
             [destruct (Hleft m Hm); lia|by apply Hright].
        -- intros _. by exists (hi k r + 1).
        -- intros Hnone. destruct Hnone. by exists (hi k r + 1).
      * assert (Hnone : ∀ m, ¬ outside_right nodes1 r k m).
        { intros m Hm. destruct (Hcase m Hm) as [?|?];
            [destruct (Hleft m Hm); lia|destruct (Hright m Hm); lia]. }
        split; [|split].
        -- intros m Hm. by destruct (Hnone m).
        -- intros [m Hm]. by destruct (Hnone m).
        -- done.
Qed.

End Fill.

Lemma outside_left_ext nodes nodes' r k m :
  same_base nodes nodes' →
  outside_left nodes' r k m ↔ outside_left nodes r k m.
Proof.
  intros H. unfold outside_left.
  by rewrite (same_base_size _ _ H), !(same_base_beg _ _ _ H).
Qed.

Lemma ome_ok_ext nodes nodes' r k v :
  same_base nodes nodes' → ome_ok nodes r k v → ome_ok nodes' r k v.
Proof.
  intros H (Hub & Hex & Hnone).
  assert (He : ∀ m, node_end nodes' m = node_end nodes m)
    by (intros; by apply same_base_end).
  split; [|split].
  - intros m Hm. rewrite He. apply Hub. by rewrite <- (outside_left_ext _ _ _ _ _ H).
  - intros [m Hm]. destruct Hex as (m' & Hm' & Hv).
    { exists m. by rewrite <- (outside_left_ext _ _ _ _ _ H). }
    exists m'. rewrite He. split; [|done].
    by rewrite (outside_left_ext _ _ _ _ _ H).
  - intros Hn. apply Hnone. intros [m Hm]. apply Hn. exists m.
    by rewrite (outside_left_ext _ _ _ _ _ H).
Qed.

Lemma wf_index_same_base L (t : @iit_base iitii_node) nodes' :
  wf_index L t → same_base (nodes t) nodes' →
  wf_index L {| nodes := nodes'; full_size := full_size t; root := root t;
                root_level := root_level t |}.
Proof.
  intros ((HrL & Hroot & Hfs) & HL & Hsz & HN & Hz & Hs & Hok) Hsame.
  pose proof (same_base_size _ _ Hsame) as Hsize.
  unfold wf_index. cbn. rewrite Hsize. split_and!; try done.
  - eapply sorted_beg_ext; [done| |done].
    intros m. by apply same_base_beg.
  - intros j r Hin Hr.
    rewrite (same_base_ime _ _ _ Hsame).
    eapply is_max_end_ext; [done| |by apply Hok].
    intros m. by apply same_base_end.
Qed.

Lemma iitii_new_wf train nodes0 :
  fresh nodes0 → sorted_beg nodes0 → size nodes0 < 2 ^ 62 →
  (∀ r, 0 ≤ r < size nodes0 → node_ome nodes0 r = Pos_min) →
  ∃ t L, iitii_new train nodes0 = Some t ∧ wf_iitii L t
    ∧ Forall2 (λ x0 x : iitii_node,
         item (iitii_base x) = item (iitii_base x0)) nodes0 (nodes (super t)).
Proof.
  intros Hfresh Hsorted Hsz Hinit.
  destruct (iit_base_new_wf nodes0 Hfresh Hsorted Hsz)
    as (t & L & Heq & Hwf & Hupd).
  pose proof Hwf as ((HrL & Hroot & Hfs) & HL & Hsz1 & HN & Hz & Hs & Hok).
  pose proof (ime_upd_size _ _ Hupd) as Hsize.
  unfold iitii_new. rewrite Heq. cbn [mbind option_bind].
  assert (Hitems : Forall2 (λ x0 x : iitii_node,
            item (iitii_base x) = item (iitii_base x0)) nodes0 (nodes t)).
  { eapply Forall2_impl; [exact Hupd|]. intros x0 x Hx.
    apply (ime_upd_item x0 x Hx). }
  destruct (Z.eqb_spec (size (nodes t)) 0) as [Hempty|Hne].
  - eexists _, L. split; [done|]. split; [|done].
    split; [done|]. split; [|done]. cbn. intros r Hr. lia.
  - pose proof (size_nonneg (nodes t)).
    set (rme := running_max_loop (nodes t)
                  (length (nodes t) - 1) 1 [node_end (nodes t) 0]).
    assert (Hrme : ∀ i, 0 ≤ i < size (nodes t) →
              is_max_end (nodes t) 0 i (vec_at rme i)).
    { apply running_max_loop_spec; [lia|unfold size in *; lia|done|done|].
      intros i Hi. assert (i = 0) as -> by lia. cbn.
      apply is_max_end_single. lia. }
    destruct (fill_outside_max_end_spec L HL (nodes t)
                Hsz1 HN Hs rme Hrme (length (nodes t)) 0 (nodes t))
      as (nodes' & Hfill & Hsame & Hok');
      [lia|unfold size; lia|apply same_base_refl|intros; lia| |].
    { intros r Hr. rewrite (ime_upd_node_ome _ _ _ Hupd).
      apply Hinit. lia. }
    rewrite Hfill. cbn [mbind option_bind].
    eexists _, L. split; [done|]. split.
    + split; [by apply wf_index_same_base|]. cbn.
      rewrite (same_base_size _ _ Hsame). split; [|lia].
      intros r Hr. eapply ome_ok_ext; [done|]. by apply Hok'.
    + cbn. clear -Hitems Hsame. revert nodes' Hsame.
      induction Hitems as [|x0 x l0 l Hx Hl IH]; intros nodes' Hsame;
        inversion Hsame as [|x' y' l' k' Hy Hk]; subst; constructor.
      * by rewrite Hy.
      * by apply IH.
Qed.

Section WithIitii.

Variable L : nat.
Variable t : iitii.
Hypothesis Hwf : wf_iitii L t.

(** The stopping predicate of the climb (the comment at lines 357-362) *)
Lemma stop_excludes_outside r k qbeg qend m :
  in_tree L k r → r < size (nodes (super t)) →
  ¬ qbeg < node_ome (nodes (super t)) r →
  ¬ outside_min_beg (nodes (super t)) r k < qend →
  0 ≤ m < size (nodes (super t)) → ¬ (lo k r ≤ m ≤ hi k r) →
  (node_beg (nodes (super t)) m < node_beg (nodes (super t)) r
   ∧ node_end (nodes (super t)) m ≤ qbeg)
  ∨ (node_beg (nodes (super t)) r ≤ node_beg (nodes (super t)) m
     ∧ qend ≤ node_beg (nodes (super t)) m).
Proof.
  intros Hin Hr Hleft Hright Hm Hout.
  destruct Hwf as (Hwfi & Home & _).
  pose proof Hwfi as ((HrL & Hroot & Hfs) & HL & Hsz1 & HN & Hz & Hs & Hok).
  destruct (in_tree_bounds L ltac:(lia) _ _ Hin) as (_ & Hlo & _ & _ & Hp).
  destruct (Z.lt_ge_cases (node_beg (nodes (super t)) m)
              (node_beg (nodes (super t)) r)) as [Hlt|Hge].
  - left. split; [done|].
    destruct (Home r ltac:(lia)) as (Hub & _).
    rewrite (in_tree_level L ltac:(lia) k r Hin) in Hub.
    assert (node_end (nodes (super t)) m ≤ node_ome (nodes (super t)) r);
      [by apply Hub|lia].
  - right. split; [done|].
    destruct (outside_min_beg_spec L HL
                (nodes (super t)) Hsz1 Hs k r Hin Hr) as (Hlb & _).
    assert (outside_min_beg (nodes (super t)) r k
            ≤ node_beg (nodes (super t)) m); [by apply Hlb|lia].
Qed.

Lemma climb_spec qbeg qend fuel : ∀ r k,
  in_tree L k r → (L - k ≤ fuel)%nat →
  ∃ r' k', climb fuel (super t) qbeg qend r k = Some (r', k')
    ∧ in_tree L k' r' ∧ (k ≤ k' ≤ L)%nat
    ∧ (r' = pow2 L - 1
       ∨ (r' < size (nodes (super t))
          ∧ ¬ qbeg < node_ome (nodes (super t)) r'
          ∧ ¬ outside_min_beg (nodes (super t)) r' k' < qend)).
Proof.
  destruct Hwf as (Hwfi & _).
  pose proof Hwfi as ((HrL & Hroot & Hfs) & HL & Hsz1 & HN & Hz & Hs & Hok).
  induction fuel as [|f IH]; intros r k Hin Hf;
    destruct (in_tree_bounds L ltac:(lia) _ _ Hin) as (HkL & _).
  - assert (k = L) as -> by lia.
    rewrite (in_tree_top L ltac:(lia) r Hin).
    cbn [climb]. rewrite Hroot, Z.eqb_refl. cbn.
    eexists _, _. split; [done|]. split; [by rewrite <- (in_tree_top L ltac:(lia) r Hin)|].
    split; [lia|by left].
  - cbn [climb]. rewrite Hroot.
    destruct (Z.eqb_spec r (pow2 L - 1)) as [Heq|Hne]; cbn [negb].
    + eexists _, _. split; [done|]. split; [done|]. split; [lia|by left].
    + assert (k < L)%nat.
      { destruct (decide (k = L)) as [->|]; [|lia].
        by destruct Hne; apply (in_tree_top L ltac:(lia)). }
      destruct (parent_cases L ltac:(lia) k r Hin ltac:(lia))
        as (p & Hp & Hinp & _).
      destruct (Z.leb_spec (size (nodes (super t))) r) as [Himag|Hreal].
      { rewrite Hp. destruct (IH p (S k)) as (r' & k' & Hc & ? & ? & ?);
          [done|lia|].
        exists r', k'. split; [done|]. split; [done|]. split; [lia|done]. }
      destruct (Z.ltb_spec qbeg (node_ome (nodes (super t)) r)) as [Hl|Hl].
      { rewrite Hp. destruct (IH p (S k)) as (r' & k' & Hc & ? & ? & ?);
          [done|lia|].
        exists r', k'. split; [done|]. split; [done|]. split; [lia|done]. }
      destruct (Z.ltb_spec (outside_min_beg (nodes (super t)) r k) qend) as [Hr|Hr].
      { rewrite Hp. destruct (IH p (S k)) as (r' & k' & Hc & ? & ? & ?);
          [done|lia|].
        exists r', k'. split; [done|]. split; [done|]. split; [lia|done]. }
      exists r, k. split; [done|]. split; [done|]. split; [lia|].
      right. split; [done|]. split; lia.
Qed.

Lemma predict_real qbeg :
  predict t qbeg = nrank ∨ 0 ≤ predict t qbeg < size (nodes (super t)).
Proof.
  destruct Hwf as (Hwfi & _ & Hmodel).
  pose proof Hwfi as ((HrL & Hroot & Hfs) & HL & Hsz1 & HN & Hz & Hs & Hok).
  unfold predict. destruct (model t qbeg) as [[k ofs]|] eqn:Hm; [|by left].
  right. unfold interpolate.
  pose proof (wrap_range (wrap (shl 1 k * wrap (wrap (2 * ofs) + 1)) - 1)).
  unfold rank_of_levelrank.
  destruct (Z.ltb_spec (wrap (wrap (shl 1 k * wrap (wrap (2 * ofs) + 1)) - 1)) (size (nodes (super t))));
    [lia|].
  assert (size (nodes (super t)) ≠ 0).
  { intros Hz0. rewrite (Hmodel Hz0) in Hm. done. }
  pose proof (size_nonneg (nodes (super t))).
  destruct (rightmost_real_leaf_spec (size (nodes (super t)))) as (i & ? & Hi & ?); [lia|].
  unfold rightmost_real_leaf in Hi. rewrite Hi. lia.
Qed.

Lemma iitii_overlap_spec qbeg qend :
  ∃ c ans t', iitii_overlap t qbeg qend = Some (c, ans, t')
    ∧ super t' = super t ∧ model t' = model t
    ∧ NoDup ans
    ∧ ∀ m, m ∈ ans ↔ overlaps (nodes (super t)) qbeg qend m.
Proof.
  pose proof Hwf as (Hwfi & Home & Hmodel).
  pose proof Hwfi as ((HrL & Hroot & Hfs) & HL & Hsz1 & HN & Hz & Hs & Hok).
  unfold iitii_overlap.
  destruct (predict_real qbeg) as [Hp|Hp].
  - rewrite Hp, Z.eqb_refl.
    pose proof (overlap_wf L (super t) Hwfi qbeg qend) as Hq.
    destruct (overlap (super t) qbeg qend)
      as [c ans].
    exists c, ans, t. split; [reflexivity|]. split; [reflexivity|].
    split; [reflexivity|]. exact Hq.
  - destruct (Z.eqb_spec (predict t qbeg) nrank) as [Hn|_];
      [unfold nrank in Hn; lia|].
    pose proof (real_node_in_tree L (predict t qbeg) (size (nodes (super t))) ltac:(lia) Hp HN) as Hin.
    destruct (climb_spec qbeg qend 64 (predict t qbeg) (level (predict t qbeg)))
      as (r & k & Hc & Hinr & Hk & Hstop); [done|lia|].
    rewrite Hc. cbn [mbind option_bind].
    destruct (scan_wf L (super t) Hwfi k r qbeg qend [] Hinr)
      as (c & new & Hscan & Hnd & Hnew).
    rewrite Hscan. cbn. eexists _, new, _. split; [done|].
    split; [done|]. split; [done|]. split; [done|].
    intros m. rewrite Hnew. split; [tauto|]. intros Hov. split; [|done].
    destruct (in_tree_bounds L ltac:(lia) _ _ Hinr) as (_ & Hlo & Hhi & _ & Hpk).
    destruct Hstop as [->|(Hreal & Hleft & Hright)].
    + destruct Hov as (Hm & _).
      assert (k = L) as ->.
      { eapply at_level_unique; [apply Hinr|]. exists 0. split; lia. }
      unfold lo, hi. rewrite pow2_S in HN. lia.
    + destruct (decide (lo k r ≤ m ≤ hi k r)) as [|Hout]; [done|exfalso].
      destruct Hov as (Hm & Hb & He).
      destruct (stop_excludes_outside r k qbeg qend m Hinr Hreal Hleft Hright
                  Hm Hout); lia.
Qed.

End WithIitii.

Section Items.
Context {Node1 : Type} `{!IitNode Node1}.
Context {Node2 : Type} `{!IitNode Node2}.

Lemma node_lt_same_item (x x' : Node1) (y y' : Node2) :
  same_item x y → same_item x' y' →
  node_lt x x' = node_lt y y'.
Proof.
  unfold same_item, node_lt, beg, end_. by intros -> ->.
Qed.

Lemma sort_insert_same_item (x : Node1) (y : Node2) (l1 : list Node1)
    (l2 : list Node2) :
  same_item x y → Forall2 same_item l1 l2 →
  Forall2 same_item (sort_insert x l1)
    (sort_insert y l2).
Proof.
  intros Hxy. induction 1 as [|x' y' l1 l2 Hx' Hl IH]; cbn.
  - by repeat constructor.
  - rewrite (node_lt_same_item x' x y' y Hx' Hxy).
    destruct (node_lt y' y); by repeat constructor.
Qed.

Lemma iit_sort_same_item (l1 : list Node1) (l2 : list Node2) :
  Forall2 same_item l1 l2 →
  Forall2 same_item (iit_sort l1) (iit_sort l2).
Proof.
  induction 1 as [|x y l1 l2 Hxy Hl IH]; cbn; [constructor|].
  by apply sort_insert_same_item.
Qed.

Lemma node_new_same_item (items : list Item) :
  Forall2 same_item (map node_new items : list Node1)
    (map node_new items : list Node2).
Proof.
  induction items as [|it items IH]; cbn; constructor; [|done].
  unfold same_item. by rewrite !node_base_new.
Qed.

Lemma same_item_node_items (l1 : list Node1) (l2 : list Node2) :
  Forall2 same_item l1 l2 → node_items l1 = node_items l2.
Proof.
  unfold node_items. induction 1 as [|x y l1 l2 Hxy Hl IH]; cbn; [done|].
  unfold same_item in Hxy. congruence.
Qed.

Lemma same_item_size (l1 : list Node1) (l2 : list Node2) :
  Forall2 same_item l1 l2 → size l1 = size l2.
Proof. intros H. unfold size. apply Forall2_length in H. lia. Qed.

Lemma same_item_beg (l1 : list Node1) (l2 : list Node2) m :
  Forall2 same_item l1 l2 →
  node_beg l1 m = node_beg l2 m.
Proof.
  intros H. unfold node_beg.
  destruct (proj1 (Forall2_lookup _ l1 l2) H (Z.to_nat m)) as [x y Hxy|]; [|done].
  cbn. unfold beg. by rewrite Hxy.
Qed.

Lemma same_item_end (l1 : list Node1) (l2 : list Node2) m :
  Forall2 same_item l1 l2 →
  node_end l1 m = node_end l2 m.
Proof.
  intros H. unfold node_end.
  destruct (proj1 (Forall2_lookup _ l1 l2) H (Z.to_nat m)) as [x y Hxy|]; [|done].
  cbn. unfold end_. by rewrite Hxy.
Qed.

End Items.

Section Generic.
Context {Node : Type} `{!IitNode Node}.

Lemma ime_upd_same_item (l0 l : list Node) :
  Forall2 (ime_upd) l0 l → Forall2 (same_item) l0 l.
Proof.
  intros H. eapply Forall2_impl; [exact H|]. intros x0 x Hx.
  unfold same_item. symmetry. by apply (ime_upd_item).
Qed.

Lemma node_items_sorted (items : list Item) (l : list Node) :
  Forall2 (same_item) (iit_sort (map node_new items)) l →
  node_items l ≡ₚ items.
Proof.
  intros H. rewrite <- (same_item_node_items _ _ H).
  unfold node_items.
  transitivity (map (λ n : Node, item (node_base n)) (map node_new items));
    [apply Permutation_map, iit_sort_perm|].
  clear H. induction items as [|it items IH]; cbn; [done|].
  rewrite node_base_new. cbn. by apply perm_skip.
Qed.

Lemma wf_inside_augmented L (t : @iit_base Node) :
  wf_index L t → inside_augmented (nodes t).
Proof.
  intros ((HrL & Hroot & Hfs) & HL & Hsz & HN & Hz & Hs & Hok) r Hr.
  pose proof (real_node_in_tree L r _ ltac:(lia) Hr HN) as Hin.
  destruct (Hok _ _ Hin ltac:(lia)) as [Hub (m & Hm & Hreal & Hv)]. split.
  - intros m' Hm' Hsub. apply Hub; [|done].
    by apply (in_subtree_span L (level r) ltac:(lia)).
  - exists m. split; [done|]. split; [|done].
    by apply (in_subtree_span L (level r) ltac:(lia)).
Qed.

End Generic.

Lemma iit_build_wf (items : list Item) :
  Z.of_nat (length items) < 2 ^ 62 →
  ∃ t L, iit_build (builder_range items) = Some t ∧ wf_index L t
    ∧ Forall2 (same_item)
        (iit_sort (map (@node_new iit_node_base _) items)) (nodes t).
Proof.
  intros Hlen.
  destruct (build_wf (Node := iit_node_base) items Hlen)
    as (t & L & Hb & Hwf & Hupd).
  exists t, L. split; [exact Hb|]. split; [done|]. by apply ime_upd_same_item.
Qed.

Lemma iitii_build_wf train (items : list Item) :
  Z.of_nat (length items) < 2 ^ 62 →
  ∃ t L, iitii_build train (builder_range items) = Some t ∧ wf_iitii L t
    ∧ Forall2 (same_item)
        (iit_sort (map (@node_new iitii_node _) items))
        (nodes (super t)).
Proof.
  intros Hlen. unfold iitii_build.
  rewrite builder_range_sort, builder_range_nodes.
  destruct (iitii_new_wf train
              (iit_sort (map (@node_new iitii_node _) items)))
    as (t & L & Hb & Hwf & Hitems).
  - apply fresh_of_Forall, iit_sort_Forall, node_new_fresh.
  - apply sorted_beg_of_StronglySorted, iit_sort_sorted.
  - unfold size. by rewrite iit_sort_length, length_map.
  - intros r Hr. unfold node_ome.
    destruct (iit_sort (map (@node_new iitii_node _) items)
                !! Z.to_nat r) as [x|] eqn:Hx;
      [|apply lookup_ge_None in Hx; unfold size in Hr; lia].
    cbn. revert x Hx. apply Forall_lookup, iit_sort_Forall.
    clear. induction items as [|it items IH]; cbn; by constructor.
  - exists t, L. split; [exact Hb|]. split; [done|].
    eapply Forall2_impl; [exact Hitems|]. intros x0 x Hx.
    unfold same_item. by symmetry.
Qed.

Lemma wf_outside_augmented L (t : iitii) :
  wf_iitii L t → outside_augmented (nodes (super t)).
Proof.
  intros (Hwfi & Home & _) r Hr.
  pose proof Hwfi as ((HrL & Hroot & Hfs) & HL & Hsz & HN & Hz & Hs & Hok).
  pose proof (real_node_in_tree L r _ ltac:(lia) Hr HN) as Hin.
  destruct (Home r Hr) as (Hub & Hex & Hnone). cbn zeta.
  assert (Hout : ∀ m,
    (0 ≤ m < size (nodes (super t)) ∧ ¬ in_subtree r (level r) m
     ∧ node_beg (nodes (super t)) m < node_beg (nodes (super t)) r)
    ↔ outside_left (nodes (super t)) r (level r) m).
  { intros m. unfold outside_left.
    by rewrite (in_subtree_span L (level r) ltac:(lia) r m Hin). }
  split; [|split; [|split]].
  - intros m Hm. apply Hub. by apply Hout.
  - intros [m Hm]. destruct Hex as (m' & Hm' & Hv); [exists m; by apply Hout|].
    exists m'. split; [by apply Hout|done].
  - intros Hn. apply Hnone. intros [m Hm]. apply Hn. exists m. by apply Hout.
  - intros Hl. apply Hnone. intros [m Hm].
    pose proof (outside_left_after L HL
                  (nodes (super t)) Hs (level r) r m Hin ltac:(lia) Hm) as Hlt.
    unfold leftmost_leaf2 in Hl.
    rewrite (leftmost_leaf_eq L ltac:(lia)) in Hl by done.
    destruct Hm as (? & _). lia.
Qed.

Section ItemsAccess.
Context {Node : Type} `{!IitNode Node}.

Lemma node_items_length (l : list Node) :
  Z.of_nat (length (node_items l)) = size l.
Proof. unfold node_items, size. by rewrite length_map. Qed.

Lemma node_items_lookup (l : list Node) i :
  node_items l !! i = (λ n, item (node_base n)) <$> l !! i.
Proof.
  unfold node_items. revert i. induction l as [|x l IH]; intros [|i]; cbn; auto.
Qed.

Lemma node_beg_items (l : list Node) m :
  node_beg l m
  = from_option get_beg 0 (node_items l !! Z.to_nat m).
Proof.
  unfold node_beg. rewrite node_items_lookup. by destruct (l !! Z.to_nat m).
Qed.

Lemma node_end_items (l : list Node) m :
  node_end l m
  = from_option get_end 0 (node_items l !! Z.to_nat m).
Proof.
  unfold node_end. rewrite node_items_lookup. by destruct (l !! Z.to_nat m).
Qed.
End ItemsAccess.

(** The two indexes of one item sequence hold the same items at the same
    ranks *)
Lemma built_same_items items train t1 L1 t2 L2 :
  iit_build (builder_range items) = Some t1 → wf_index L1 t1 →
  Forall2 (same_item)
    (iit_sort (map (@node_new iit_node_base _) items)) (nodes t1) →
  iitii_build train (builder_range items) = Some t2 → wf_iitii L2 t2 →
  Forall2 (same_item)
    (iit_sort (map (@node_new iitii_node _) items))
    (nodes (super t2)) →
  node_items (nodes t1) = node_items (nodes (super t2)).
Proof.
  intros _ _ H1 _ _ H2.
  rewrite <- (same_item_node_items _ _ H1).
  rewrite <- (same_item_node_items _ _ H2).
  apply same_item_node_items, iit_sort_same_item, node_new_same_item.
Qed.

(** Both query paths on the indexes built from one item sequence *)
Lemma built_overlap items train qbeg qend :
  Z.of_nat (length items) < 2 ^ 62 →
  (∃ t, iit_build (builder_range items) = Some t
     ∧ node_items (nodes t) ≡ₚ items
     ∧ NoDup (overlap t qbeg qend).2
     ∧ ∀ m, m ∈ (overlap t qbeg qend).2 ↔
         0 ≤ m < size (nodes t) ∧ node_beg (nodes t) m < qend
         ∧ qbeg < node_end (nodes t) m)
  ∧ (∃ t, iitii_build train (builder_range items) = Some t
       ∧ node_items (nodes (super t)) ≡ₚ items
       ∧ ∃ cost ans t', iitii_overlap t qbeg qend = Some (cost, ans, t')
           ∧ NoDup ans
           ∧ ∀ m, m ∈ ans ↔
               0 ≤ m < size (nodes (super t))
               ∧ node_beg (nodes (super t)) m < qend
               ∧ qbeg < node_end (nodes (super t)) m).
Proof.
  intros Hlen. split.
  - destruct (iit_build_wf items Hlen) as (t & L & Hb & Hwf & Hit).
    exists t. split; [done|]. split; [by eapply node_items_sorted|].
    apply (overlap_wf L t Hwf).
  - destruct (iitii_build_wf train items Hlen)
      as (t & L & Hb & Hwf & Hit).
    exists t. split; [done|]. split; [by eapply node_items_sorted|].
    destruct (iitii_overlap_spec L t Hwf qbeg qend)
      as (c & ans & t' & Hov & _ & _ & Hnd & Hans).
    by exists c, ans, t'.
Qed.

(** C1. [overlap] returns, without repetition, exactly the ranks of the
    nodes [n] with [beg(n) < qend] and [end(n) > qbeg], for [iit] and for
    [iitii] alike, whatever the prediction model is. *)
Theorem overlap_returns_overlapping items train qbeg qend :
  Z.of_nat (length items) < 2 ^ 62 →
  (∃ t, iit_build (builder_range items) = Some t
     ∧ node_items (nodes t) ≡ₚ items
     ∧ NoDup (overlap t qbeg qend).2
     ∧ ∀ m, m ∈ (overlap t qbeg qend).2 ↔
         0 ≤ m < size (nodes t) ∧ node_beg (nodes t) m < qend
         ∧ qbeg < node_end (nodes t) m)
  ∧ (∃ t, iitii_build train (builder_range items) = Some t
       ∧ node_items (nodes (super t)) ≡ₚ items
       ∧ ∃ cost ans t', iitii_overlap t qbeg qend = Some (cost, ans, t')
           ∧ NoDup ans
           ∧ ∀ m, m ∈ ans ↔
               0 ≤ m < size (nodes (super t))
               ∧ node_beg (nodes (super t)) m < qend
               ∧ qbeg < node_end (nodes (super t)) m).
Proof. apply built_overlap. Qed.

(** C2. On one item sequence, the root-start scan of [iit] and the
    predict-climb-scan of [iitii] return the same ranks, and the two node
    arrays hold the same item at each rank. *)
Theorem iit_iitii_same_result items train qbeg qend :
  Z.of_nat (length items) < 2 ^ 62 →
  ∃ t1 t2 cost ans t2',
    iit_build (builder_range items) = Some t1
    ∧ iitii_build train (builder_range items) = Some t2
    ∧ iitii_overlap t2 qbeg qend = Some (cost, ans, t2')
    ∧ node_items (nodes t1) = node_items (nodes (super t2))
    ∧ ∀ m, m ∈ (overlap t1 qbeg qend).2 ↔ m ∈ ans.
Proof.
  intros Hlen.
  destruct (iit_build_wf items Hlen)
    as (t1 & L1 & Hb1 & Hwf1 & Hit1).
  destruct (iitii_build_wf train items Hlen)
    as (t2 & L2 & Hb2 & Hwf2 & Hit2).
  destruct (iitii_overlap_spec L2 t2 Hwf2 qbeg qend)
    as (c & ans & t' & Hov & _ & _ & _ & Hans).
  pose proof (built_same_items items train t1 L1 t2 L2 Hb1 Hwf1 Hit1 Hb2 Hwf2 Hit2)
    as Hsame.
  exists t1, t2, c, ans, t'. split; [done|]. split; [done|]. split; [done|].
  split; [done|]. intros m.
  rewrite (proj2 (overlap_wf L1 t1 Hwf1 qbeg qend)), Hans.
  unfold overlaps.
  rewrite !(node_beg_items), !(node_end_items).
  rewrite <- !(node_items_length). by rewrite Hsame.
Qed.

(** C3. Where both climb conditions fail at a real node [r], every real
    node outside the subtree of [r] either begins before [r] and ends at or
    before [qbeg], or begins at or after [r] and at or after [qend]; so the
    nodes that overlap the query are in the subtree, and the scan of the
    subtree returns all of them. *)
Theorem stopping_predicate_sound items train qbeg qend r :
  Z.of_nat (length items) < 2 ^ 62 →
  ∃ t, iitii_build train (builder_range items) = Some t
    ∧ (0 ≤ r < size (nodes (super t)) →
       node_ome (nodes (super t)) r ≤ qbeg →
       qend ≤ outside_min_beg (nodes (super t)) r (level r) →
       (∀ m, 0 ≤ m < size (nodes (super t)) → ¬ in_subtree r (level r) m →
          (node_beg (nodes (super t)) m < node_beg (nodes (super t)) r
           ∧ node_end (nodes (super t)) m ≤ qbeg)
          ∨ (node_beg (nodes (super t)) r ≤ node_beg (nodes (super t)) m
             ∧ qend ≤ node_beg (nodes (super t)) m))
       ∧ (∀ m, overlaps (nodes (super t)) qbeg qend m →
            in_subtree r (level r) m)
       ∧ (∀ m, m ∈ (scan (nodes (super t)) r (level r) qbeg qend []).2 ↔
            overlaps (nodes (super t)) qbeg qend m)).
Proof.
  intros Hlen.
  destruct (iitii_build_wf train items Hlen)
    as (t & L & Hb & Hwf & _).
  exists t. split; [done|]. intros Hr Hleft Hright.
  pose proof Hwf as (Hwfi & _).
  pose proof Hwfi as (_ & HL & Hsz & HN & _).
  pose proof (real_node_in_tree L r _ ltac:(lia) Hr HN) as Hin.
  assert (Hout : ∀ m, 0 ≤ m < size (nodes (super t)) →
            ¬ in_subtree r (level r) m →
            (node_beg (nodes (super t)) m < node_beg (nodes (super t)) r
             ∧ node_end (nodes (super t)) m ≤ qbeg)
            ∨ (node_beg (nodes (super t)) r ≤ node_beg (nodes (super t)) m
               ∧ qend ≤ node_beg (nodes (super t)) m)).
  { intros m Hm Hsub.
    apply (stop_excludes_outside L t Hwf
             r (level r)); [done|lia|lia|lia|done|].
    by rewrite <- (in_subtree_span L (level r) ltac:(lia) r m Hin). }
  assert (Hsubtree : ∀ m, overlaps (nodes (super t)) qbeg qend m →
            in_subtree r (level r) m).
  { intros m (Hm & Hbq & Heq).
    destruct (decide (lo (level r) r ≤ m ≤ hi (level r) r)) as [Hsp|Hsp];
      [by apply (in_subtree_span L (level r) ltac:(lia) r m Hin)|].
    destruct (Hout m Hm); [|lia|lia].
    by rewrite (in_subtree_span L (level r) ltac:(lia) r m Hin). }
  split; [done|]. split; [done|].
  destruct (scan_wf L (super t) Hwfi (level r) r qbeg qend [] Hin)
    as (c & new & Hscan & _ & Hnew).
  rewrite Hscan. cbn. intros m. rewrite Hnew. split; [tauto|].
  intros Hov. split; [|done].
  by apply (in_subtree_span L (level r) ltac:(lia) r m Hin), Hsubtree.
Qed.

(** the node array of a built index has a node for each item added *)
Lemma sorted_nodes_size {Node} `{!IitNode Node} (items : list Item)
    (l : list Node) :
  Forall2 same_item (iit_sort (map node_new items)) l →
  size l = Z.of_nat (length items).
Proof.
  intros H. rewrite <- (same_item_size _ _ H). unfold size.
  by rewrite iit_sort_length, length_map.
Qed.

(** C4. After construction of either index over N items, the node array
    holds the N items, and [inside_max_end] of every real node (rank below
    N) bounds [end] of every real node of its subtree and is [end] of one of
    them, whatever N is. *)
Theorem inside_max_end_is_subtree_max items train :
  Z.of_nat (length items) < 2 ^ 62 →
  (∃ t, iit_build (builder_range items) = Some t
     ∧ size (nodes t) = Z.of_nat (length items)
     ∧ node_items (nodes t) ≡ₚ items
     ∧ inside_augmented (nodes t))
  ∧ (∃ t, iitii_build train (builder_range items) = Some t
       ∧ size (nodes (super t)) = Z.of_nat (length items)
       ∧ node_items (nodes (super t)) ≡ₚ items
       ∧ inside_augmented (nodes (super t))).
Proof.
  intros Hlen. split.
  - destruct (iit_build_wf items Hlen) as (t & L & Hb & Hwf & Hit).
    exists t. split; [done|]. split; [by apply sorted_nodes_size|].
    split; [by apply node_items_sorted|]. by eapply wf_inside_augmented.
  - destruct (iitii_build_wf train items Hlen)
      as (t & L & Hb & Hwf & Hit).
    exists t. split; [done|]. split; [by apply sorted_nodes_size|].
    split; [by apply node_items_sorted|].
    eapply wf_inside_augmented. apply Hwf.
Qed.

(** C5. After construction of [iitii] over N items, the node array holds
    the N items, and [outside_max_end] of every real node [r] (rank below N)
    is the largest [end] among the real nodes outside the subtree of [r]
    that begin before [r], and the lowest position when there is none, as
    when the leftmost leaf of [r] is rank 0. *)
Theorem outside_max_end_is_outside_max items train :
  Z.of_nat (length items) < 2 ^ 62 →
  ∃ t, iitii_build train (builder_range items) = Some t
    ∧ size (nodes (super t)) = Z.of_nat (length items)
    ∧ node_items (nodes (super t)) ≡ₚ items
    ∧ outside_augmented (nodes (super t)).
Proof.
  intros Hlen.
  destruct (iitii_build_wf train items Hlen)
    as (t & L & Hb & Hwf & Hit).
  exists t. split; [done|]. split; [by apply sorted_nodes_size|].
  split; [by apply node_items_sorted|]. by eapply wf_outside_augmented.
Qed.

(** C6, as amended. [outside_min_beg(r, k)] is [beg(r)] when the node
    immediately left of the leftmost leaf begins where [r] does; otherwise
    it is [Pos_max] when [rightmost_leaf(r, k) + 1 >= N], and [beg] of the
    node at [rightmost_leaf(r, k) + 1] otherwise. It is the least [beg] among
    the real nodes outside the subtree that do not begin before [r]. *)
Theorem outside_min_beg_value items train r :
  Z.of_nat (length items) < 2 ^ 62 →
  ∃ t, iitii_build train (builder_range items) = Some t
    ∧ (0 ≤ r < size (nodes (super t)) →
       let nodes := nodes (super t) in
       let l := leftmost_leaf r (level r) in
       let rm := rightmost_leaf r (level r) in
       outside_min_beg nodes r (level r)
       = (if decide (l ≠ 0 ∧ node_beg nodes (l - 1) = node_beg nodes r)
          then node_beg nodes r
          else if decide (rm + 1 < size nodes) then node_beg nodes (rm + 1)
          else Pos_max)
       ∧ is_outside_min_beg nodes r (level r)
           (outside_min_beg nodes r (level r))).
Proof.
  intros Hlen.
  destruct (iitii_build_wf train items Hlen)
    as (t & L & Hb & Hwf & _).
  exists t. split; [done|]. intros Hr. cbn zeta.
  pose proof Hwf as (Hwfi & _).
  pose proof Hwfi as (_ & HL & Hsz & HN & _ & Hs & _).
  pose proof (real_node_in_tree L r _ ltac:(lia) Hr HN) as Hin.
  destruct (in_tree_bounds L ltac:(lia) _ _ Hin) as (_ & Hlo & Hhi & HLb & Hp).
  split.
  - unfold outside_min_beg.
    rewrite (leftmost_leaf_eq L ltac:(lia)), (rightmost_leaf_eq L ltac:(lia))
      by done.
    rewrite (wrap_small (size _ - 1)) by lia.
    destruct (Z.eqb_spec (lo (level r) r) 0) as [Hl0|Hl0]; cbn [negb].
    + rewrite decide_False by tauto.
      destruct (Z.ltb_spec (hi (level r) r) (size (nodes (super t)) - 1)).
      * rewrite decide_True by lia. by rewrite wrap_small by (unfold hi; lia).
      * by rewrite decide_False by lia.
    + rewrite (wrap_small (lo _ _ - 1)) by (unfold lo in *; lia).
      destruct (Z.eqb_spec (node_beg (nodes (super t)) (lo (level r) r - 1))
                  (node_beg (nodes (super t)) r)).
      * by rewrite decide_True.
      * rewrite decide_False by tauto.
        destruct (Z.ltb_spec (hi (level r) r) (size (nodes (super t)) - 1)).
        -- rewrite decide_True by lia. by rewrite wrap_small by (unfold hi; lia).
        -- by rewrite decide_False by lia.
  - destruct (outside_min_beg_spec L HL
                (nodes (super t)) Hsz Hs (level r) r Hin ltac:(lia))
      as (Hlb & Hex & Hnone).
    assert (Hout : ∀ m,
      (0 ≤ m < size (nodes (super t)) ∧ ¬ in_subtree r (level r) m
       ∧ node_beg (nodes (super t)) r ≤ node_beg (nodes (super t)) m)
      ↔ outside_right (nodes (super t)) r (level r) m).
    { intros m. unfold outside_right.
      by rewrite (in_subtree_span L (level r) ltac:(lia) r m Hin). }
    split; [|split].
    + intros m Hm. apply Hlb. by apply Hout.
    + intros [m Hm]. destruct Hex as (m' & Hm' & Hv); [exists m; by apply Hout|].
      exists m'. split; [by apply Hout|done].
    + intros Hn. apply Hnone. intros [m Hm]. apply Hn. exists m. by apply Hout.
Qed.

(** C7. The level-rank round trip: [rank_of_levelrank] undoes [level] and
    [levelrank_of_rank] at every valid rank, and the rank is
    [(2i+1)*2^k - 1] for its level-rank [i] and level [k]. *)
Theorem levelrank_round_trip (r : Z) :
  0 ≤ r < 2 ^ 64 - 1 →
  rank_of_levelrank (level r) (levelrank_of_rank r) = r
  ∧ r = (2 * levelrank_of_rank r + 1) * 2 ^ Z.of_nat (level r) - 1.
Proof.
  intros Hr. destruct (level_decomp r Hr) as [Hk (i & Hi & Hat)].
  fold (pow2 (level r)). set (k := level r) in *.
  pose proof (pow2_pos k).
  assert (Hlr : levelrank_of_rank r = i).
  { unfold levelrank_of_rank. fold k. rewrite shl_1 by done.
    rewrite (wrap_small (r + 1)) by lia.
    replace (r + 1) with ((2 * i + 1) * pow2 k) by lia.
    rewrite Z.div_mul by lia. rewrite wrap_small by nia.
    replace (2 * i + 1 - 1) with (i * 2) by lia. by rewrite Z.div_mul. }
  rewrite Hlr. split; [|done].
  unfold rank_of_levelrank. rewrite shl_1 by done.
  rewrite (wrap_small (2 * i)) by nia.
  rewrite (wrap_small (2 * i + 1)) by nia.
  rewrite (wrap_small (pow2 k * _)) by nia.
  rewrite wrap_small by nia. lia.
Qed.

Lemma no_member_nil (l : list Z) : (∀ m, m ∉ l) → l = [].
Proof.
  destruct l as [|x l]; [done|]. intros H. destruct (H x). apply list_elem_of_here.
Qed.

(** C8, as amended. For a query with [qbeg >= qend] both paths apply the
    same two guards as for any query: the result holds the nodes with
    [beg < qend] and [end > qbeg], and it is empty when no node has both. *)
Theorem degenerate_query_guards items train qbeg qend :
  Z.of_nat (length items) < 2 ^ 62 → qend ≤ qbeg →
  (∃ t, iit_build (builder_range items) = Some t
     ∧ (∀ m, m ∈ (overlap t qbeg qend).2 ↔
          0 ≤ m < size (nodes t) ∧ node_beg (nodes t) m < qend
          ∧ qbeg < node_end (nodes t) m)
     ∧ ((∀ m, 0 ≤ m < size (nodes t) →
           qend ≤ node_beg (nodes t) m ∨ node_end (nodes t) m ≤ qbeg) →
        (overlap t qbeg qend).2 = []))
  ∧ (∃ t, iitii_build train (builder_range items) = Some t
       ∧ ∃ cost ans t', iitii_overlap t qbeg qend = Some (cost, ans, t')
           ∧ (∀ m, m ∈ ans ↔
                0 ≤ m < size (nodes (super t))
                ∧ node_beg (nodes (super t)) m < qend
                ∧ qbeg < node_end (nodes (super t)) m)
           ∧ ((∀ m, 0 ≤ m < size (nodes (super t)) →
                 qend ≤ node_beg (nodes (super t)) m
                 ∨ node_end (nodes (super t)) m ≤ qbeg) →
              ans = [])).
Proof.
  intros Hlen Hq.
  destruct (built_overlap
              items train qbeg qend Hlen)
    as [(t1 & Hb1 & _ & _ & Hans1)
        (t2 & Hb2 & _ & c & ans & t' & Hov & _ & Hans2)].
  split.
  - exists t1. split; [done|]. split; [done|]. intros Hnone.
    apply no_member_nil. intros m Hm. apply Hans1 in Hm as (Hm & ? & ?).
    destruct (Hnone m Hm); lia.
  - exists t2. split; [done|]. exists c, ans, t'. split; [done|].
    split; [done|]. intros Hnone.
    apply no_member_nil. intros m Hm. apply Hans2 in Hm as (Hm & ? & ?).
    destruct (Hnone m Hm); lia.
Qed.

(** C9. The constructor leaves an index built from no item with
    [root = 0] and [full_size = 0], so the first assertion of [scan] fails
    at the root: in a build with assertions every query of such an index
    aborts, on both paths (an [iitii] of no item makes no prediction and
    calls the query of the base index). Only compiled with [NDEBUG] does
    the query return, with no result and at cost 1. *)
Theorem empty_index_fails_scan_assertion train qbeg qend :
  (∃ t, iit_build (builder_range (@nil Item)) = Some t
     ∧ nodes t = [] ∧ root t = 0 ∧ full_size t = 0
     ∧ overlap_checked t qbeg qend = None
     ∧ overlap t qbeg qend = (1, []))
  ∧ (∃ t, iitii_build train (builder_range (@nil Item)) = Some t
       ∧ nodes (super t) = [] ∧ root (super t) = 0
       ∧ full_size (super t) = 0
       ∧ predict t qbeg = nrank
       ∧ overlap_checked (super t) qbeg qend = None
       ∧ iitii_overlap t qbeg qend = Some (1, [], t)).
Proof.
  split.
  - eexists. split; [vm_compute; reflexivity|].
    repeat (split; [reflexivity|]). reflexivity.
  - eexists. split; [vm_compute; reflexivity|].
    repeat (split; [reflexivity|]). reflexivity.
Qed.

(** The climb does not depend on the fuel left over *)
Lemma climb_fuel_mono t qbeg qend fuel : ∀ fuel' r k x,
  climb fuel t qbeg qend r k = Some x → (fuel ≤ fuel')%nat →
  climb fuel' t qbeg qend r k = Some x.
Proof.
  induction fuel as [|f IH]; intros fuel' r k x Hc Hf.
  - cbn [climb] in Hc. destruct fuel'; cbn [climb];
      match type of Hc with (if ?c then _ else _) = _ => destruct c end; done.
  - destruct fuel' as [|f']; [lia|]. cbn [climb] in *.
    match type of Hc with (if ?c then _ else _) = _ => destruct c end; [|done].
    apply IH; [done|lia].
Qed.

(** C10. The climb loop terminates: a step replaces the node by its parent,
    one level up, so from the prediction [p] the loop leaves after at most
    [root_level - level(p)] steps, at the root at the latest. *)
Theorem climb_terminates items train qbeg qend :
  Z.of_nat (length items) < 2 ^ 62 →
  ∃ t, iitii_build train (builder_range items) = Some t
    ∧ (∀ r, 0 ≤ r < full_size (super t) → r ≠ root (super t) →
         level (parent (root (super t)) r (level r)) = S (level r)
         ∧ 0 ≤ parent (root (super t)) r (level r) < full_size (super t))
    ∧ (predict t qbeg ≠ nrank →
       ∀ fuel, (root_level (super t) - level (predict t qbeg) ≤ fuel)%nat →
       ∃ r k,
         climb fuel (super t) qbeg qend (predict t qbeg)
           (level (predict t qbeg)) = Some (r, k)
         ∧ (level (predict t qbeg) ≤ k ≤ root_level (super t))%nat
         ∧ level r = k
         ∧ (k = root_level (super t) → r = root (super t))).
Proof.
  intros Hlen.
  destruct (iitii_build_wf train items Hlen)
    as (t & L & Hb & Hwf & _).
  exists t. split; [done|].
  pose proof Hwf as (Hwfi & _).
  pose proof Hwfi as ((HrL & Hroot & Hfs) & HL & Hsz & HN & Hz & Hs & _).
  split.
  - intros r Hr Hne. rewrite Hfs in Hr. case_decide; [lia|].
    pose proof (real_node_in_tree L r _ ltac:(lia) Hr ltac:(lia)) as Hin.
    destruct (in_tree_bounds L ltac:(lia) _ _ Hin) as (HkL & _).
    assert (level r < L)%nat.
    { destruct (decide (level r = L)) as [Heq|]; [|lia].
      rewrite Heq in Hin. destruct Hne. rewrite Hroot.
      by apply (in_tree_top L ltac:(lia)). }
    rewrite Hroot, Hfs.
    destruct (parent_cases L ltac:(lia) (level r) r Hin ltac:(lia))
      as (p & -> & Hinp & _).
    destruct (in_tree_bounds L ltac:(lia) _ _ Hinp) as (_ & ? & ? & _ & ?).
    split; [by apply (in_tree_level L ltac:(lia))|lia].
  - intros Hp fuel Hfuel. rewrite HrL in *.
    destruct (predict_real L t Hwf qbeg) as [|Hreal];
      [done|].
    pose proof (real_node_in_tree L _ _ ltac:(lia) Hreal HN) as Hin.
    destruct (climb_spec L t Hwf qbeg qend fuel
                (predict t qbeg) (level (predict t qbeg)) Hin Hfuel)
      as (r & k & Hc & Hinr & Hk & _).
    exists r, k. split; [done|]. split; [done|].
    split; [by apply (in_tree_level L ltac:(lia))|].
    intros ->. rewrite Hroot. by apply (in_tree_top L ltac:(lia)).
Qed.

(** * Further properties of the code *)

(** ** Tree navigation *)

Lemma level_chk_spec k : ∀ fuel i chk,
  0 ≤ i → (k ≤ fuel)%nat →
  level_chk fuel ((2 * i + 1) * pow2 k - 1) chk = Some (chk + k)%nat.
Proof.
  induction k as [|k IH]; intros fuel i chk Hi Hf.
  - rewrite pow2_0. replace ((2 * i + 1) * 1 - 1) with (2 * i) by lia.
    assert (Z.land (2 * i) 1 = 0) as Hl.
    { pose proof (Z.land_ones (2 * i) 1 ltac:(lia)) as Hl.
      change (Z.ones 1) with 1 in Hl. rewrite Hl. change (2 ^ 1) with 2.
      rewrite Z.mul_comm. apply Z.mod_mul. lia. }
    destruct fuel; cbn [level_chk]; rewrite Hl; cbn; f_equal; lia.
  - destruct fuel as [|f]; [lia|]. cbn [level_chk].
    pose proof (pow2_pos k). rewrite pow2_S.
    replace ((2 * i + 1) * (2 * pow2 k) - 1)
      with (1 + ((2 * i + 1) * pow2 k - 1) * 2) by lia.
    assert (Z.land (1 + ((2 * i + 1) * pow2 k - 1) * 2) 1 = 1) as ->.
    { pose proof (Z.land_ones (1 + ((2 * i + 1) * pow2 k - 1) * 2) 1
                    ltac:(lia)) as Hl.
      change (Z.ones 1) with 1 in Hl. rewrite Hl. change (2 ^ 1) with 2.
      by rewrite Z.mod_add by lia. }
    cbn [Z.eqb]. rewrite Z.shiftr_div_pow2 by lia. change (2 ^ 1) with 2.
    rewrite Z.div_add by lia. change (1 / 2) with 0. rewrite Z.add_0_l.
    rewrite IH by (done || lia). f_equal. lia.
Qed.

Lemma testbit_below_level k i j :
  0 ≤ i → 0 ≤ j < Z.of_nat k →
  Z.testbit ((2 * i + 1) * pow2 k - 1) j = true.
Proof.
  intros Hi Hj. apply Z.testbit_true; [lia|].
  assert (pow2 k = 2 * 2 ^ (Z.of_nat k - j - 1) * 2 ^ j) as ->.
  { unfold pow2. rewrite <- Z.pow_succ_r, <- Z.pow_add_r by lia.
    f_equal. lia. }
  assert (0 < 2 ^ j) by (apply Z.pow_pos_nonneg; lia).
  assert (0 < 2 ^ (Z.of_nat k - j - 1)) by (apply Z.pow_pos_nonneg; lia).
  replace ((2 * i + 1) * (2 * 2 ^ (Z.of_nat k - j - 1) * 2 ^ j) - 1)
    with ((2 ^ j - 1)
          + (2 * ((2 * i + 1) * 2 ^ (Z.of_nat k - j - 1) - 1) + 1) * 2 ^ j)
    by lia.
  rewrite Z.div_add by lia. rewrite Z.div_small by lia.
  rewrite Z.add_0_l, Z.add_comm, Z.mul_comm. by rewrite Z.mod_add by lia.
Qed.

Lemma testbit_at_own_level k i :
  0 ≤ i → Z.testbit ((2 * i + 1) * pow2 k - 1) (Z.of_nat k) = false.
Proof.
  intros Hi. apply Z.testbit_false; [lia|]. fold (pow2 k).
  pose proof (pow2_pos k).
  replace ((2 * i + 1) * pow2 k - 1) with ((pow2 k - 1) + (2 * i) * pow2 k)
    by lia.
  rewrite Z.div_add by lia. rewrite Z.div_small by lia.
  rewrite Z.add_0_l, Z.mul_comm. apply Z.mod_mul. lia.
Qed.

(** X1. [level] is the number of 1 bits below the lowest 0 bit of the rank,
    and the count made by the debug build agrees with it: the assertion of
    [level] holds at every rank but the invalid one. *)
Theorem level_counts_trailing_ones (r : Rank) :
  0 ≤ r < 2 ^ 64 - 1 →
  (level r < 64)%nat
  ∧ (∀ j, 0 ≤ j < Z.of_nat (level r) → Z.testbit r j = true)
  ∧ Z.testbit r (Z.of_nat (level r)) = false
  ∧ level_chk 64 r 0 = Some (level r).
Proof.
  intros Hr. destruct (level_decomp r Hr) as [Hk (i & Hi & Heq)].
  split; [done|]. remember (level r) as k eqn:Hlv. clear Hlv. subst r.
  split; [intros j Hj; by apply testbit_below_level|].
  split; [by apply testbit_at_own_level|].
  rewrite level_chk_spec by (done || lia). done.
Qed.

(** the ranks of a full tree of root level [L] are in the tree *)
Lemma full_tree_rank L r :
  (L ≤ 62)%nat → 0 ≤ r < 2 ^ Z.of_nat (S L) - 1 → in_tree L (level r) r.
Proof.
  intros HL Hr. apply (real_node_in_tree L r (pow2 (S L) - 1)); [done|done|lia].
Qed.

(** X2. In a full tree of root level [L] the children of a node above the
    leaves are one level down, on either side of it, and [parent] leads back
    from each of them to the node. *)
Theorem parent_of_child (L : nat) (r : Rank) :
  (L ≤ 62)%nat → 0 ≤ r < 2 ^ Z.of_nat (S L) - 1 → (0 < level r)%nat →
  0 ≤ left2 r ∧ left2 r < r ∧ r < right2 r
  ∧ right2 r < 2 ^ Z.of_nat (S L) - 1
  ∧ level (left2 r) = (level r - 1)%nat
  ∧ level (right2 r) = (level r - 1)%nat
  ∧ parent2 (2 ^ Z.of_nat L - 1) (left2 r) = r
  ∧ parent2 (2 ^ Z.of_nat L - 1) (right2 r) = r.
Proof.
  intros HL Hr Hk. pose proof (full_tree_rank L r HL Hr) as Hin.
  unfold left2, right2, parent2.
  destruct (level r) as [|k] eqn:Hlv; [lia|].
  rewrite (left_eq L HL), (right_eq L HL) by done.
  pose proof (in_tree_left L HL k r Hin) as Hl.
  pose proof (in_tree_right L HL k r Hin) as Hri.
  rewrite (in_tree_level L HL k _ Hl), (in_tree_level L HL k _ Hri).
  destruct (in_tree_bounds L HL _ _ Hin) as (HkL & Hlo & Hhi & HLb & Hp).
  destruct (in_tree_bounds L HL _ _ Hl) as (_ & Hlo1 & _ & _ & Hp1).
  rewrite pow2_S in *. fold (pow2 (S L)). fold (pow2 L).
  assert (∀ c, in_tree L k c → lo (S k) r ≤ c ≤ hi (S k) r →
            parent (pow2 L - 1) c k = r) as Hpar.
  { intros c Hc Hspan.
    destruct (parent_cases L HL k c Hc ltac:(lia)) as (p & -> & Hinp & Hpc).
    apply (in_tree_unique L HL (S k) p r c); [done|done| |done].
    unfold lo, hi. rewrite pow2_S. lia. }
  rewrite !Hpar by (done || unfold lo, hi; rewrite pow2_S; lia).
  replace (S k - 1)%nat with k by lia.
  repeat split; lia.
Qed.

(** X3. In a full tree of root level [L] the parent of a node other than the
    root is one level up and has the node as its left or its right child. *)
Theorem child_of_parent (L : nat) (r : Rank) :
  (L ≤ 62)%nat → 0 ≤ r < 2 ^ Z.of_nat (S L) - 1 → r ≠ 2 ^ Z.of_nat L - 1 →
  0 ≤ parent2 (2 ^ Z.of_nat L - 1) r < 2 ^ Z.of_nat (S L) - 1
  ∧ level (parent2 (2 ^ Z.of_nat L - 1) r) = S (level r)
  ∧ ((r < parent2 (2 ^ Z.of_nat L - 1) r
      ∧ left2 (parent2 (2 ^ Z.of_nat L - 1) r) = r)
     ∨ (parent2 (2 ^ Z.of_nat L - 1) r < r
        ∧ right2 (parent2 (2 ^ Z.of_nat L - 1) r) = r)).
Proof.
  intros HL Hr Hne. pose proof (full_tree_rank L r HL Hr) as Hin.
  fold (pow2 L) in *. fold (pow2 (S L)).
  destruct (in_tree_bounds L HL _ _ Hin) as (HkL & Hlo & Hhi & HLb & Hp).
  assert (level r < L)%nat.
  { destruct (decide (level r = L)) as [Heq|]; [|lia].
    rewrite Heq in Hin. destruct Hne. by apply (in_tree_top L HL). }
  unfold parent2, left2, right2.
  destruct (parent_cases L HL (level r) r Hin ltac:(lia))
    as (p & -> & Hinp & Hpc).
  destruct (in_tree_bounds L HL _ _ Hinp) as (_ & Hlo' & Hhi' & _ & Hp').
  rewrite (in_tree_level L HL _ _ Hinp).
  rewrite (left_eq L HL), (right_eq L HL) by done.
  split; [lia|]. split; [done|]. destruct Hpc as [->| ->]; [left|right]; lia.
Qed.

(** X4. The nodes under a node of a full tree are the ranks from its
    leftmost leaf to its rightmost leaf; both are leaves of the tree, and
    the subtree of a level-[k] node has [2^(k+1) - 1] ranks. *)
Theorem subtree_is_rank_interval (L : nat) (r m : Rank) :
  (L ≤ 62)%nat → 0 ≤ r < 2 ^ Z.of_nat (S L) - 1 →
  (in_subtree r (level r) m ↔ leftmost_leaf2 r ≤ m ≤ rightmost_leaf2 r)
  ∧ 0 ≤ leftmost_leaf2 r ∧ rightmost_leaf2 r < 2 ^ Z.of_nat (S L) - 1
  ∧ rightmost_leaf2 r - leftmost_leaf2 r + 1
    = 2 ^ Z.of_nat (S (level r)) - 1
  ∧ level (leftmost_leaf2 r) = 0%nat ∧ level (rightmost_leaf2 r) = 0%nat.
Proof.
  intros HL Hr. pose proof (full_tree_rank L r HL Hr) as Hin.
  unfold leftmost_leaf2, rightmost_leaf2.
  rewrite (leftmost_leaf_eq L HL), (rightmost_leaf_eq L HL) by done.
  destruct (in_tree_bounds L HL _ _ Hin) as (HkL & Hlo & Hhi & HLb & Hp).
  fold (pow2 (S L)). fold (pow2 (S (level r))).
  destruct Hin as [(i & Hi & Heq) _].
  split; [by apply (in_subtree_span L); [|split; [exists i|]]|].
  unfold lo, hi. rewrite !pow2_S in *.
  split; [lia|]. split; [lia|]. split; [lia|].
  split; apply at_level_level; try lia.
  - exists (i * pow2 (level r)). rewrite pow2_0. split; nia.
  - exists ((i + 1) * pow2 (level r) - 1). rewrite pow2_0. split; nia.
Qed.

(** X5. The converse round trip: the [i]-th node of level [k] has rank
    [(2i+1)*2^k - 1], its level is [k] and its level-rank is [i], as long
    as the rank fits [size_t]; so the assertion of [interpolate] holds. *)
Theorem rank_levelrank_round_trip (k : Level) (i : LevelRank) :
  0 ≤ i → (2 * i + 1) * 2 ^ Z.of_nat k < 2 ^ 64 →
  rank_of_levelrank k i = (2 * i + 1) * 2 ^ Z.of_nat k - 1
  ∧ level (rank_of_levelrank k i) = k
  ∧ levelrank_of_rank (rank_of_levelrank k i) = i.
Proof.
  intros Hi Hb. fold (pow2 k) in *. pose proof (pow2_pos k).
  assert (k < 64)%nat as Hk.
  { destruct (decide (k < 64)%nat); [done|].
    pose proof (pow2_le 64 k ltac:(lia)). rewrite pow2_64 in *. nia. }
  assert (rank_of_levelrank k i = (2 * i + 1) * pow2 k - 1) as Hrk.
  { unfold rank_of_levelrank. rewrite shl_1 by done.
    rewrite (wrap_small (2 * i)) by nia.
    rewrite (wrap_small (2 * i + 1)) by nia.
    rewrite (wrap_small (pow2 k * _)) by nia.
    rewrite wrap_small by nia. lia. }
  assert (level (rank_of_levelrank k i) = k) as Hlv.
  { apply at_level_level; [exists i; by rewrite Hrk|rewrite Hrk; lia]. }
  split; [done|]. split; [done|].
  unfold levelrank_of_rank. rewrite Hlv, Hrk, shl_1 by done.
  replace ((2 * i + 1) * pow2 k - 1 + 1) with ((2 * i + 1) * pow2 k) by lia.
  rewrite (wrap_small (_ * _)) by nia. rewrite Z.div_mul by lia.
  rewrite wrap_small by nia.
  replace (2 * i + 1 - 1) with (i * 2) by lia. by rewrite Z.div_mul.
Qed.

(** ** [log2ull] *)

Lemma clzll_spec bits : ∀ x,
  0 < x < pow2 bits →
  (clzll bits x < bits)%nat
  ∧ pow2 (bits - 1 - clzll bits x) ≤ x < pow2 (bits - clzll bits x).
Proof.
  induction bits as [|b IH]; intros x Hx.
  - rewrite pow2_0 in Hx. lia.
  - cbn [clzll]. pose proof (pow2_pos b). rewrite pow2_S in Hx.
    destruct (Z.testbit x (Z.of_nat b)) eqn:Hbit.
    + split; [lia|]. replace (S b - 1 - 0)%nat with b by lia.
      replace (S b - 0)%nat with (S b) by lia. rewrite pow2_S.
      split; [|lia]. destruct (decide (pow2 b ≤ x)); [done|exfalso].
      apply Z.testbit_true in Hbit; [|lia]. fold (pow2 b) in Hbit.
      rewrite Z.div_small in Hbit by lia. done.
    + assert (x < pow2 b).
      { destruct (decide (x < pow2 b)); [done|exfalso].
        apply Z.testbit_false in Hbit; [|lia]. fold (pow2 b) in Hbit.
        assert (x / pow2 b = 1) as Hq
          by (symmetry; apply (Z.div_unique x (pow2 b) 1 (x - pow2 b)); lia).
        rewrite Hq in Hbit. done. }
      destruct (IH x) as [Hc Hr]; [lia|]. split; [lia|].
      replace (S b - 1 - S (clzll b x))%nat with (b - 1 - clzll b x)%nat
        by lia.
      by replace (S b - S (clzll b x))%nat with (b - clzll b x)%nat by lia.
Qed.

(** X6. [log2ull] is the floor of the binary logarithm, at every positive
    64-bit argument. *)
Theorem log2ull_is_floor_log2 (x : Z) :
  0 < x < 2 ^ 64 →
  0 ≤ log2ull x ≤ 63
  ∧ 2 ^ log2ull x ≤ x < 2 ^ (log2ull x + 1)
  ∧ log2ull x = Z.log2 x.
Proof.
  intros Hx. destruct (clzll_spec 64 x) as [Hc [Hlo Hhi]].
  { by rewrite pow2_64. }
  assert (log2ull x = Z.of_nat (64 - 1 - clzll 64 x)) as Hl.
  { unfold log2ull. rewrite (wrap_small (8 * 8 - _)) by lia.
    rewrite wrap_small by lia. rewrite Z.mod_small by lia. lia. }
  unfold pow2 in Hlo, Hhi.
  replace (Z.of_nat (64 - clzll 64 x))
    with (Z.of_nat (64 - 1 - clzll 64 x) + 1) in Hhi by lia.
  assert (0 ≤ log2ull x ≤ 63) by lia.
  rewrite <- Hl in Hlo, Hhi. split; [done|]. split; [done|].
  symmetry. apply Z.log2_unique; [lia|]. by rewrite <- Z.add_1_r.
Qed.

(** ** Order and cost of the scan *)

Lemma sorted_lt_NoDup (l : list Z) : StronglySorted Z.lt l → NoDup l.
Proof.
  induction 1 as [|x l _ IH Hx]; constructor; [|done].
  intros Hin. rewrite Forall_forall in Hx. specialize (Hx x Hin). lia.
Qed.

Lemma sorted_lt_seqZ (n : nat) : ∀ m, StronglySorted Z.lt (seqZ m (Z.of_nat n)).
Proof.
  induction n as [|n IH]; intros m; [constructor|].
  rewrite seqZ_cons by lia. constructor.
  - replace (Z.pred (Z.of_nat (S n))) with (Z.of_nat n) by lia. apply IH.
  - apply Forall_seqZ. lia.
Qed.

Lemma sorted_lt_filter (P : Z → Prop) `{!∀ x, Decision (P x)} (l : list Z) :
  StronglySorted Z.lt l → StronglySorted Z.lt (filter P l).
Proof.
  induction 1 as [|x l _ IH Hx]; [constructor|].
  rewrite filter_cons. case_decide; [|done]. constructor; [done|].
  rewrite Forall_forall in *. intros y Hy.
  apply list_elem_of_filter in Hy as [_ Hy]. by apply Hx.
Qed.

(** a strictly increasing list is determined by its members *)
Lemma sorted_lt_filter_seqZ (P : Z → Prop) `{!∀ x, Decision (P x)}
    (l : list Z) (n : nat) :
  StronglySorted Z.lt l →
  (∀ m, m ∈ l ↔ 0 ≤ m < Z.of_nat n ∧ P m) →
  l = filter P (seqZ 0 (Z.of_nat n)).
Proof.
  intros Hs Hm.
  apply (StronglySorted_unique_strong Z.lt); [intros; lia|done| |].
  - apply sorted_lt_filter, sorted_lt_seqZ.
  - apply NoDup_Permutation; [by apply sorted_lt_NoDup| |].
    + apply NoDup_filter, NoDup_seqZ.
    + intros m. rewrite Hm, list_elem_of_filter, elem_of_seqZ. tauto.
Qed.

Section ScanOrder.
Context {Node : Type} `{!IitNode Node}.

Implicit Types nodes : list Node.

Lemma scan_leaves_order nodes qbeg qend cnt : ∀ r ans,
  0 ≤ r → r + Z.of_nat cnt < 2 ^ 64 →
  ∃ r' new,
    scan_leaves nodes cnt r qbeg qend ans = (r', ans ++ new)
    ∧ r ≤ r' ≤ r + Z.of_nat cnt
    ∧ StronglySorted Z.lt new
    ∧ Forall (λ m, r ≤ m < r') new
    ∧ Z.of_nat (length new) ≤ r' - r.
Proof.
  induction cnt as [|c IH]; intros r ans Hr Hb.
  - exists r, []. cbn [scan_leaves]. rewrite app_nil_r.
    split; [done|]. split; [lia|]. split; [constructor|].
    split; [constructor|]. cbn. lia.
  - cbn [scan_leaves]. destruct (qend <=? node_beg nodes r).
    + exists r, []. rewrite app_nil_r.
      split; [done|]. split; [lia|]. split; [constructor|].
      split; [constructor|]. cbn. lia.
    + rewrite wrap_small by lia.
      set (ans1 := if qbeg <? node_end nodes r then ans ++ [r] else ans).
      destruct (IH (r + 1) ans1) as (r' & new & Heq & Hr' & Hs & Hin & Hlen);
        [lia|lia|].
      rewrite Heq.
      exists r', ((if qbeg <? node_end nodes r then [r] else []) ++ new).
      subst ans1. rewrite Forall_forall in Hin.
      destruct (qbeg <? node_end nodes r); cbn [app length].
      * split; [by rewrite <- app_assoc|]. split; [lia|].
        split; [constructor; [done|]|].
        { apply Forall_forall. intros m Hm. specialize (Hin m Hm). lia. }
        split; [|lia]. constructor; [lia|].
        apply Forall_forall. intros m Hm. specialize (Hin m Hm). lia.
      * split; [done|]. split; [lia|]. split; [done|]. split; [|lia].
        apply Forall_forall. intros m Hm. specialize (Hin m Hm). lia.
Qed.

(** The answer of [scan] is what [ans] held followed by ranks of the
    subtree in increasing order; the cost counts at least the ranks found
    and at most the nodes of the subtree. *)
Lemma scan_order L nodes qbeg qend k :
  (L ≤ 62)%nat → size nodes < 2 ^ 63 → ∀ r ans,
  in_tree L k r →
  ∃ c new,
    scan nodes r k qbeg qend ans = (c, ans ++ new)
    ∧ StronglySorted Z.lt new
    ∧ Forall (λ m, lo k r ≤ m ≤ hi k r) new
    ∧ Z.of_nat (length new) ≤ c ≤ pow2 (S k) - 1.
Proof.
  intros HL Hsize.
  induction k as [|ck IH]; intros r ans Hin;
    destruct (in_tree_bounds L HL _ _ Hin) as (HkL & Hlo & Hhi & HLb & Hp);
    pose proof (size_nonneg nodes) as HN.
  - cbn [scan]. destruct (Z.leb_spec (size nodes) r) as [Himag|Hreal].
    + exists 1, []. rewrite app_nil_r. split; [done|].
      split; [constructor|]. split; [constructor|].
      rewrite pow2_S, pow2_0. cbn. lia.
    + cbn [Nat.leb].
      rewrite (leftmost_leaf_eq L HL), (rightmost_leaf_eq L HL) by done.
      rewrite (wrap_small (size nodes - 1)) by lia.
      unfold lo, hi in *. rewrite pow2_S, pow2_0 in *.
      replace (Z.to_nat (Z.min (r + (1 - 1)) (size nodes - 1) + 1
                         - (r - (1 - 1)))) with 1%nat by lia.
      destruct (scan_leaves_order nodes qbeg qend 1 (r - (1 - 1)) ans)
        as (r' & new & Heq & Hr' & Hs & Hnew & Hlen); [lia|lia|].
      rewrite Heq. eexists _, new. split; [done|]. split; [done|].
      rewrite wrap_small by lia. split; [|lia].
      eapply Forall_impl; [exact Hnew|]. cbn. intros; lia.
  - cbn [scan]. destruct (Z.leb_spec (size nodes) r) as [Himag|Hreal].
    + rewrite (left_eq L HL) by done.
      destruct (IH (r - pow2 ck) ans) as (c & new & Heq & Hs & Hnew & Hc);
        [by apply in_tree_left|].
      rewrite Heq. eexists _, new. split; [done|]. split; [done|].
      rewrite !pow2_S in *. rewrite wrap_small by lia. split; [|lia].
      eapply Forall_impl; [exact Hnew|]. unfold lo, hi. cbn.
      intros; rewrite !pow2_S; lia.
    + destruct (Nat.leb_spec (S ck) 2) as [Hsmall|Hbig].
      * rewrite (leftmost_leaf_eq L HL), (rightmost_leaf_eq L HL) by done.
        rewrite (wrap_small (size nodes - 1)) by lia.
        set (rml := Z.min (hi (S ck) r) (size nodes - 1)).
        assert (Hrml : lo (S ck) r ≤ rml + 1) by (unfold lo, hi in *; lia).
        destruct (scan_leaves_order nodes qbeg qend
                    (Z.to_nat (rml + 1 - lo (S ck) r)) (lo (S ck) r) ans)
          as (r' & new & Heq & Hr' & Hs & Hnew & Hlen);
          [unfold lo; lia|unfold lo, hi in *; lia|].
        rewrite Heq. eexists _, new. split; [done|]. split; [done|].
        assert (r' ≤ hi (S ck) r + 1) by lia.
        unfold lo, hi in *. rewrite !pow2_S in *.
        rewrite wrap_small by lia. split; [|lia].
        eapply Forall_impl; [exact Hnew|]. cbn. intros; lia.
      * rewrite (left_eq L HL), (right_eq L HL) by done.
        destruct (qbeg <? node_ime nodes r).
        -- destruct (IH (r - pow2 ck) ans)
             as (c1 & new1 & Heq1 & Hs1 & Hnew1 & Hc1);
             [by apply in_tree_left|].
           rewrite Heq1. rewrite Forall_forall in Hnew1.
           rewrite (wrap_small (1 + c1)) by (rewrite !pow2_S in *; lia).
           destruct (node_beg nodes r <? qend).
           ++ set (mid := if qbeg <? node_end nodes r then [r] else []).
              destruct (IH (r + pow2 ck)
                (if qbeg <? node_end nodes r
                 then (ans ++ new1) ++ [r] else ans ++ new1))
                as (c2 & new2 & Heq2 & Hs2 & Hnew2 & Hc2);
                [by apply in_tree_right|].
              rewrite Heq2. rewrite Forall_forall in Hnew2.
              eexists _, (new1 ++ mid ++ new2). split.
              { f_equal. subst mid. destruct (qbeg <? node_end nodes r);
                  by rewrite <- ?app_assoc. }
              assert (Forall (λ m, m = r) mid
                      ∧ Z.of_nat (length mid) ≤ 1 ∧ StronglySorted Z.lt mid)
                as (Hmid & Hlmid & Hsmid).
              { subst mid. destruct (qbeg <? node_end nodes r).
                - split; [by repeat constructor|]. split; [cbn; lia|].
                  by repeat constructor.
                - split; [constructor|]. split; [cbn; lia|]. constructor. }
              rewrite Forall_forall in Hmid.
              unfold lo, hi in *. rewrite !pow2_S in *.
              split.
              { apply StronglySorted_app_2; [|done|].
                - intros x y Hx Hy. specialize (Hnew1 x Hx).
                  apply elem_of_app in Hy as [Hy|Hy];
                    [specialize (Hmid y Hy)|specialize (Hnew2 y Hy)]; lia.
                - apply StronglySorted_app_2; [|done|done].
                  intros x y Hx Hy. specialize (Hmid x Hx).
                  specialize (Hnew2 y Hy). lia. }
              split.
              { apply Forall_forall. intros m Hm.
                apply elem_of_app in Hm as [Hm|Hm];
                  [specialize (Hnew1 m Hm); lia|].
                apply elem_of_app in Hm as [Hm|Hm];
                  [specialize (Hmid m Hm)|specialize (Hnew2 m Hm)]; lia. }
              rewrite !length_app, wrap_small by lia. lia.
           ++ eexists _, new1. split; [done|]. split; [done|].
              unfold lo, hi in *. rewrite !pow2_S in *. split; [|lia].
              apply Forall_forall. intros m Hm. specialize (Hnew1 m Hm). lia.
        -- exists 1, []. rewrite app_nil_r. split; [done|].
           split; [constructor|]. split; [constructor|].
           rewrite !pow2_S. pose proof (pow2_pos ck). cbn. lia.
Qed.

End ScanOrder.

Section OrderedAnswers.
Context {Node : Type} `{!IitNode Node}.

Variable L : nat.
Variable t : @iit_base Node.
Hypothesis Hwf : wf_index L t.

Lemma overlap_order qbeg qend :
  StronglySorted Z.lt (overlap t qbeg qend).2
  ∧ Z.of_nat (length (overlap t qbeg qend).2) ≤ (overlap t qbeg qend).1
  ∧ (overlap t qbeg qend).1 ≤ pow2 (S L) - 1.
Proof.
  destruct Hwf as ((HrL & Hroot & _) & HL & Hsz & _).
  unfold overlap. rewrite HrL, Hroot.
  destruct (scan_order L (nodes t) qbeg qend L ltac:(lia) ltac:(lia)
              (pow2 L - 1) []) as (c & new & Hscan & Hs & _ & Hc);
    [apply in_tree_root; lia|].
  rewrite Hscan. cbn. split; [done|lia].
Qed.

Lemma overlap_exact qbeg qend :
  (overlap t qbeg qend).2
  = filter (λ m, node_beg (nodes t) m < qend ∧ qbeg < node_end (nodes t) m)
      (seqZ 0 (size (nodes t))).
Proof.
  apply sorted_lt_filter_seqZ; [apply overlap_order|].
  intros m. rewrite (proj2 (overlap_wf L t Hwf qbeg qend)).
  unfold overlaps, size. tauto.
Qed.

End OrderedAnswers.

Section OrderedAnswersIitii.

Variable L : nat.
Variable t : iitii.
Hypothesis Hwf : wf_iitii L t.

Lemma iitii_overlap_order qbeg qend :
  ∃ c ans t', iitii_overlap t qbeg qend = Some (c, ans, t')
    ∧ StronglySorted Z.lt ans
    ∧ Z.of_nat (length ans) ≤ c
    ∧ c ≤ pow2 (S L) - 1 + 3 * Z.of_nat L.
Proof.
  pose proof Hwf as (Hwfi & _).
  pose proof Hwfi as ((HrL & Hroot & Hfs) & HL & Hsz1 & HN & _).
  unfold iitii_overlap.
  destruct (predict_real L t Hwf qbeg) as [Hp|Hp].
  - rewrite Hp, Z.eqb_refl.
    pose proof (overlap_order L (super t) Hwfi qbeg qend) as (Hs & Hlen & Hc).
    destruct (overlap (super t) qbeg qend) as [c ans].
    exists c, ans, t. split; [reflexivity|]. cbn in *. split; [done|lia].
  - destruct (Z.eqb_spec (predict t qbeg) nrank) as [Hn|_];
      [unfold nrank in Hn; lia|].
    pose proof (real_node_in_tree L (predict t qbeg) _ ltac:(lia) Hp HN)
      as Hin.
    destruct (climb_spec L t Hwf qbeg qend 64 (predict t qbeg)
                (level (predict t qbeg)) Hin ltac:(lia))
      as (r & k & Hc & Hinr & Hk & _).
    rewrite Hc. cbn [mbind option_bind].
    destruct (scan_order L (nodes (super t)) qbeg qend k ltac:(lia)
                ltac:(lia) r [] Hinr) as (c & new & Hscan & Hs & _ & Hcost).
    rewrite Hscan. cbn [app]. eexists _, new, _. split; [reflexivity|].
    split; [done|].
    pose proof (pow2_le (S k) (S L) ltac:(lia)).
    pose proof (pow2_bound (S L) ltac:(lia)).
    rewrite (wrap_small (_ - _)) by lia.
    rewrite (wrap_small (3 * _)) by lia. rewrite wrap_small by lia. lia.
Qed.

Lemma iitii_overlap_exact qbeg qend c ans t' :
  iitii_overlap t qbeg qend = Some (c, ans, t') →
  ans
  = filter (λ m, node_beg (nodes (super t)) m < qend
                 ∧ qbeg < node_end (nodes (super t)) m)
      (seqZ 0 (size (nodes (super t)))).
Proof.
  intros Heq.
  destruct (iitii_overlap_order qbeg qend) as (c1 & ans1 & t1 & Heq1 & Hs & _).
  destruct (iitii_overlap_spec L t Hwf qbeg qend)
    as (c2 & ans2 & t2 & Heq2 & _ & _ & _ & Hm).
  rewrite Heq in Heq1, Heq2.
  injection Heq1 as <- <- <-. injection Heq2 as <- <- <-.
  apply sorted_lt_filter_seqZ; [done|].
  intros m. rewrite Hm. unfold overlaps, size. tauto.
Qed.

End OrderedAnswersIitii.

Section AnswerItems.
Context {Node : Type} `{!IitNode Node}.

Lemma omap_lookup_filter {A} (its : list A) (P : A → Prop)
    `{!∀ x, Decision (P x)} (Q : Z → Prop) `{!∀ m, Decision (Q m)} :
  (∀ i x, its !! i = Some x → (Q (Z.of_nat i) ↔ P x)) →
  ∀ n, (n ≤ length its)%nat →
  omap (λ m, its !! Z.to_nat m) (filter Q (seqZ 0 (Z.of_nat n)))
  = filter P (take n its).
Proof.
  intros HQ. induction n as [|n IH]; intros Hn; [by rewrite take_0|].
  destruct (lookup_lt_is_Some_2 its n) as [x Hx]; [lia|].
  rewrite seqZ_S, filter_app, omap_app, IH by lia.
  rewrite (take_S_r _ _ x), filter_app by done. f_equal.
  rewrite Z.add_0_l, !filter_cons, !filter_nil.
  destruct (decide (Q (Z.of_nat n))) as [Hq|Hq].
  - rewrite decide_True by (by apply (HQ n x)). cbn. by rewrite Nat2Z.id, Hx.
  - rewrite decide_False; [done|]. intros Hp. by apply Hq, (HQ n x).
Qed.

Lemma answer_items_exact (l : list Node) qbeg qend :
  answer_items l
    (filter (λ m, node_beg l m < qend ∧ qbeg < node_end l m)
       (seqZ 0 (size l)))
  = filter (λ it, get_beg it < qend ∧ qbeg < get_end it) (node_items l).
Proof.
  unfold answer_items, size.
  replace (length l) with (length (node_items l))
    by (unfold node_items; apply length_map).
  rewrite (omap_lookup_filter (node_items l)
             (λ it, get_beg it < qend ∧ qbeg < get_end it)).
  - by rewrite firstn_all.
  - intros i x Hx. by rewrite node_beg_items, node_end_items, Nat2Z.id, Hx.
  - done.
Qed.

End AnswerItems.

(** X7. The answer lists the overlapping nodes in increasing order of rank,
    that is in the order of the sorted node array, on both query paths. *)
Theorem overlap_in_rank_order items train qbeg qend :
  Z.of_nat (length items) < 2 ^ 62 →
  (∃ t, iit_build (builder_range items) = Some t
     ∧ StronglySorted Z.lt (overlap t qbeg qend).2
     ∧ (overlap t qbeg qend).2
       = filter (λ m, node_beg (nodes t) m < qend
                      ∧ qbeg < node_end (nodes t) m)
           (seqZ 0 (size (nodes t))))
  ∧ (∃ t cost ans t', iitii_build train (builder_range items) = Some t
       ∧ iitii_overlap t qbeg qend = Some (cost, ans, t')
       ∧ StronglySorted Z.lt ans
       ∧ ans
         = filter (λ m, node_beg (nodes (super t)) m < qend
                        ∧ qbeg < node_end (nodes (super t)) m)
             (seqZ 0 (size (nodes (super t))))).
Proof.
  intros Hlen. split.
  - destruct (iit_build_wf items Hlen) as (t & L & Hb & Hwf & _).
    exists t. split; [done|]. split; [by eapply overlap_order|].
    by eapply overlap_exact.
  - destruct (iitii_build_wf train items Hlen) as (t & L & Hb & Hwf & _).
    destruct (iitii_overlap_order L t Hwf qbeg qend)
      as (c & ans & t' & Heq & Hs & _).
    exists t, c, ans, t'. split; [done|]. split; [done|]. split; [done|].
    by eapply iitii_overlap_exact.
Qed.

(** X8. The reported cost of a query is at least the number of results. It
    is at most [2^(root_level+1) - 1] on the [iit] path, which is the number
    of ranks of the full tree of an index that is not empty, and at most
    that plus three times the root level on the [iitii] path. *)
Theorem overlap_cost_bounds items train qbeg qend :
  Z.of_nat (length items) < 2 ^ 62 →
  (∃ t, iit_build (builder_range items) = Some t
     ∧ Z.of_nat (length (overlap t qbeg qend).2) ≤ (overlap t qbeg qend).1
     ∧ (overlap t qbeg qend).1 ≤ 2 ^ Z.of_nat (S (root_level t)) - 1)
  ∧ (∃ t cost ans t', iitii_build train (builder_range items) = Some t
       ∧ iitii_overlap t qbeg qend = Some (cost, ans, t')
       ∧ Z.of_nat (length ans) ≤ cost
       ∧ cost ≤ 2 ^ Z.of_nat (S (root_level (super t))) - 1
                + 3 * Z.of_nat (root_level (super t))).
Proof.
  intros Hlen. split.
  - destruct (iit_build_wf items Hlen) as (t & L & Hb & Hwf & _).
    exists t. split; [done|].
    destruct (overlap_order L t Hwf qbeg qend) as (_ & ? & ?).
    destruct Hwf as ((-> & _) & _). done.
  - destruct (iitii_build_wf train items Hlen) as (t & L & Hb & Hwf & _).
    destruct (iitii_overlap_order L t Hwf qbeg qend)
      as (c & ans & t' & Heq & _ & ? & ?).
    exists t, c, ans, t'. split; [done|]. split; [done|].
    destruct Hwf as (((-> & _) & _) & _). done.
Qed.

(** X9. A query returns the items of the input whose interval overlaps
    [[qbeg, qend)], each as often as it was added, in the order of the
    sorted node array; this holds on both query paths. *)
Theorem overlap_returns_overlapping_items items train qbeg qend :
  Z.of_nat (length items) < 2 ^ 62 →
  (∃ t, iit_build (builder_range items) = Some t
     ∧ answer_items (nodes t) (overlap t qbeg qend).2
       = filter (λ it, get_beg it < qend ∧ qbeg < get_end it)
           (node_items (nodes t))
     ∧ answer_items (nodes t) (overlap t qbeg qend).2
       ≡ₚ filter (λ it, get_beg it < qend ∧ qbeg < get_end it) items)
  ∧ (∃ t cost ans t', iitii_build train (builder_range items) = Some t
       ∧ iitii_overlap t qbeg qend = Some (cost, ans, t')
       ∧ answer_items (nodes (super t)) ans
         = filter (λ it, get_beg it < qend ∧ qbeg < get_end it)
             (node_items (nodes (super t)))
       ∧ answer_items (nodes (super t)) ans
         ≡ₚ filter (λ it, get_beg it < qend ∧ qbeg < get_end it) items).
Proof.
  intros Hlen. split.
  - destruct (iit_build_wf items Hlen) as (t & L & Hb & Hwf & Hit).
    exists t. split; [done|].
    rewrite (overlap_exact L t Hwf), answer_items_exact. split; [done|].
    apply filter_Permutation. by eapply node_items_sorted.
  - destruct (iitii_build_wf train items Hlen) as (t & L & Hb & Hwf & Hit).
    destruct (iitii_overlap_order L t Hwf qbeg qend)
      as (c & ans & t' & Heq & _).
    exists t, c, ans, t'. split; [done|]. split; [done|].
    rewrite (iitii_overlap_exact L t Hwf qbeg qend c ans t' Heq).
    rewrite answer_items_exact. split; [done|].
    apply filter_Permutation. by eapply node_items_sorted.
Qed.

(** ** Construction *)

Section Geometry.
Context {Node : Type} `{!IitNode Node}.

Lemma iit_base_new_geometry (nodes0 : list Node) t :
  iit_base_new nodes0 = Some t →
  tree_geometry 64 (size nodes0) 0 0 = Some (root_level t, full_size t).
Proof.
  unfold iit_base_new.
  destruct (tree_geometry 64 (size nodes0) 0 0) as [[rl fs]|];
    cbn [mbind option_bind]; [|done].
  destruct (size nodes0 =? 0); [by intros [= <-]|].
  destruct (right_border _ _ _ _) as [border|]; cbn [mbind option_bind];
    [|done].
  destruct (index_levels _ _ _ _ _) as [st|]; cbn [mbind option_bind];
    [|done].
  by intros [= <-].
Qed.

End Geometry.

Lemma iitii_new_geometry train (nodes0 : list iitii_node) t :
  iitii_new train nodes0 = Some t →
  tree_geometry 64 (size nodes0) 0 0
  = Some (root_level (super t), full_size (super t)).
Proof.
  unfold iitii_new.
  destruct (iit_base_new nodes0) as [t0|] eqn:Ht0; cbn [mbind option_bind];
    [|done].
  apply iit_base_new_geometry in Ht0.
  destruct (size (nodes t0) =? 0); [by intros [= <-]|].
  destruct (fill_outside_max_end _ _ _ _) as [nodes'|];
    cbn [mbind option_bind]; [|done].
  by intros [= <-].
Qed.

(** the shape that the geometry loop gives to an index of [n] nodes *)
Lemma geometry_of_size n L fs root :
  0 ≤ n < 2 ^ 62 →
  tree_geometry 64 n 0 0 = Some (L, fs) → root = pow2 L - 1 →
  (n = 0 → L = 0%nat ∧ fs = 0)
  ∧ (0 < n → (1 ≤ L ≤ 61)%nat ∧ fs = 2 ^ Z.of_nat (S L) - 1 ∧ n ≤ fs
             ∧ (L = 1%nat ∨ 2 ^ Z.of_nat L ≤ n))
  ∧ (n = 1 → root = 1)
  ∧ (2 ≤ n → root < n ∧ fs ≤ 2 * n - 1).
Proof.
  intros Hn Hg ->.
  destruct (tree_geometry_spec n Hn)
    as (L' & Hg' & HL & Hfull & Hz & Hpos & Hmin).
  rewrite Hg in Hg'. injection Hg' as -> ->.
  fold (pow2 (S L')). fold (pow2 L').
  assert (L' = 1%nat → pow2 L' = 2 ∧ pow2 (S L') = 4) as H1
    by (by intros ->).
  assert ((1 ≤ L')%nat → 2 ≤ pow2 L') as H2
    by (intros ?; by apply (pow2_le 1)).
  pose proof (pow2_pos L'). rewrite pow2_S in *.
  split; [intros ->; by rewrite Hz|].
  split.
  { intros ?. rewrite decide_False by lia. specialize (Hpos ltac:(lia)).
    split; [lia|]. split; [done|]. split; [done|].
    destruct Hmin as [?|?]; [left|right]; lia. }
  split.
  { intros ->. specialize (Hpos ltac:(lia)). specialize (H2 Hpos).
    destruct Hmin as [?|?]; [|lia]. destruct H1; lia. }
  intros ?. rewrite decide_False by lia. specialize (Hpos ltac:(lia)).
  specialize (H2 Hpos). destruct Hmin as [?|?]; [|lia]. destruct H1; lia.
Qed.

(** X10. The geometry of a built index of [n] nodes. An empty index has
    root level 0 and full size 0. Otherwise the root level is the least
    [L >= 1] with [n <= 2^(L+1) - 1], the full tree has [2^(L+1) - 1] ranks
    and the root is [2^L - 1]. The root of a one-item index is the imaginary
    rank 1; from two items on the root is real and the full size is at most
    [2n - 1]. [iit] and [iitii] have the same geometry. *)
Theorem built_tree_geometry items train :
  Z.of_nat (length items) < 2 ^ 62 →
  ∃ t ti, iit_build (builder_range items) = Some t
    ∧ iitii_build train (builder_range items) = Some ti
    ∧ size (nodes t) = Z.of_nat (length items)
    ∧ size (nodes (super ti)) = Z.of_nat (length items)
    ∧ root_level (super ti) = root_level t
    ∧ root (super ti) = root t
    ∧ full_size (super ti) = full_size t
    ∧ root t = 2 ^ Z.of_nat (root_level t) - 1
    ∧ (length items = 0%nat → root_level t = 0%nat ∧ full_size t = 0)
    ∧ ((0 < length items)%nat →
         (1 ≤ root_level t ≤ 61)%nat
         ∧ full_size t = 2 ^ Z.of_nat (S (root_level t)) - 1
         ∧ Z.of_nat (length items) ≤ full_size t
         ∧ (root_level t = 1%nat
            ∨ 2 ^ Z.of_nat (root_level t) ≤ Z.of_nat (length items)))
    ∧ (length items = 1%nat → root t = 1)
    ∧ ((2 ≤ length items)%nat →
         root t < Z.of_nat (length items)
         ∧ full_size t ≤ 2 * Z.of_nat (length items) - 1).
Proof.
  intros Hlen.
  destruct (iit_build_wf items Hlen) as (t & L & Hb & Hwf & Hit).
  destruct (iitii_build_wf train items Hlen) as (ti & Li & Hbi & Hwfi & Hiti).
  exists t, ti. split; [done|]. split; [done|].
  apply same_item_size in Hit, Hiti. unfold size in Hit, Hiti.
  rewrite iit_sort_length, length_map in Hit.
  rewrite iit_sort_length, length_map in Hiti.
  unfold iit_build in Hb. unfold iitii_build in Hbi.
  rewrite builder_range_sort, builder_range_nodes in Hb.
  rewrite builder_range_sort, builder_range_nodes in Hbi.
  apply iit_base_new_geometry in Hb. apply iitii_new_geometry in Hbi.
  unfold size in Hb, Hbi. rewrite iit_sort_length, length_map in Hb.
  rewrite iit_sort_length, length_map in Hbi.
  rewrite Hb in Hbi. injection Hbi as Hrl Hfs.
  destruct Hwf as ((HrL & Hroot & _) & _).
  destruct Hwfi as (((HrLi & Hrooti & _) & _) & _).
  assert (Li = L) as -> by congruence.
  destruct (geometry_of_size (Z.of_nat (length items)) _ _ (root t)
              ltac:(lia) Hb)
    as (H0 & Hp & H1 & H2); [by rewrite HrL|].
  unfold size. rewrite <- Hit, <- Hiti.
  split; [done|]. split; [done|]. split; [done|].
  split; [by rewrite Hrooti|]. split; [done|].
  split; [by rewrite HrL|].
  split; [intros ?; apply H0; lia|].
  split; [intros ?; apply Hp; lia|].
  split; [intros ?; apply H1; lia|].
  intros ?; apply H2; lia.
Qed.

Section LexSort.
Context {Node : Type} `{!IitNode Node}.

Lemma node_lt_irrefl (x : Node) : node_lt x x = false.
Proof. unfold node_lt. rewrite Z.eqb_refl. apply Z.ltb_irrefl. Qed.

Lemma node_lt_asym (x y : Node) : node_lt x y = true → node_lt y x = false.
Proof.
  unfold node_lt.
  destruct (Z.eqb_spec (beg x) (beg y)), (Z.eqb_spec (beg y) (beg x)); lia.
Qed.

Lemma node_ge_trans (x y z : Node) :
  node_lt y x = false → node_lt z y = false → node_lt z x = false.
Proof.
  unfold node_lt.
  destruct (Z.eqb_spec (beg y) (beg x)), (Z.eqb_spec (beg z) (beg y)),
    (Z.eqb_spec (beg z) (beg x)); lia.
Qed.

Lemma sort_insert_lex_sorted x l :
  StronglySorted (λ a b : Node, node_lt b a = false) l →
  StronglySorted (λ a b : Node, node_lt b a = false) (sort_insert x l).
Proof.
  induction 1 as [|y l Hl IH Hy]; cbn [sort_insert];
    [by repeat constructor|].
  destruct (node_lt y x) eqn:Hlt.
  - constructor; [done|]. apply sort_insert_Forall; [|done].
    by apply node_lt_asym.
  - constructor; [by constructor|]. constructor; [done|].
    eapply Forall_impl; [exact Hy|]. cbn. intros z Hz.
    by apply (node_ge_trans x y z).
Qed.

Lemma iit_sort_lex_sorted l :
  StronglySorted (λ a b : Node, node_lt b a = false) (iit_sort l).
Proof.
  induction l as [|x l IH]; cbn; [constructor|].
  by apply sort_insert_lex_sorted.
Qed.

Lemma StronglySorted_lookup_refl {A} (R : relation A) (l : list A) :
  (∀ x, R x x) → StronglySorted R l →
  ∀ i j x y, (i ≤ j)%nat → l !! i = Some x → l !! j = Some y → R x y.
Proof.
  intros Hrefl. induction 1 as [|z l Hl IH Hz]; intros i j x y Hij Hi Hj;
    [done|].
  destruct i as [|i], j as [|j]; cbn in *; try lia.
  - by simplify_eq.
  - simplify_eq. rewrite Forall_lookup in Hz. by apply (Hz j).
  - apply (IH i j); [lia|done|done].
Qed.

Lemma sorted_nodes_lex (items : list Item) (l : list Node) :
  Forall2 same_item (iit_sort (map node_new items)) l →
  ∀ i j x y, (i ≤ j)%nat → l !! i = Some x → l !! j = Some y →
    node_lt y x = false.
Proof.
  intros H i j x y Hij Hx Hy.
  destruct (Forall2_lookup_r _ _ _ _ _ H Hx) as (x0 & Hx0 & Hsx).
  destruct (Forall2_lookup_r _ _ _ _ _ H Hy) as (y0 & Hy0 & Hsy).
  rewrite <- (node_lt_same_item y0 x0 y x Hsy Hsx).
  apply (StronglySorted_lookup_refl (λ a b : Node, node_lt b a = false)
           (iit_sort (map node_new items)) node_lt_irrefl
           (iit_sort_lex_sorted _) i j); done.
Qed.

End LexSort.

(** X11. [build] leaves the node array in the order of [operator<]: no
    node is less than a node before it, that is the nodes ascend by [beg]
    and, among equal [beg], by [end]. The array holds the items added. *)
Theorem build_sorts_by_beg_then_end items train :
  Z.of_nat (length items) < 2 ^ 62 →
  (∃ t, iit_build (builder_range items) = Some t
     ∧ node_items (nodes t) ≡ₚ items
     ∧ ∀ i j x y, (i ≤ j)%nat →
         nodes t !! i = Some x → nodes t !! j = Some y →
         node_lt y x = false
         ∧ (beg x < beg y ∨ (beg x = beg y ∧ end_ x ≤ end_ y)))
  ∧ (∃ t, iitii_build train (builder_range items) = Some t
       ∧ node_items (nodes (super t)) ≡ₚ items
       ∧ ∀ i j x y, (i ≤ j)%nat →
           nodes (super t) !! i = Some x → nodes (super t) !! j = Some y →
           node_lt y x = false
           ∧ (beg x < beg y ∨ (beg x = beg y ∧ end_ x ≤ end_ y))).
Proof.
  intros Hlen.
  assert (∀ {Node} `{!IitNode Node} (x y : Node), node_lt y x = false →
            beg x < beg y ∨ (beg x = beg y ∧ end_ x ≤ end_ y)) as Hlex.
  { intros Node ? x y. unfold node_lt.
    destruct (Z.eqb_spec (beg y) (beg x)); lia. }
  split.
  - destruct (iit_build_wf items Hlen) as (t & L & Hb & Hwf & Hit).
    exists t. split; [done|]. split; [by eapply node_items_sorted|].
    intros i j x y Hij Hx Hy.
    pose proof (sorted_nodes_lex items (nodes t) Hit i j x y Hij Hx Hy).
    split; [done|]. by apply Hlex.
  - destruct (iitii_build_wf train items Hlen) as (t & L & Hb & Hwf & Hit).
    exists t. split; [done|]. split; [by eapply node_items_sorted|].
    intros i j x y Hij Hx Hy.
    pose proof (sorted_nodes_lex items (nodes (super t)) Hit i j x y Hij
                  Hx Hy).
    split; [done|]. by apply Hlex.
Qed.

Section Builder.
Context {Node : Type} `{!IitNode Node}.

Lemma add_range_nodes (items : list Item) : ∀ b : @iit_builder_base Node,
  nodes_ (add_range b items) = nodes_ b ++ map node_new items
  ∧ sort_ (add_range b items) = sort_ b.
Proof.
  unfold add_range. induction items as [|it items IH]; intros b; cbn.
  - by rewrite app_nil_r.
  - destruct (IH (add b it)) as [-> ->]. cbn. by rewrite <- app_assoc.
Qed.

Lemma node_items_new (items : list Item) :
  node_items (map node_new items : list Node) = items.
Proof.
  unfold node_items. induction items as [|it items IH]; cbn; [done|].
  rewrite node_base_new. cbn. by f_equal.
Qed.

End Builder.

Section ScanExt.
Context {Node1 : Type} `{!IitNode Node1}.
Context {Node2 : Type} `{!IitNode Node2}.

Variable l1 : list Node1.
Variable l2 : list Node2.
Hypothesis Hsize : size l1 = size l2.
Hypothesis Hbeg : ∀ r, node_beg l1 r = node_beg l2 r.
Hypothesis Hend : ∀ r, node_end l1 r = node_end l2 r.
Hypothesis Hime : ∀ r, node_ime l1 r = node_ime l2 r.

Lemma scan_leaves_ext qbeg qend cnt : ∀ r ans,
  scan_leaves l1 cnt r qbeg qend ans = scan_leaves l2 cnt r qbeg qend ans.
Proof.
  induction cnt as [|c IH]; intros r ans; cbn [scan_leaves]; [done|].
  by rewrite Hbeg, Hend, IH.
Qed.

Lemma scan_ext qbeg qend k : ∀ r ans,
  scan l1 r k qbeg qend ans = scan l2 r k qbeg qend ans.
Proof.
  induction k as [|ck IH]; intros r ans; cbn [scan];
    rewrite Hsize, ?scan_leaves_ext; [done|].
  rewrite Hime, Hbeg, Hend, IH.
  destruct (size l2 <=? r); [done|].
  destruct (S ck <=? 2)%nat; [done|].
  destruct (qbeg <? node_ime l2 r); [|done].
  destruct (scan l2 (left r (S ck)) ck qbeg qend ans) as [c ans1].
  by rewrite IH.
Qed.

End ScanExt.

Section MaxUnique.
Context {Node1 : Type} `{!IitNode Node1}.
Context {Node2 : Type} `{!IitNode Node2}.

Lemma is_max_end_unique (l1 : list Node1) (l2 : list Node2) a b v1 v2 :
  size l1 = size l2 → (∀ r, node_end l1 r = node_end l2 r) →
  is_max_end l1 a b v1 → is_max_end l2 a b v2 → v1 = v2.
Proof.
  intros Hsize Hend [Hub1 (m1 & ? & ? & Hv1)] [Hub2 (m2 & ? & ? & Hv2)].
  assert (v1 ≤ v2) by (rewrite <- Hv1, Hend; apply Hub2; lia).
  assert (v2 ≤ v1) by (rewrite <- Hv2, <- Hend; apply Hub1; lia).
  lia.
Qed.

(** two indexes over node arrays with the same intervals *)
Lemma wf_index_same_ime L (t1 : @iit_base Node1) (t2 : @iit_base Node2) :
  wf_index L t1 → wf_index L t2 →
  size (nodes t1) = size (nodes t2) →
  (∀ r, node_end (nodes t1) r = node_end (nodes t2) r) →
  ∀ r, node_ime (nodes t1) r = node_ime (nodes t2) r.
Proof.
  intros Hwf1 Hwf2 Hsize Hend.
  assert (∀ r, 0 ≤ r < size (nodes t1) →
            node_ime (nodes t1) r = node_ime (nodes t2) r) as Hreal.
  { intros r Hr.
    destruct Hwf1 as (_ & HL & _ & HN1 & _ & _ & Hok1).
    destruct Hwf2 as (_ & _ & _ & _ & _ & _ & Hok2).
    pose proof (real_node_in_tree L r _ ltac:(lia) Hr HN1) as Hin.
    eapply is_max_end_unique; [exact Hsize|exact Hend|..].
    - apply (Hok1 _ _ Hin). lia.
    - apply (Hok2 _ _ Hin). lia. }
  intros r. destruct (decide (Z.of_nat (Z.to_nat r) < size (nodes t1)))
    as [Hlt|Hge].
  - specialize (Hreal (Z.of_nat (Z.to_nat r)) ltac:(lia)).
    unfold node_ime in *. by rewrite Nat2Z.id in Hreal.
  - unfold node_ime, size in *.
    rewrite !(proj2 (lookup_ge_None _ _)) by lia. done.
Qed.

End MaxUnique.

(** X12. The sort function of the builder can be replaced: whenever it
    returns the nodes it was given in an order that ascends by [beg], the
    index is built and its queries are exact, for [iit] and for [iitii].
    The order among nodes of equal [beg] does not matter. *)
Theorem build_with_custom_sort
    (sort1 : list iit_node_base → list iit_node_base)
    (sort2 : list iitii_node → list iitii_node) items train qbeg qend :
  Z.of_nat (length items) < 2 ^ 62 →
  sort1 (map node_new items) ≡ₚ map node_new items →
  sorted_beg (sort1 (map node_new items)) →
  sort2 (map node_new items) ≡ₚ map node_new items →
  sorted_beg (sort2 (map node_new items)) →
  (∃ t, iit_build (add_range (builder_new sort1) items) = Some t
     ∧ node_items (nodes t) ≡ₚ items
     ∧ ∀ m, m ∈ (overlap t qbeg qend).2 ↔
         0 ≤ m < size (nodes t) ∧ node_beg (nodes t) m < qend
         ∧ qbeg < node_end (nodes t) m)
  ∧ (∃ t cost ans t',
       iitii_build train (add_range (builder_new sort2) items) = Some t
       ∧ node_items (nodes (super t)) ≡ₚ items
       ∧ iitii_overlap t qbeg qend = Some (cost, ans, t')
       ∧ ∀ m, m ∈ ans ↔
           0 ≤ m < size (nodes (super t))
           ∧ node_beg (nodes (super t)) m < qend
           ∧ qbeg < node_end (nodes (super t)) m).
Proof.
  intros Hlen Hp1 Hs1 Hp2 Hs2. split.
  - unfold iit_build.
    destruct (add_range_nodes items (builder_new sort1)) as [-> ->].
    cbn [builder_new nodes_ sort_ app].
    destruct (iit_base_new_wf (sort1 (map node_new items)))
      as (t & L & Hb & Hwf & Hupd); [|done| |].
    { apply fresh_of_Forall. rewrite Hp1. apply node_new_fresh. }
    { unfold size. by rewrite Hp1, length_map. }
    exists t. split; [done|]. split.
    + rewrite <- (same_item_node_items _ _ (ime_upd_same_item _ _ Hupd)).
      unfold node_items at 1. rewrite Hp1. apply reflexive_eq.
      apply node_items_new.
    + apply (overlap_wf L t Hwf).
  - unfold iitii_build.
    destruct (add_range_nodes items (builder_new sort2)) as [-> ->].
    cbn [builder_new nodes_ sort_ app].
    destruct (iitii_new_wf train (sort2 (map node_new items)))
      as (t & L & Hb & Hwf & Hit); [|done| | |].
    { apply fresh_of_Forall. rewrite Hp2. apply node_new_fresh. }
    { unfold size. by rewrite Hp2, length_map. }
    { intros r Hr. unfold node_ome.
      destruct (sort2 (map node_new items) !! Z.to_nat r) as [x|] eqn:Hx;
        [|apply lookup_ge_None in Hx; unfold size in Hr; lia].
      cbn. revert x Hx. apply Forall_lookup. rewrite Hp2.
      clear. induction items as [|it items IH]; cbn; by constructor. }
    destruct (iitii_overlap_spec L t Hwf qbeg qend)
      as (c & ans & t' & Hov & _ & _ & _ & Hans).
    exists t, c, ans, t'. split; [done|]. split; [|done].
    assert (Forall2 same_item (sort2 (map node_new items))
              (nodes (super t))) as Hsame.
    { eapply Forall2_impl; [exact Hit|]. intros x0 x Hx.
      unfold same_item. by symmetry. }
    rewrite <- (same_item_node_items _ _ Hsame).
    unfold node_items at 1. rewrite Hp2. apply reflexive_eq.
    apply node_items_new.
Qed.

(** X13. [iitii] is [iit] with one more member per node: built from the
    same items, the two indexes hold the same item and the same
    [inside_max_end] at every rank, and a top-down scan visits the same
    nodes in both, so it returns the same ranks at the same cost. *)
Theorem iitii_extends_iit items train :
  Z.of_nat (length items) < 2 ^ 62 →
  ∃ t ti, iit_build (builder_range items) = Some t
    ∧ iitii_build train (builder_range items) = Some ti
    ∧ node_items (nodes t) = node_items (nodes (super ti))
    ∧ (∀ r, node_ime (nodes t) r = node_ime (nodes (super ti)) r)
    ∧ (∀ r k qbeg qend ans,
         scan (nodes t) r k qbeg qend ans
         = scan (nodes (super ti)) r k qbeg qend ans)
    ∧ (∀ qbeg qend, overlap t qbeg qend = overlap (super ti) qbeg qend).
Proof.
  intros Hlen.
  destruct (iit_build_wf items Hlen) as (t & L & Hb & Hwf & Hit).
  destruct (iitii_build_wf train items Hlen) as (ti & Li & Hbi & Hwfi & Hiti).
  pose proof (built_same_items items train t L ti Li Hb Hwf Hit Hbi Hwfi Hiti)
    as Hsame.
  exists t, ti. split; [done|]. split; [done|]. split; [done|].
  assert (size (nodes t) = size (nodes (super ti))) as Hsize
    by (by rewrite <- !node_items_length, Hsame).
  assert (∀ r, node_beg (nodes t) r = node_beg (nodes (super ti)) r) as Hbeg
    by (intros r; by rewrite !node_beg_items, Hsame).
  assert (∀ r, node_end (nodes t) r = node_end (nodes (super ti)) r) as Hend
    by (intros r; by rewrite !node_end_items, Hsame).
  assert (Li = L ∧ root (super ti) = root t) as [-> Hroot].
  { unfold iit_build in Hb. unfold iitii_build in Hbi.
    rewrite builder_range_sort, builder_range_nodes in Hb.
    rewrite builder_range_sort, builder_range_nodes in Hbi.
    apply iit_base_new_geometry in Hb. apply iitii_new_geometry in Hbi.
    unfold size in Hb, Hbi. rewrite iit_sort_length, length_map in Hb.
    rewrite iit_sort_length, length_map in Hbi.
    rewrite Hb in Hbi. injection Hbi as Hrl Hfs.
    destruct Hwf as ((HrL & Hr & _) & _).
    destruct Hwfi as (((HrLi & Hri & _) & _) & _).
    assert (Li = L) as -> by congruence. split; [done|congruence]. }
  assert (∀ r, node_ime (nodes t) r = node_ime (nodes (super ti)) r) as Hime
    by (apply (wf_index_same_ime L); [done|apply Hwfi|done|done]).
  split; [done|]. split; [intros; by apply scan_ext|].
  intros qbeg qend. unfold overlap. rewrite Hroot.
  destruct Hwf as ((-> & _) & _). destruct Hwfi as (((-> & _) & _) & _).
  by apply scan_ext.
Qed.

Section Keys.
Context {Node : Type} `{!IitNode Node}.

Lemma sorted_intervals_unique (l l' : list Node) :
  l ≡ₚ l' →
  map interval_of (iit_sort l) = map interval_of (iit_sort l').
Proof.
  intros Hp.
  apply (StronglySorted_unique_strong
           (λ p q : Z * Z, p.1 < q.1 ∨ (p.1 = q.1 ∧ p.2 ≤ q.2))).
  - intros [a b] [c d] _ _; cbn. intros ? ?. f_equal; lia.
  - apply (StronglySorted_fmap _ (λ a b : Node, node_lt b a = false));
      [|apply iit_sort_lex_sorted].
    intros x y. unfold node_lt, interval_of. cbn.
    destruct (Z.eqb_spec (beg y) (beg x)); lia.
  - apply (StronglySorted_fmap _ (λ a b : Node, node_lt b a = false));
      [|apply iit_sort_lex_sorted].
    intros x y. unfold node_lt, interval_of. cbn.
    destruct (Z.eqb_spec (beg y) (beg x)); lia.
  - apply Permutation_map. by rewrite !iit_sort_perm.
Qed.

Lemma node_beg_interval (l : list Node) r :
  node_beg l r = from_option fst 0 (map interval_of l !! Z.to_nat r).
Proof.
  unfold node_beg. change (map interval_of l) with (interval_of <$> l).
  rewrite list_lookup_fmap. by destruct (l !! Z.to_nat r).
Qed.

Lemma node_end_interval (l : list Node) r :
  node_end l r = from_option snd 0 (map interval_of l !! Z.to_nat r).
Proof.
  unfold node_end. change (map interval_of l) with (interval_of <$> l).
  rewrite list_lookup_fmap. by destruct (l !! Z.to_nat r).
Qed.

End Keys.

(** X14. The index does not depend on the order in which the items were
    added: two sequences with the same items give indexes with the same
    geometry and the same [beg], [end] and [inside_max_end] at every rank,
    and every query returns the same ranks at the same cost in both. *)
Theorem build_ignores_insertion_order items items' :
  Z.of_nat (length items) < 2 ^ 62 → items ≡ₚ items' →
  ∃ t t', iit_build (builder_range items) = Some t
    ∧ iit_build (builder_range items') = Some t'
    ∧ root_level t = root_level t' ∧ root t = root t'
    ∧ full_size t = full_size t' ∧ size (nodes t) = size (nodes t')
    ∧ (∀ r, node_beg (nodes t) r = node_beg (nodes t') r
          ∧ node_end (nodes t) r = node_end (nodes t') r
          ∧ node_ime (nodes t) r = node_ime (nodes t') r)
    ∧ ∀ qbeg qend, overlap t qbeg qend = overlap t' qbeg qend.
Proof.
  intros Hlen Hp.
  assert (Z.of_nat (length items') < 2 ^ 62) as Hlen' by (by rewrite <- Hp).
  destruct (iit_build_wf items Hlen) as (t & L & Hb & Hwf & Hit).
  destruct (iit_build_wf items' Hlen') as (t' & L' & Hb' & Hwf' & Hit').
  exists t, t'. split; [done|]. split; [done|].
  pose proof (sorted_intervals_unique
                (map (@node_new iit_node_base _) items)
                (map (@node_new iit_node_base _) items')
                (Permutation_map _ Hp)) as Hkeys.
  assert (size (nodes t) = size (nodes t')) as Hsize.
  { rewrite <- (same_item_size _ _ Hit), <- (same_item_size _ _ Hit').
    unfold size. by rewrite !iit_sort_length, !length_map, Hp. }
  assert (∀ r, node_beg (nodes t) r = node_beg (nodes t') r) as Hbeg.
  { intros r. rewrite <- (same_item_beg _ _ r Hit).
    rewrite <- (same_item_beg _ _ r Hit').
    by rewrite !node_beg_interval, Hkeys. }
  assert (∀ r, node_end (nodes t) r = node_end (nodes t') r) as Hend.
  { intros r. rewrite <- (same_item_end _ _ r Hit).
    rewrite <- (same_item_end _ _ r Hit').
    by rewrite !node_end_interval, Hkeys. }
  assert (L' = L ∧ full_size t = full_size t') as [-> Hfs].
  { unfold iit_build in Hb, Hb'.
    rewrite builder_range_sort, builder_range_nodes in Hb.
    rewrite builder_range_sort, builder_range_nodes in Hb'.
    apply iit_base_new_geometry in Hb, Hb'.
    unfold size in Hb, Hb'.
    rewrite iit_sort_length, length_map in Hb.
    rewrite iit_sort_length, length_map, <- Hp in Hb'.
    rewrite Hb in Hb'. injection Hb' as Hrl Hfs.
    destruct Hwf as ((HrL & _) & _). destruct Hwf' as ((HrL' & _) & _).
    split; congruence. }
  assert (∀ r, node_ime (nodes t) r = node_ime (nodes t') r) as Hime
    by (by apply (wf_index_same_ime L)).
  destruct Hwf as ((HrL & Hroot & _) & _).
  destruct Hwf' as ((HrL' & Hroot' & _) & _).
  split; [congruence|]. split; [congruence|]. split; [done|].
  split; [done|]. split; [done|].
  intros qbeg qend. unfold overlap. rewrite HrL, HrL', Hroot, Hroot'.
  by apply scan_ext.
Qed.

(** ** Prediction and climb *)

(** X15. On a node array that is not empty [interpolate] returns the rank
    of a real node, whatever level and level-rank the model computed: where
    that rank is imaginary it falls back to the last real leaf, which is
    rank [N - 1] or [N - 2]. *)
Theorem interpolate_returns_real_node (nodes : list iitii_node) (k : Level)
    (ofs : LevelRank) :
  0 < size nodes < 2 ^ 63 →
  0 ≤ interpolate nodes k ofs < size nodes
  ∧ (size nodes ≤ rank_of_levelrank k ofs →
       interpolate nodes k ofs = size nodes - (2 - size nodes mod 2)
       ∧ level (interpolate nodes k ofs) = 0%nat
       ∧ size nodes - 2 ≤ interpolate nodes k ofs).
Proof.
  intros Hsz. unfold interpolate.
  pose proof (wrap_range (wrap (shl 1 k * wrap (wrap (2 * ofs) + 1)) - 1))
    as Hr.
  fold (rank_of_levelrank k ofs) in Hr.
  destruct (rightmost_real_leaf_spec (size nodes) Hsz) as (i & Hi & Heq & Hb).
  unfold rightmost_real_leaf in Heq.
  assert (wrap (size nodes - wrap (2 - size nodes mod 2))
          = size nodes - (2 - size nodes mod 2)) as Hval.
  { pose proof (Z.mod_pos_bound (size nodes) 2 ltac:(lia)).
    pose proof (Z.div_mod (size nodes) 2 ltac:(lia)).
    rewrite (wrap_small (2 - _)) by lia. apply wrap_small. lia. }
  destruct (Z.ltb_spec (rank_of_levelrank k ofs) (size nodes)).
  - split; [lia|]. intros ?. lia.
  - split; [lia|]. intros _. split; [done|]. split; [|lia].
    rewrite Heq. apply at_level_level; [|lia].
    exists i. rewrite pow2_0. split; [done|lia].
Qed.

Section Ancestors.

Variable L : nat.
Hypothesis HL : (L ≤ 62)%nat.

(** the subtrees of two nodes that share a rank are nested *)
Lemma span_nested j k a b m :
  in_tree L j a → in_tree L k b → (j ≤ k)%nat →
  lo j a ≤ m ≤ hi j a → lo k b ≤ m ≤ hi k b →
  lo k b ≤ lo j a ∧ hi j a ≤ hi k b.
Proof.
  intros [(i & Hi & ->) _] [(i' & Hi' & ->) _] Hjk. unfold lo, hi.
  assert (pow2 k = pow2 (k - j) * pow2 j) as ->.
  { unfold pow2. rewrite <- Z.pow_add_r by lia. f_equal. lia. }
  pose proof (pow2_pos j). pose proof (pow2_pos (k - j)).
  set (P := pow2 j) in *. set (d := pow2 (k - j)) in *.
  intros Hm1 Hm2.
  assert (i < (i' + 1) * d) by nia.
  assert (i' * d < i + 1) by nia.
  nia.
Qed.

(** a node is not under a node of a lower level *)
Lemma span_level j k a b :
  in_tree L j a → in_tree L k b → lo k b ≤ a ≤ hi k b → (j ≤ k)%nat.
Proof.
  intros [(i & Hi & ->) _] [(i' & Hi' & ->) _]. unfold lo, hi. intros Hm.
  destruct (decide (j ≤ k)%nat) as [|Hn]; [done|exfalso].
  assert (pow2 j = pow2 (j - k - 1) * (2 * pow2 k)) as Hj.
  { rewrite <- pow2_S. unfold pow2. rewrite <- Z.pow_add_r by lia.
    f_equal. lia. }
  pose proof (pow2_pos k). pose proof (pow2_pos (j - k - 1)).
  rewrite Hj in Hm.
  set (Q := 2 * pow2 k) in *. set (c := (2 * i + 1) * pow2 (j - k - 1)).
  assert ((2 * i + 1) * (pow2 (j - k - 1) * Q) = c * Q) as Hc
    by (subst c; lia).
  rewrite Hc in Hm.
  assert (i' * Q < c * Q) by lia. assert (c * Q < (i' + 1) * Q) by lia.
  assert (i' < c) by nia. assert (c < i' + 1) by nia. lia.
Qed.

End Ancestors.

Section ClimbFirst.

Variable L : nat.
Variable t : iitii.
Hypothesis Hwf : wf_iitii L t.

Lemma climb_first qbeg qend fuel : ∀ r0 k0,
  in_tree L k0 r0 → (L - k0 ≤ fuel)%nat →
  ∃ r k, climb fuel (super t) qbeg qend r0 k0 = Some (r, k)
    ∧ in_tree L k r ∧ (k0 ≤ k ≤ L)%nat
    ∧ lo k r ≤ r0 ≤ hi k r
    ∧ (r = pow2 L - 1 ∨ climb_stops (nodes (super t)) qbeg qend r k)
    ∧ ∀ k' r', in_tree L k' r' → lo k' r' ≤ r0 ≤ hi k' r' →
        (k0 ≤ k' < k)%nat →
        r' ≠ pow2 L - 1
        ∧ ¬ climb_stops (nodes (super t)) qbeg qend r' k'.
Proof.
  destruct Hwf as (Hwfi & _).
  pose proof Hwfi as ((HrL & Hroot & Hfs) & HL & Hsz1 & HN & Hz & Hs & Hok).
  assert (HL' : (L ≤ 62)%nat) by lia.
  induction fuel as [|f IH]; intros r0 k0 Hin Hf;
    destruct (in_tree_bounds L HL' _ _ Hin) as (HkL & Hlo0 & Hhi0 & _ & Hp0).
  - assert (k0 = L) as -> by lia.
    rewrite (in_tree_top L HL' r0 Hin).
    cbn [climb]. rewrite Hroot, Z.eqb_refl. cbn.
    eexists _, _. split; [done|].
    split; [by rewrite <- (in_tree_top L HL' r0 Hin)|].
    split; [lia|]. split; [unfold lo, hi; lia|]. split; [by left|].
    intros; lia.
  - assert (∀ r k, r = r0 → k = k0 →
              (r = pow2 L - 1 ∨ climb_stops (nodes (super t)) qbeg qend r k) →
              in_tree L k r ∧ (k0 ≤ k ≤ L)%nat ∧ lo k r ≤ r0 ≤ hi k r
              ∧ (r = pow2 L - 1
                 ∨ climb_stops (nodes (super t)) qbeg qend r k)
              ∧ ∀ k' r', in_tree L k' r' → lo k' r' ≤ r0 ≤ hi k' r' →
                  (k0 ≤ k' < k)%nat →
                  r' ≠ pow2 L - 1
                  ∧ ¬ climb_stops (nodes (super t)) qbeg qend r' k') as Hhere.
    { intros r k -> -> Hst. split; [done|]. split; [lia|].
      split; [unfold lo, hi; lia|]. split; [done|]. intros; lia. }
    cbn [climb]. rewrite Hroot.
    destruct (Z.eqb_spec r0 (pow2 L - 1)) as [Heq|Hne]; cbn [negb].
    { eexists _, _. split; [done|]. apply Hhere; [done|done|by left]. }
    assert (k0 < L)%nat.
    { destruct (decide (k0 = L)) as [->|]; [|lia].
      by destruct Hne; apply (in_tree_top L HL'). }
    destruct (parent_cases L HL' k0 r0 Hin ltac:(lia))
      as (p & Hp & Hinp & Hpc).
    assert (lo (S k0) p ≤ r0 ≤ hi (S k0) p) as Hr0p.
    { unfold lo, hi. rewrite pow2_S. lia. }
    assert (¬ climb_stops (nodes (super t)) qbeg qend r0 k0 →
            ∃ r k, climb f (super t) qbeg qend p (S k0) = Some (r, k)
              ∧ in_tree L k r ∧ (k0 ≤ k ≤ L)%nat ∧ lo k r ≤ r0 ≤ hi k r
              ∧ (r = pow2 L - 1
                 ∨ climb_stops (nodes (super t)) qbeg qend r k)
              ∧ ∀ k' r', in_tree L k' r' → lo k' r' ≤ r0 ≤ hi k' r' →
                  (k0 ≤ k' < k)%nat →
                  r' ≠ pow2 L - 1
                  ∧ ¬ climb_stops (nodes (super t)) qbeg qend r' k') as Hup.
    { intros Hcont.
      destruct (IH p (S k0) Hinp ltac:(lia))
        as (r & k & Hc & Hinr & Hk & Hspan & Hst & Hmin).
      exists r, k. split; [done|]. split; [done|]. split; [lia|].
      destruct (span_nested L HL' (S k0) k p r p Hinp Hinr ltac:(lia))
        as [? ?]; [unfold lo, hi; pose proof (pow2_pos (S k0)); lia|done|].
      split; [lia|]. split; [done|].
      intros k' r' Hin' Hspan' Hk'.
      destruct (decide (k' = k0)) as [->|].
      - assert (r' = r0) as ->.
        { apply (in_tree_unique L HL' k0 r' r0 r0); [done|done|done|].
          unfold lo, hi. lia. }
        done.
      - apply Hmin; [done| |lia].
        destruct (span_nested L HL' (S k0) k' p r' r0 Hinp Hin' ltac:(lia))
          as [? ?]; [done|done|].
        unfold lo, hi in *. pose proof (pow2_pos (S k0)). lia. }
    destruct (Z.leb_spec (size (nodes (super t))) r0) as [Himag|Hreal].
    { rewrite Hp. apply Hup. unfold climb_stops. lia. }
    destruct (Z.ltb_spec qbeg (node_ome (nodes (super t)) r0)) as [Hl|Hl].
    { rewrite Hp. apply Hup. unfold climb_stops. lia. }
    destruct (Z.ltb_spec (outside_min_beg (nodes (super t)) r0 k0) qend)
      as [Hr|Hr].
    { rewrite Hp. apply Hup. unfold climb_stops. lia. }
    exists r0, k0. split; [done|]. apply Hhere; [done|done|].
    right. unfold climb_stops. lia.
Qed.

End ClimbFirst.

(** X16. The climb ends at the lowest node on the way from the predicted
    node to the root that is real and meets both stopping conditions, or at
    the root when no node on the way does: the node it ends at has the
    predicted node in its subtree, and every node of the way below it is
    imaginary or fails a condition. *)
Theorem climb_stops_at_first_safe_ancestor items train qbeg qend :
  Z.of_nat (length items) < 2 ^ 62 →
  ∃ t, iitii_build train (builder_range items) = Some t
    ∧ (predict t qbeg ≠ nrank →
       ∃ r k,
         climb 64 (super t) qbeg qend (predict t qbeg)
           (level (predict t qbeg)) = Some (r, k)
         ∧ level r = k
         ∧ in_subtree r k (predict t qbeg)
         ∧ (r = root (super t)
            ∨ climb_stops (nodes (super t)) qbeg qend r k)
         ∧ ∀ r', 0 ≤ r' < full_size (super t) →
             in_subtree r' (level r') (predict t qbeg) →
             (level r' < k)%nat →
             r' ≠ root (super t)
             ∧ ¬ climb_stops (nodes (super t)) qbeg qend r' (level r')).
Proof.
  intros Hlen.
  destruct (iitii_build_wf train items Hlen) as (t & L & Hb & Hwf & _).
  exists t. split; [done|]. intros Hp.
  pose proof Hwf as (Hwfi & _).
  pose proof Hwfi as ((HrL & Hroot & Hfs) & HL & Hsz & HN & Hz & Hs & _).
  assert (HL' : (L ≤ 62)%nat) by lia.
  destruct (predict_real L t Hwf qbeg) as [|Hreal]; [done|].
  pose proof (real_node_in_tree L _ _ HL' Hreal HN) as Hin.
  destruct (climb_first L t Hwf qbeg qend 64 (predict t qbeg)
              (level (predict t qbeg)) Hin ltac:(lia))
    as (r & k & Hc & Hinr & Hk & Hspan & Hst & Hmin).
  exists r, k. split; [done|].
  split; [by apply (in_tree_level L HL')|].
  split; [by apply (in_subtree_span L k HL' r _ Hinr)|].
  split; [by rewrite Hroot|].
  intros r' Hr' Hsub Hlt. rewrite Hroot.
  rewrite Hfs in Hr'. case_decide; [lia|].
  pose proof (real_node_in_tree L r' _ HL' Hr' ltac:(lia)) as Hin'.
  apply (in_subtree_span L _ HL' r' _ Hin') in Hsub.
  apply Hmin; [done|done|]. split; [|done].
  by apply (span_level L HL' _ _ (predict t qbeg) r').
Qed.

(** ** Scans of a subtree *)

Section SubtreeScan.
Context {Node : Type} `{!IitNode Node}.

Variable L : nat.
Variable t : @iit_base Node.
Hypothesis Hwf : wf_index L t.

Lemma scan_exact k r qbeg qend ans :
  in_tree L k r →
  (scan (nodes t) r k qbeg qend ans).2
  = ans ++ filter (λ m, lo k r ≤ m ≤ hi k r
                        ∧ node_beg (nodes t) m < qend
                        ∧ qbeg < node_end (nodes t) m)
             (seqZ 0 (size (nodes t))).
Proof.
  intros Hin.
  destruct (scan_wf L t Hwf k r qbeg qend ans Hin)
    as (c & new & Hscan & _ & Hnew).
  destruct Hwf as (_ & HL & Hsz & _).
  destruct (scan_order L (nodes t) qbeg qend k ltac:(lia) ltac:(lia) r ans
              Hin) as (c' & new' & Hscan' & Hs & _).
  rewrite Hscan in Hscan'. injection Hscan' as _ Heq.
  apply app_inv_head in Heq as <-. rewrite Hscan. cbn. f_equal.
  apply sorted_lt_filter_seqZ; [done|].
  intros m. rewrite Hnew. unfold overlaps, size. tauto.
Qed.

Lemma scan_exact_leaves r qbeg qend ans :
  0 ≤ r < full_size t →
  (scan (nodes t) r (level r) qbeg qend ans).2
  = ans ++ filter (λ m, leftmost_leaf2 r ≤ m ≤ rightmost_leaf2 r
                        ∧ node_beg (nodes t) m < qend
                        ∧ qbeg < node_end (nodes t) m)
             (seqZ 0 (size (nodes t))).
Proof.
  intros Hr. pose proof Hwf as ((_ & _ & Hfs) & HL & _).
  rewrite Hfs in Hr. case_decide; [lia|].
  pose proof (real_node_in_tree L r _ ltac:(lia) Hr ltac:(lia)) as Hin.
  unfold leftmost_leaf2, rightmost_leaf2.
  rewrite (leftmost_leaf_eq L ltac:(lia)), (rightmost_leaf_eq L ltac:(lia))
    by done.
  by apply scan_exact.
Qed.

End SubtreeScan.

(** X17. [scan] keeps what the answer vector held and appends to it the
    nodes of the subtree that overlap the query, in increasing order of
    rank; this holds from every rank of the full tree, real or imaginary,
    in both indexes. *)
Theorem scan_appends_subtree_overlaps items train qbeg qend r ans :
  Z.of_nat (length items) < 2 ^ 62 →
  ∃ t ti, iit_build (builder_range items) = Some t
    ∧ iitii_build train (builder_range items) = Some ti
    ∧ (0 ≤ r < full_size t →
       (scan (nodes t) r (level r) qbeg qend ans).2
       = ans ++ filter (λ m, leftmost_leaf2 r ≤ m ≤ rightmost_leaf2 r
                             ∧ node_beg (nodes t) m < qend
                             ∧ qbeg < node_end (nodes t) m)
                  (seqZ 0 (size (nodes t))))
    ∧ (0 ≤ r < full_size (super ti) →
       (scan (nodes (super ti)) r (level r) qbeg qend ans).2
       = ans ++ filter (λ m, leftmost_leaf2 r ≤ m ≤ rightmost_leaf2 r
                             ∧ node_beg (nodes (super ti)) m < qend
                             ∧ qbeg < node_end (nodes (super ti)) m)
                  (seqZ 0 (size (nodes (super ti))))).
Proof.
  intros Hlen.
  destruct (iit_build_wf items Hlen) as (t & L & Hb & Hwf & _).
  destruct (iitii_build_wf train items Hlen) as (ti & Li & Hbi & Hwfi & _).
  exists t, ti. split; [done|]. split; [done|].
  split; intros Hr; [by apply (scan_exact_leaves L)|].
  apply (scan_exact_leaves Li); [apply Hwfi|done].
Qed.

(** X18. A query that begins at or after the end of every item is answered
    at the root: in an index of eight items or more the scan visits one
    node and returns nothing. *)
Theorem query_past_every_end items qbeg qend :
  (8 ≤ length items)%nat → Z.of_nat (length items) < 2 ^ 62 →
  Forall (λ it, get_end it ≤ qbeg) items →
  ∃ t, iit_build (builder_range items) = Some t
    ∧ (3 ≤ root_level t)%nat ∧ root t < size (nodes t)
    ∧ overlap t qbeg qend = (1, []).
Proof.
  intros H8 Hlen Hall.
  destruct (iit_build_wf items Hlen) as (t & L & Hb & Hwf & Hit).
  exists t. split; [done|].
  pose proof Hwf as ((HrL & Hroot & Hfs) & HL & Hsz & HN & Hz & Hs & Hok).
  pose proof (same_item_size _ _ Hit) as Hsize. unfold size in Hsize.
  rewrite iit_sort_length, length_map in Hsize.
  assert (3 ≤ L)%nat as HL3.
  { destruct (decide (3 ≤ L)%nat); [done|exfalso].
    pose proof (pow2_le (S L) 3 ltac:(lia)) as Hle.
    change (pow2 3) with 8 in Hle. unfold size in HN. lia. }
  assert (root t < size (nodes t)) as Hreal.
  { unfold iit_build in Hb.
    rewrite builder_range_sort, builder_range_nodes in Hb.
    apply iit_base_new_geometry in Hb. unfold size in Hb.
    rewrite iit_sort_length, length_map in Hb.
    destruct (geometry_of_size (Z.of_nat (length items)) _ _ (root t)
                ltac:(lia) Hb) as (_ & _ & _ & H2); [by rewrite HrL|].
    unfold size. rewrite <- Hsize. apply H2. lia. }
  split; [lia|]. split; [done|].
  assert (node_ime (nodes t) (root t) ≤ qbeg) as Hime.
  { destruct (Hok L (root t)) as [_ (m & _ & Hm & <-)];
      [rewrite Hroot; apply in_tree_root; lia|done|].
    rewrite node_end_items.
    destruct (node_items (nodes t) !! Z.to_nat m) as [it|] eqn:Hlk.
    - cbn. rewrite Forall_forall in Hall. apply Hall.
      rewrite <- (node_items_sorted items (nodes t) Hit).
      by eapply list_elem_of_lookup_2.
    - apply lookup_ge_None in Hlk.
      pose proof (node_items_length (nodes t)). lia. }
  unfold overlap. rewrite HrL.
  destruct L as [|[|[|L']]]; try lia. cbn [scan].
  destruct (Z.leb_spec (size (nodes t)) (root t)); [lia|].
  cbn [Nat.leb]. destruct (Z.ltb_spec qbeg (node_ime (nodes t) (root t)));
    [lia|done].
Qed.

(** ** Counters of [iitii::overlap] *)

(** X19. A query does not change the nodes, the geometry or the model of an
    [iitii], whatever its two counters hold. Without a prediction it is the
    query of the base index and is not counted. With a prediction it adds
    one to [queries] and the number of climb steps to [total_climb_cost],
    and its cost is the cost of the scan from the node where the climb
    ended plus three times the number of climb steps. *)
Theorem iitii_overlap_accounting items train qbeg qend (q0 c0 : Z) :
  Z.of_nat (length items) < 2 ^ 62 →
  ∃ t cost ans t',
    iitii_build train (builder_range items) = Some t
    ∧ iitii_overlap
        {| super := super t; model := model t; queries := q0;
           total_climb_cost := c0 |} qbeg qend = Some (cost, ans, t')
    ∧ super t' = super t ∧ model t' = model t
    ∧ (predict t qbeg = nrank →
         (cost, ans) = overlap (super t) qbeg qend
         ∧ queries t' = q0 ∧ total_climb_cost t' = c0)
    ∧ (predict t qbeg ≠ nrank →
         ∃ r k,
           climb 64 (super t) qbeg qend (predict t qbeg)
             (level (predict t qbeg)) = Some (r, k)
           ∧ (level (predict t qbeg) ≤ k ≤ root_level (super t))%nat
           ∧ cost = (scan (nodes (super t)) r k qbeg qend []).1
                    + 3 * (Z.of_nat k - Z.of_nat (level (predict t qbeg)))
           ∧ ans = (scan (nodes (super t)) r k qbeg qend []).2
           ∧ queries t' = wrap (q0 + 1)
           ∧ total_climb_cost t'
             = wrap (c0 + (Z.of_nat k - Z.of_nat (level (predict t qbeg))))).
Proof.
  intros Hlen.
  destruct (iitii_build_wf train items Hlen) as (t & L & Hb & Hwf & _).
  exists t.
  pose proof Hwf as (Hwfi & _).
  pose proof Hwfi as ((HrL & Hroot & Hfs) & HL & Hsz1 & HN & _).
  unfold iitii_overlap.
  change (predict {| super := super t; model := model t; queries := q0;
                     total_climb_cost := c0 |} qbeg) with (predict t qbeg).
  cbn [super model queries total_climb_cost].
  destruct (predict_real L t Hwf qbeg) as [Hp|Hp].
  - rewrite Hp, Z.eqb_refl.
    destruct (overlap (super t) qbeg qend) as [c ans] eqn:Hov.
    eexists c, ans, _. split; [done|]. split; [reflexivity|].
    cbn [super model queries total_climb_cost].
    split; [reflexivity|]. split; [reflexivity|].
    split; [intros _; by repeat split|]. intros Hne. by destruct Hne.
  - destruct (Z.eqb_spec (predict t qbeg) nrank) as [Hn|Hn];
      [unfold nrank in Hn; lia|].
    pose proof (real_node_in_tree L (predict t qbeg) _ ltac:(lia) Hp HN)
      as Hin.
    destruct (climb_spec L t Hwf qbeg qend 64 (predict t qbeg)
                (level (predict t qbeg)) Hin ltac:(lia))
      as (r & k & Hc & Hinr & Hk & _).
    rewrite Hc. cbn [mbind option_bind].
    destruct (scan_order L (nodes (super t)) qbeg qend k ltac:(lia)
                ltac:(lia) r [] Hinr) as (c & new & Hscan & _ & _ & Hcost).
    rewrite Hscan. cbn [app]. eexists _, new, _. split; [done|].
    split; [reflexivity|]. cbn [super model queries total_climb_cost].
    split; [reflexivity|]. split; [reflexivity|].
    split; [intros ?; by destruct Hn|]. intros _.
    exists r, k. split; [done|]. split; [lia|].
    pose proof (pow2_le (S k) (S L) ltac:(lia)).
    pose proof (pow2_bound (S L) ltac:(lia)).
    rewrite (wrap_small (Z.of_nat k - _)) by lia.
    rewrite (wrap_small (3 * _)) by lia. cbn [fst snd].
    rewrite (wrap_small (c + _)) by lia. by rewrite Hscan.
Qed.

(** ** Loops of the constructors *)

Lemma right_border_length L b0 fuel : (L ≤ 62)%nat → ∀ j border back,
  on_border L b0 j back → length border = S j → (L ≤ j + fuel)%nat →
  ∀ border', right_border fuel (pow2 L - 1) border back = Some border' →
  length border' = S L.
Proof.
  intros HL. induction fuel as [|f IH]; intros j border back Hb Hlen Hf border'.
  - destruct (in_tree_bounds L HL _ _ (proj1 Hb)) as (HjL & _).
    assert (j = L) by lia. subst j.
    rewrite (in_tree_top L HL back) by apply Hb.
    cbn [right_border]. rewrite Z.eqb_refl. by intros [= <-].
  - cbn [right_border]. destruct (Z.eqb_spec back (pow2 L - 1)) as [Heq|Hne].
    + intros [= <-]. by rewrite (on_border_root L HL b0 j back Hb Heq) in Hlen.
    + destruct (in_tree_bounds L HL _ _ (proj1 Hb)) as (HjL & _).
      assert (j < L)%nat.
      { destruct (decide (j = L)) as [->|]; [|lia].
        by destruct Hne; apply (in_tree_top L HL), Hb. }
      apply (IH (S j)); [by apply on_border_parent| |lia].
      rewrite length_app. cbn. lia.
Qed.

(** X20. The path that the constructor memoizes from the last real leaf
    has one node for each level up to the root level: the entry of index
    [k] is the level-[k] node above that leaf, the last entry is the root.
    So the bottom-up pass reads [right_border_nodes[k]] in range. *)
Theorem right_border_is_path_to_root (n : Z) :
  0 < n < 2 ^ 62 →
  ∃ L fs border,
    tree_geometry 64 n 0 0 = Some (L, fs)
    ∧ right_border 64 (wrap (shl 1 L - 1)) [rightmost_real_leaf n]
        (rightmost_real_leaf n) = Some border
    ∧ length border = S L
    ∧ border !! 0%nat = Some (rightmost_real_leaf n)
    ∧ border !! L = Some (wrap (shl 1 L - 1))
    ∧ ∀ k b, border !! k = Some b →
        level b = k ∧ 0 ≤ b < fs ∧ in_subtree b k (rightmost_real_leaf n).
Proof.
  intros Hn.
  destruct (tree_geometry_spec n ltac:(lia))
    as (L & Hg & HL & Hfull & _ & _ & _).
  rewrite decide_False in Hg by lia.
  exists L, (pow2 (S L) - 1). assert (HL' : (L ≤ 62)%nat) by lia.
  pose proof (pow2_bound (S L) ltac:(lia)) as Hpb. rewrite pow2_S in Hpb.
  pose proof (pow2_pos L).
  rewrite shl_1, wrap_small by lia.
  set (b0 := rightmost_real_leaf n).
  pose proof (on_border_leaf L HL' b0 n ltac:(lia) eq_refl) as Hb0.
  destruct (right_border_spec L HL' b0 64 0 [b0] b0 Hb0 eq_refl)
    as (border & Hrb & Hborder); [|lia|].
  { intros i Hi. assert (i = 0%nat) as -> by lia. by exists b0. }
  exists border. split; [done|]. split; [done|].
  pose proof (right_border_length L b0 64 HL' 0 [b0] b0 Hb0 eq_refl
                ltac:(lia) border Hrb) as Hlen.
  split; [done|]. split.
  { destruct (Hborder 0%nat ltac:(lia)) as (b & Hlk & Hon).
    by rewrite Hlk, (on_border_unique L HL' b0 0 b b0 Hon Hb0). }
  split.
  { destruct (Hborder L ltac:(lia)) as (b & Hlk & [Hin _]).
    by rewrite Hlk, (in_tree_top L HL' b Hin). }
  intros k b Hlk.
  assert (k ≤ L)%nat as Hk by (apply lookup_lt_Some in Hlk; lia).
  destruct (Hborder k Hk) as (b' & Hlk' & [Hin Hspan]).
  rewrite Hlk in Hlk'. injection Hlk' as <-.
  destruct (in_tree_bounds L HL' _ _ Hin) as (_ & ? & ? & _ & ?).
  split; [by apply (in_tree_level L HL')|]. split; [lia|].
  by apply (in_subtree_span L k HL' b b0 Hin).
Qed.

Lemma running_max_loop_length (nodes : list iitii_node) cnt : ∀ n rme,
  length (running_max_loop nodes cnt n rme) = (length rme + cnt)%nat.
Proof.
  induction cnt as [|c IH]; intros n rme; cbn [running_max_loop]; [lia|].
  rewrite IH, length_app. cbn. lia.
Qed.

(** X21. The running maximum that the [iitii] constructor builds has one
    entry per node; the entry of index [i] is the largest [end] among the
    nodes ranked [0..i]. *)
Theorem running_max_end_is_prefix_max (nodes : list iitii_node) (i : Rank) :
  0 < size nodes < 2 ^ 62 → 0 ≤ i < size nodes →
  length (running_max_loop nodes (length nodes - 1) 1 [node_end nodes 0])
  = length nodes
  ∧ (∀ m, 0 ≤ m ≤ i →
       node_end nodes m
       ≤ vec_at (running_max_loop nodes (length nodes - 1) 1
                   [node_end nodes 0]) i)
  ∧ ∃ m, 0 ≤ m ≤ i
      ∧ vec_at (running_max_loop nodes (length nodes - 1) 1
                  [node_end nodes 0]) i = node_end nodes m.
Proof.
  intros Hsz Hi. unfold size in *.
  split; [rewrite running_max_loop_length; cbn; lia|].
  destruct (running_max_loop_spec nodes (length nodes - 1) 1
              [node_end nodes 0]) with (i := i) as [Hub (m & Hm & Hreal & Hv)];
    [lia|unfold size; lia|unfold size; lia|done| |done|].
  { intros j Hj. assert (j = 0) as -> by lia.
    change (vec_at [node_end nodes 0] 0) with (node_end nodes 0).
    apply is_max_end_single. unfold size. lia. }
  split; [intros m' Hm'; apply Hub; unfold size; lia|].
  exists m. split; [lia|done].
Qed.

(** ** Domains *)

Lemma to_pos_small z : Pos_min ≤ z ≤ Pos_max → to_pos z = z.
Proof. intros Hz. unfold to_pos. rewrite Z.mod_small by lia. lia. Qed.

(** X22. The domain that [which_domain] returns is below [domains],
    whatever the arithmetic of [Pos] gives, so the row it selects lies
    inside the parameter table. Where the differences do not overflow
    [Pos], that is for [max_beg - min_beg < Pos_max] and
    [beg' - min_beg <= Pos_max], with [Pos] not wider than [size_t], the
    domain size that the constructor derives is
    [1 + (max_beg - min_beg) / domains], at least 1, and [which_domain]
    returns 0 before [min_beg], [(beg - min_beg) / domain_size] without
    clamping from [min_beg] to [max_beg], and does not decrease as the
    position grows. *)
Theorem which_domain_in_range (domains_ : Z)
    (min_beg max_beg beg beg' : Pos) :
  0 ≤ domains_ < 2 ^ 64 →
  Pos_min ≤ 0 → Pos_max < 2 ^ 64 →
  min_beg ≤ max_beg → max_beg - min_beg < Pos_max →
  beg ≤ beg' → beg' - min_beg ≤ Pos_max →
  iitii_domain_size domains_ min_beg max_beg
  = 1 + (max_beg - min_beg) / iitii_domains domains_
  ∧ 1 ≤ iitii_domain_size domains_ min_beg max_beg
  ∧ (∃ w w',
       which_domain (iitii_domains domains_) min_beg
         (iitii_domain_size domains_ min_beg max_beg) beg = Some w
       ∧ which_domain (iitii_domains domains_) min_beg
           (iitii_domain_size domains_ min_beg max_beg) beg' = Some w'
       ∧ 0 ≤ w ∧ w ≤ w' ∧ w' < iitii_domains domains_
       ∧ (beg < min_beg → w = 0)
       ∧ (min_beg ≤ beg ≤ max_beg →
            w = (beg - min_beg)
                / iitii_domain_size domains_ min_beg max_beg))
  ∧ ∀ domain_size b v,
      which_domain (iitii_domains domains_) min_beg domain_size b = Some v →
      0 ≤ v < iitii_domains domains_.
Proof.
  intros Hd Hmin Hmax Hmm Hfit Hbb Hfit'. unfold iitii_domains.
  set (d := Z.max 1 domains_). assert (1 ≤ d < 2 ^ 64) as Hdr by lia.
  assert (0 ≤ (max_beg - min_beg) / d) by (apply Z.div_pos; lia).
  assert ((max_beg - min_beg) / d ≤ max_beg - min_beg)
    by (apply Z.div_le_upper_bound; nia).
  assert (iitii_domain_size domains_ min_beg max_beg
          = 1 + (max_beg - min_beg) / d) as Hds.
  { unfold iitii_domain_size, iitii_domains. fold d.
    rewrite (to_pos_small (max_beg - min_beg)) by lia.
    rewrite (wrap_small (max_beg - min_beg)) by lia.
    rewrite wrap_small by lia. apply to_pos_small. lia. }
  rewrite Hds. set (ds := 1 + (max_beg - min_beg) / d).
  assert (1 ≤ ds) as Hds1 by (subst ds; lia).
  assert (∀ b, min_beg ≤ b → b - min_beg ≤ Pos_max →
            which_domain d min_beg ds b
            = Some (Z.min (d - 1) ((b - min_beg) / ds))) as Hwd.
  { intros b Hb Hf. unfold which_domain.
    destruct (Z.ltb_spec b min_beg); [lia|].
    rewrite to_pos_small by lia.
    destruct (Z.eqb_spec ds 0); [lia|].
    destruct (Z.eqb_spec ds (-1)); [lia|].
    destruct (b - min_beg =? Pos_min); cbn [orb andb].
    all: rewrite Z.quot_div_nonneg by lia.
    all: assert (0 ≤ (b - min_beg) / ds) by (apply Z.div_pos; lia).
    all: assert ((b - min_beg) / ds ≤ b - min_beg)
           by (apply Z.div_le_upper_bound; nia).
    all: by rewrite !wrap_small by lia. }
  assert (∀ b, b < min_beg → which_domain d min_beg ds b = Some 0) as Hlow.
  { intros b Hb. unfold which_domain.
    by destruct (Z.ltb_spec b min_beg); [|lia]. }
  assert (∀ b, min_beg ≤ b → 0 ≤ (b - min_beg) / ds) as Hq
    by (intros; apply Z.div_pos; lia).
  split; [done|]. split; [done|]. split.
  - destruct (decide (beg < min_beg)) as [Hb|Hb].
    + destruct (decide (beg' < min_beg)) as [Hb'|Hb'].
      * exists 0, 0. rewrite !Hlow by done. repeat split; try done; lia.
      * exists 0, (Z.min (d - 1) ((beg' - min_beg) / ds)).
        rewrite Hlow, Hwd by lia. specialize (Hq beg' ltac:(lia)).
        repeat split; try done; lia.
    + exists (Z.min (d - 1) ((beg - min_beg) / ds)),
        (Z.min (d - 1) ((beg' - min_beg) / ds)).
      rewrite !Hwd by lia. pose proof (Hq beg ltac:(lia)).
      assert ((beg - min_beg) / ds ≤ (beg' - min_beg) / ds)
        by (apply Z.div_le_mono; lia).
      split; [done|]. split; [done|]. split; [lia|]. split; [lia|].
      split; [lia|]. split; [lia|]. intros [Hlo Hhi]. apply Z.min_r.
      assert ((beg - min_beg) / ds < d); [|lia].
      apply Z.div_lt_upper_bound; [lia|].
      pose proof (Z.mul_succ_div_gt (max_beg - min_beg) d ltac:(lia)).
      subst ds. nia.
  - intros domain_size b v. unfold which_domain.
    destruct (b <? min_beg); [intros [= <-]; lia|].
    pose proof (wrap_range
                  (Z.quot (to_pos (b - min_beg)) domain_size)).
    destruct (domain_size =? 0); [done|].
    destruct (to_pos (b - min_beg) =? Pos_min);
      [destruct (domain_size =? -1); [done|]|];
      intros [= <-]; rewrite (wrap_small (d - 1)) by lia; lia.
Qed.

(** X23. The walk to the left in the [iitii] constructor ends: from the
    rank under the leftmost leaf of a node [n] it stops at a rank [leq]
    that is not negative, every rank it passed begins where [n] does, and
    [leq] begins before [n] unless it is rank 0. The node it stops at does
    not begin after [n], which is the assertion that follows the loop. *)
Theorem walk_left_stops items train n :
  Z.of_nat (length items) < 2 ^ 62 →
  ∃ t, iitii_build train (builder_range items) = Some t
    ∧ (0 ≤ n < size (nodes (super t)) → 0 < leftmost_leaf2 n →
       ∃ leq,
         walk_leq (length (nodes (super t))) (nodes (super t))
           (node_beg (nodes (super t)) n) (wrap (leftmost_leaf2 n - 1))
         = Some leq
         ∧ 0 ≤ leq < leftmost_leaf2 n
         ∧ node_beg (nodes (super t)) leq ≤ node_beg (nodes (super t)) n
         ∧ (∀ m, leq < m < leftmost_leaf2 n →
              node_beg (nodes (super t)) m = node_beg (nodes (super t)) n)
         ∧ (node_beg (nodes (super t)) leq = node_beg (nodes (super t)) n →
            leq = 0)).
Proof.
  intros Hlen.
  destruct (iitii_build_wf train items Hlen) as (t & L & Hb & Hwf & _).
  exists t. split; [done|]. intros Hn Hl.
  destruct Hwf as (((_ & _ & _) & HL & Hsz & HN & _ & Hs & _) & _).
  pose proof (real_node_in_tree L n _ ltac:(lia) Hn HN) as Hin.
  unfold leftmost_leaf2 in *.
  rewrite (leftmost_leaf_eq L ltac:(lia)) in * by done.
  destruct (in_tree_bounds L ltac:(lia) _ _ Hin) as (_ & Hlo & _ & _ & Hp).
  assert (lo (level n) n ≤ n) by (unfold lo; lia).
  rewrite wrap_small by lia.
  destruct (walk_leq_spec (nodes (super t)) (node_beg (nodes (super t)) n)
              (length (nodes (super t))) (lo (level n) n - 1))
    as (leq & Hw & Hr & Hsame & Hzero); [lia|unfold size in Hn; lia|].
  exists leq. split; [done|]. split; [lia|].
  split; [apply Hs; lia|]. split; [|done].
  intros m Hm. apply Hsame. lia.
Qed.

(** ** The assertions of [scan] *)

Section CheckedScan.
Context {Node : Type} `{!IitNode Node}.

Implicit Types nodes : list Node.

(** inside a full tree no assertion of [scan] fails *)
Lemma scan_checked_ok L nodes qbeg qend k :
  (L ≤ 62)%nat → ∀ r ans, in_tree L k r →
  scan_checked (pow2 (S L) - 1) nodes r k qbeg qend ans
  = Some (scan nodes r k qbeg qend ans).
Proof.
  intros HL. induction k as [|ck IH]; intros r ans Hin;
    destruct (in_tree_bounds L HL _ _ Hin) as (HkL & Hlo & Hhi & HLb & Hp);
    cbn [scan_checked scan];
    rewrite (in_tree_level L HL _ _ Hin), Nat.eqb_refl;
    (destruct (Z.ltb_spec r (pow2 (S L) - 1)) as [_|?]; [|lia]).
  - destruct (size nodes <=? r); [done|]. cbn [Nat.leb].
    rewrite shl_1, pow2_0 by lia. change (wrap (1 - 1)) with 0.
    rewrite Z.add_0_r, (wrap_small r) by lia.
    destruct (Z.leb_spec 0 r); [|lia].
    destruct (Z.ltb_spec r (pow2 (S L) - 1)); [|lia].
    by destruct (scan_leaves _ _ _ _ _ _).
  - destruct (size nodes <=? r).
    + rewrite (left_eq L HL) by done.
      rewrite IH by (by apply in_tree_left). cbn.
      by destruct (scan nodes (r - pow2 ck) ck qbeg qend ans).
    + destruct (S ck <=? 2)%nat.
      * rewrite shl_1 by lia. rewrite (wrap_small (pow2 (S ck) - 1)) by lia.
        rewrite (wrap_small (r + _)) by lia.
        destruct (Z.leb_spec (pow2 (S ck) - 1) r); [|lia].
        destruct (Z.ltb_spec (r + (pow2 (S ck) - 1)) (pow2 (S L) - 1)); [|lia].
        by destruct (scan_leaves _ _ _ _ _ _).
      * destruct (qbeg <? node_ime nodes r); [|done].
        rewrite (left_eq L HL), (right_eq L HL) by done.
        rewrite IH by (by apply in_tree_left). cbn.
        destruct (scan nodes (r - pow2 ck) ck qbeg qend ans) as [c1 ans1].
        destruct (node_beg nodes r <? qend); [|done].
        rewrite IH by (by apply in_tree_right). cbn.
        by destruct (scan nodes (r + pow2 ck) ck qbeg qend _).
Qed.

Lemma overlap_checked_ok L (t : @iit_base Node) qbeg qend :
  wf_index L t → 0 < size (nodes t) →
  overlap_checked t qbeg qend = Some (overlap t qbeg qend).
Proof.
  intros ((HrL & Hroot & Hfs) & HL & _) Hpos.
  unfold overlap_checked, overlap. rewrite Hfs, HrL, Hroot.
  rewrite decide_False by lia.
  apply scan_checked_ok; [lia|]. apply in_tree_root. lia.
Qed.

Lemma scan_checked_real L (t : @iit_base Node) qbeg qend r ans :
  wf_index L t → 0 ≤ r < full_size t →
  scan_checked (full_size t) (nodes t) r (level r) qbeg qend ans
  = Some (scan (nodes t) r (level r) qbeg qend ans).
Proof.
  intros ((HrL & Hroot & Hfs) & HL & _) Hr.
  rewrite Hfs in *. case_decide; [lia|].
  apply scan_checked_ok; [lia|].
  apply (real_node_in_tree L r (pow2 (S L) - 1)); [lia|done|lia].
Qed.

End CheckedScan.

(** X24. In an index built from one item or more no assertion of [scan]
    fails: from every rank of the full tree, and so from the root, the
    scan of a build with assertions returns what [scan] computes. This
    holds for the node arrays of both indexes. *)
Theorem scan_assertions_hold items train qbeg qend r ans :
  (0 < length items)%nat → Z.of_nat (length items) < 2 ^ 62 →
  ∃ t ti, iit_build (builder_range items) = Some t
    ∧ iitii_build train (builder_range items) = Some ti
    ∧ overlap_checked t qbeg qend = Some (overlap t qbeg qend)
    ∧ overlap_checked (super ti) qbeg qend
      = Some (overlap (super ti) qbeg qend)
    ∧ (0 ≤ r < full_size t →
       scan_checked (full_size t) (nodes t) r (level r) qbeg qend ans
       = Some (scan (nodes t) r (level r) qbeg qend ans))
    ∧ (0 ≤ r < full_size (super ti) →
       scan_checked (full_size (super ti)) (nodes (super ti)) r (level r)
         qbeg qend ans
       = Some (scan (nodes (super ti)) r (level r) qbeg qend ans)).
Proof.
  intros Hpos Hlen.
  destruct (iit_build_wf items Hlen) as (t & L & Hb & Hwf & Hit).
  destruct (iitii_build_wf train items Hlen) as (ti & Li & Hbi & Hwfi & Hiti).
  exists t, ti. split; [done|]. split; [done|].
  pose proof (sorted_nodes_size items (nodes t) Hit).
  pose proof (sorted_nodes_size items (nodes (super ti)) Hiti).
  split; [apply (overlap_checked_ok L); [done|lia]|].
  split; [apply (overlap_checked_ok Li); [apply Hwfi|lia]|].
  split; intros Hr; [by apply (scan_checked_real L)|].
  apply (scan_checked_real Li); [apply Hwfi|done].
Qed.

End Iit.

(** * Instances

    The theorems at the items of the header comment and at three other
    small item sequences. *)

Import IntPair.

#[local] Hint Extern 0 (IitNode _ iitii_node) =>
  exact (iitii_node_IitNode p_get_end int_min) : typeclass_instances.

Local Abbreviation p_builder items :=
  (builder_range p_get_beg p_get_end (Node := iit_node_base) items).
Local Abbreviation pi_builder items :=
  (builder_range p_get_beg p_get_end (Node := iitii_node) items).
Local Abbreviation p_iit items := (iit_build p_get_end (p_builder items)).
Local Abbreviation p_iitii train items :=
  (iitii_build p_get_beg p_get_end int_min train (pi_builder items)).
Local Abbreviation p_overlap := (overlap p_get_beg p_get_end).
Local Abbreviation p_iitii_overlap :=
  (iitii_overlap p_get_beg p_get_end int_min int_max).
Local Abbreviation p_node_beg nodes := (node_beg p_get_beg p_get_end nodes).
Local Abbreviation p_node_end nodes := (node_end p_get_end nodes).
Local Abbreviation p_outside_min_beg :=
  (outside_min_beg p_get_beg p_get_end int_min int_max).

(** the query of the header comment: items 0 and 1 of the sorted array *)
Lemma overlap_returns_overlapping_witness :
  Z.of_nat (length header_items) < 2 ^ 62
  ∧ ∃ t, p_iit header_items = Some t
      ∧ (p_overlap t 22 25).2 = [0; 1]
      ∧ ∀ m, m ∈ (p_overlap t 22 25).2 ↔
          0 ≤ m < size (nodes t) ∧ p_node_beg (nodes t) m < 25
          ∧ 22 < p_node_end (nodes t) m.
Proof.
  split; [reflexivity|].
  destruct (overlap_returns_overlapping p_get_beg p_get_end int_min int_max
              header_items (λ _ _, Some (0%nat, 1)) 22 25 eq_refl)
    as [(t & Hb & _ & _ & H) _].
  exists t. split; [exact Hb|]. split; [|exact H].
  vm_compute in Hb. injection Hb as <-. reflexivity.
Defined.

Lemma iit_iitii_same_result_witness :
  Z.of_nat (length chain_items) < 2 ^ 62
  ∧ ∃ t1 t2 cost ans t2',
      p_iit chain_items = Some t1
      ∧ p_iitii (λ _ _, Some (0%nat, 3)) chain_items = Some t2
      ∧ p_iitii_overlap t2 6 8 = Some (cost, ans, t2')
      ∧ ans = [6; 7]
      ∧ ∀ m, m ∈ (p_overlap t1 6 8).2 ↔ m ∈ ans.
Proof.
  split; [reflexivity|].
  destruct (iit_iitii_same_result p_get_beg p_get_end int_min int_max
              chain_items (λ _ _, Some (0%nat, 3)) 6 8 eq_refl)
    as (t1 & t2 & cost & ans & t2' & Hb1 & Hb2 & Hov & _ & H).
  exists t1, t2, cost, ans, t2'.
  split; [exact Hb1|]. split; [exact Hb2|]. split; [exact Hov|].
  split; [|exact H].
  vm_compute in Hb2. injection Hb2 as <-.
  vm_compute in Hov. by injection Hov as _ <- _.
Defined.

(** at the leaf 6 of the chain, the query [6, 7) meets both conditions *)
Lemma stopping_predicate_sound_witness :
  Z.of_nat (length chain_items) < 2 ^ 62
  ∧ ∃ t, p_iitii (λ _ _, None) chain_items = Some t
      ∧ 0 ≤ 6 < size (nodes (super t))
      ∧ node_ome (nodes (super t)) 6 ≤ 6
      ∧ 7 ≤ p_outside_min_beg (nodes (super t)) 6 (level 6)
      ∧ ∀ m, m ∈ (scan p_get_beg p_get_end (nodes (super t)) 6 (level 6)
                    6 7 []).2 ↔
          overlaps p_get_beg p_get_end (nodes (super t)) 6 7 m.
Proof.
  split; [reflexivity|].
  destruct (stopping_predicate_sound p_get_beg p_get_end int_min int_max
              chain_items (λ _ _, None) 6 7 6 eq_refl) as (t & Hb & H).
  exists t. split; [exact Hb|].
  vm_compute in Hb. injection Hb as <-.
  assert (H1 : 0 ≤ 6 < 11) by (split; discriminate || reflexivity).
  assert (H2 : 6 ≤ 6) by discriminate.
  assert (H3 : 7 ≤ 7) by discriminate.
  split; [exact H1|]. split; [exact H2|]. split; [exact H3|].
  exact (proj2 (proj2 (H H1 H2 H3))).
Defined.

Lemma inside_max_end_is_subtree_max_witness :
  Z.of_nat (length chain_items) < 2 ^ 62
  ∧ (∃ t, p_iit chain_items = Some t
       ∧ size (nodes t) = Z.of_nat (length chain_items)
       ∧ node_items p_get_end (nodes t) ≡ₚ chain_items
       ∧ inside_augmented p_get_end (nodes t))
  ∧ (∃ t, p_iitii (λ _ _, None) chain_items = Some t
       ∧ size (nodes (super t)) = Z.of_nat (length chain_items)
       ∧ node_items p_get_end (nodes (super t)) ≡ₚ chain_items
       ∧ inside_augmented p_get_end (nodes (super t))).
Proof.
  split; [reflexivity|].
  exact (inside_max_end_is_subtree_max p_get_beg p_get_end int_min
           chain_items (λ _ _, None) eq_refl).
Defined.

Lemma outside_max_end_is_outside_max_witness :
  Z.of_nat (length chain_items) < 2 ^ 62
  ∧ ∃ t, p_iitii (λ _ _, None) chain_items = Some t
      ∧ size (nodes (super t)) = Z.of_nat (length chain_items)
      ∧ node_items p_get_end (nodes (super t)) ≡ₚ chain_items
      ∧ outside_augmented p_get_beg p_get_end int_min (nodes (super t)).
Proof.
  split; [reflexivity|].
  exact (outside_max_end_is_outside_max p_get_beg p_get_end int_min
           chain_items (λ _ _, None) eq_refl).
Defined.

(** where all items begin at 7, the last leaf has [rightmost_leaf + 1 >= N]
    and yet [outside_min_beg] is 7, not the largest position *)
Lemma outside_min_beg_not_max_counterexample :
  ∃ t, p_iitii (λ _ _, None) same_beg_items = Some t
    ∧ 0 ≤ 2 < size (nodes (super t))
    ∧ size (nodes (super t)) ≤ rightmost_leaf 2 (level 2) + 1
    ∧ p_outside_min_beg (nodes (super t)) 2 (level 2) = 7
    ∧ p_outside_min_beg (nodes (super t)) 2 (level 2) ≠ int_max.
Proof.
  eexists. split; [vm_compute; reflexivity|].
  split; [split; discriminate || reflexivity|].
  split; [discriminate|]. split; [reflexivity|discriminate].
Qed.

Lemma outside_min_beg_value_witness :
  Z.of_nat (length same_beg_items) < 2 ^ 62
  ∧ ∃ t, p_iitii (λ _ _, None) same_beg_items = Some t
      ∧ 0 ≤ 2 < size (nodes (super t))
      ∧ p_outside_min_beg (nodes (super t)) 2 (level 2) = 7
      ∧ is_outside_min_beg p_get_beg p_get_end int_min int_max
          (nodes (super t)) 2 (level 2)
          (p_outside_min_beg (nodes (super t)) 2 (level 2)).
Proof.
  split; [reflexivity|].
  destruct (outside_min_beg_value p_get_beg p_get_end int_min int_max
              same_beg_items (λ _ _, None) 2 eq_refl) as (t & Hb & H).
  exists t. split; [exact Hb|].
  vm_compute in Hb. injection Hb as <-.
  assert (H1 : 0 ≤ 2 < 3) by (split; discriminate || reflexivity).
  split; [exact H1|]. split; [reflexivity|]. exact (proj2 (H H1)).
Defined.

Lemma levelrank_round_trip_witness :
  0 ≤ 11 < 2 ^ 64 - 1
  ∧ level 11 = 2%nat ∧ levelrank_of_rank 11 = 1
  ∧ rank_of_levelrank (level 11) (levelrank_of_rank 11) = 11
  ∧ 11 = (2 * levelrank_of_rank 11 + 1) * 2 ^ Z.of_nat (level 11) - 1.
Proof.
  split; [split; discriminate || reflexivity|].
  split; [reflexivity|]. split; [reflexivity|].
  apply (levelrank_round_trip 11). split; discriminate || reflexivity.
Defined.

(** an index built from no item: the query [0, 1) fails the first assertion
    of [scan], as [root] and [full_size] are both 0 *)
Lemma empty_index_query_aborts_counterexample :
  ∃ t, p_iit [] = Some t
    ∧ root t = 0 ∧ full_size t = 0
    ∧ overlap_checked p_get_beg p_get_end t 0 1 = None.
Proof.
  eexists. split; [vm_compute; reflexivity|].
  split; [reflexivity|]. split; reflexivity.
Qed.

(** the index of the single item (7, 9) answers the zero-width query
    [8, 8) with that item, on both paths *)
Lemma zero_width_query_counterexample :
  (∃ t, p_iit one_item = Some t ∧ 8 ≤ 8 ∧ (p_overlap t 8 8).2 = [0]
     ∧ (p_overlap t 8 8).2 ≠ [])
  ∧ (∃ t cost t', p_iitii (λ _ _, Some (0%nat, 0)) one_item = Some t
       ∧ p_iitii_overlap t 8 8 = Some (cost, [0], t')).
Proof.
  split.
  - eexists. split; [vm_compute; reflexivity|]. split; [discriminate|].
    split; [reflexivity|discriminate].
  - eexists _, _, _. split; [vm_compute; reflexivity|]. vm_compute. reflexivity.
Qed.

Lemma degenerate_query_guards_witness :
  Z.of_nat (length one_item) < 2 ^ 62 ∧ 10 ≤ 12
  ∧ (∃ t, p_iit one_item = Some t ∧ (p_overlap t 12 10).2 = [])
  ∧ (∃ t cost ans t', p_iitii (λ _ _, Some (0%nat, 0)) one_item = Some t
       ∧ p_iitii_overlap t 12 10 = Some (cost, ans, t') ∧ ans = []).
Proof.
  split; [reflexivity|]. split; [discriminate|].
  destruct (degenerate_query_guards p_get_beg p_get_end int_min int_max
              one_item (λ _ _, Some (0%nat, 0)) 12 10 eq_refl)
    as [(t1 & Hb1 & _ & H1) (t2 & Hb2 & cost & ans & t' & Hov & _ & H2)];
    [discriminate|].
  split.
  - exists t1. split; [exact Hb1|]. apply H1.
    vm_compute in Hb1. injection Hb1 as <-.
    intros m Hm. assert (m = 0) as -> by (unfold size in Hm; cbn in Hm; lia).
    right. discriminate.
  - exists t2, cost, ans, t'. split; [exact Hb2|]. split; [exact Hov|].
    apply H2. vm_compute in Hb2. injection Hb2 as <-.
    intros m Hm. assert (m = 0) as -> by (unfold size in Hm; cbn in Hm; lia).
    right. discriminate.
Defined.

(** from the leaf 4 of the chain the query [8, 9) climbs three levels, to
    the root *)
Lemma climb_terminates_witness :
  Z.of_nat (length chain_items) < 2 ^ 62
  ∧ ∃ t, p_iitii (λ _ _, Some (0%nat, 2)) chain_items = Some t
      ∧ predict t 8 = 4 ∧ predict t 8 ≠ nrank
      ∧ (root_level (super t) - level (predict t 8) ≤ 3)%nat
      ∧ ∃ r k,
          climb p_get_beg p_get_end int_min int_max 3 (super t) 8 9
            (predict t 8) (level (predict t 8)) = Some (r, k)
          ∧ (level (predict t 8) ≤ k ≤ root_level (super t))%nat
          ∧ level r = k
          ∧ (k = root_level (super t) → r = root (super t)).
Proof.
  split; [reflexivity|].
  destruct (climb_terminates p_get_beg p_get_end int_min int_max
              chain_items (λ _ _, Some (0%nat, 2)) 8 9 eq_refl)
    as (t & Hb & _ & H).
  exists t. split; [exact Hb|].
  vm_compute in Hb. injection Hb as <-.
  assert (H1 : 4 ≠ nrank) by discriminate.
  assert (H2 : (3 - 0 ≤ 3)%nat) by (vm_compute; reflexivity).
  split; [reflexivity|]. split; [exact H1|]. split; [exact H2|].
  exact (H H1 3%nat H2).
Defined.

(** ** The further properties at small inputs *)

Local Abbreviation p_node_items := (node_items p_get_end).
Local Abbreviation p_answer_items := (answer_items p_get_end).
Local Abbreviation p_scan := (scan p_get_beg p_get_end).
Local Abbreviation p_climb := (climb p_get_beg p_get_end int_min int_max).
Local Abbreviation p_climb_stops :=
  (climb_stops p_get_beg p_get_end int_min int_max).

(** rank 11 is 1011 in binary: two trailing ones *)
Lemma level_counts_trailing_ones_witness :
  0 ≤ 11 < 2 ^ 64 - 1
  ∧ level 11 = 2%nat
  ∧ Z.testbit 11 0 = true ∧ Z.testbit 11 1 = true ∧ Z.testbit 11 2 = false
  ∧ level_chk 64 11 0 = Some 2%nat.
Proof.
  assert (H : 0 ≤ 11 < 2 ^ 64 - 1) by (split; discriminate || reflexivity).
  destruct (level_counts_trailing_ones 11 H) as (_ & Hones & Hzero & Hchk).
  split; [exact H|]. split; [reflexivity|].
  split; [apply Hones; split; discriminate || reflexivity|].
  split; [apply Hones; split; discriminate || reflexivity|].
  split; [exact Hzero|exact Hchk].
Defined.

(** node 3 of a tree of root level 3 has the children 1 and 5 *)
Lemma parent_of_child_witness :
  (3 ≤ 62)%nat ∧ 0 ≤ 3 < 2 ^ Z.of_nat 4 - 1 ∧ (0 < level 3)%nat
  ∧ left2 3 = 1 ∧ right2 3 = 5
  ∧ parent2 (2 ^ Z.of_nat 3 - 1) (left2 3) = 3
  ∧ parent2 (2 ^ Z.of_nat 3 - 1) (right2 3) = 3.
Proof.
  assert (H1 : (3 ≤ 62)%nat) by (vm_compute; lia).
  assert (H2 : 0 ≤ 3 < 2 ^ Z.of_nat 4 - 1)
    by (split; discriminate || reflexivity).
  assert (H3 : (0 < level 3)%nat) by (vm_compute; lia).
  destruct (parent_of_child 3 3 H1 H2 H3) as (_ & _ & _ & _ & _ & _ & Hl & Hr).
  split; [exact H1|]. split; [exact H2|]. split; [exact H3|].
  split; [reflexivity|]. split; [reflexivity|]. split; [exact Hl|exact Hr].
Defined.

(** node 5 of that tree is the right child of its parent, node 3 *)
Lemma child_of_parent_witness :
  (3 ≤ 62)%nat ∧ 0 ≤ 5 < 2 ^ Z.of_nat 4 - 1 ∧ 5 ≠ 2 ^ Z.of_nat 3 - 1
  ∧ parent2 (2 ^ Z.of_nat 3 - 1) 5 = 3
  ∧ level (parent2 (2 ^ Z.of_nat 3 - 1) 5) = S (level 5)
  ∧ right2 (parent2 (2 ^ Z.of_nat 3 - 1) 5) = 5.
Proof.
  assert (H1 : (3 ≤ 62)%nat) by (vm_compute; lia).
  assert (H2 : 0 ≤ 5 < 2 ^ Z.of_nat 4 - 1)
    by (split; discriminate || reflexivity).
  assert (H3 : 5 ≠ 2 ^ Z.of_nat 3 - 1) by discriminate.
  destruct (child_of_parent 3 5 H1 H2 H3) as (_ & Hlv & _).
  split; [exact H1|]. split; [exact H2|]. split; [exact H3|].
  split; [reflexivity|]. split; [exact Hlv|reflexivity].
Defined.

(** the subtree of node 3 is the ranks 0 to 6 *)
Lemma subtree_is_rank_interval_witness :
  (3 ≤ 62)%nat ∧ 0 ≤ 3 < 2 ^ Z.of_nat 4 - 1
  ∧ leftmost_leaf2 3 = 0 ∧ rightmost_leaf2 3 = 6
  ∧ in_subtree 3 (level 3) 5 ∧ ¬ in_subtree 3 (level 3) 7.
Proof.
  assert (H1 : (3 ≤ 62)%nat) by (vm_compute; lia).
  assert (H2 : 0 ≤ 3 < 2 ^ Z.of_nat 4 - 1)
    by (split; discriminate || reflexivity).
  split; [exact H1|]. split; [exact H2|].
  split; [reflexivity|]. split; [reflexivity|]. split.
  - apply (proj1 (subtree_is_rank_interval 3 3 5 H1 H2)).
    split; discriminate.
  - intros Hin.
    apply (proj1 (subtree_is_rank_interval 3 3 7 H1 H2)) in Hin.
    destruct Hin as [_ Hle]. apply Hle. reflexivity.
Defined.

(** the node of level 2 and level-rank 1 has rank 11 *)
Lemma rank_levelrank_round_trip_witness :
  0 ≤ 1 ∧ (2 * 1 + 1) * 2 ^ Z.of_nat 2 < 2 ^ 64
  ∧ rank_of_levelrank 2 1 = 11
  ∧ level (rank_of_levelrank 2 1) = 2%nat
  ∧ levelrank_of_rank (rank_of_levelrank 2 1) = 1.
Proof.
  assert (H1 : 0 ≤ 1) by discriminate.
  assert (H2 : (2 * 1 + 1) * 2 ^ Z.of_nat 2 < 2 ^ 64) by reflexivity.
  split; [exact H1|]. split; [exact H2|].
  exact (rank_levelrank_round_trip 2 1 H1 H2).
Defined.

Lemma log2ull_is_floor_log2_witness :
  0 < 1000 < 2 ^ 64 ∧ log2ull 1000 = 9
  ∧ 2 ^ log2ull 1000 ≤ 1000 < 2 ^ (log2ull 1000 + 1).
Proof.
  assert (H : 0 < 1000 < 2 ^ 64) by (split; reflexivity).
  split; [exact H|]. split; [reflexivity|].
  exact (proj1 (proj2 (log2ull_is_floor_log2 1000 H))).
Defined.

(** the chain answers [3, 8) with the ranks 3 to 7, in that order *)
Lemma overlap_in_rank_order_witness :
  Z.of_nat (length chain_items) < 2 ^ 62
  ∧ (∃ t, p_iit chain_items = Some t
       ∧ (p_overlap t 3 8).2 = [3; 4; 5; 6; 7]
       ∧ StronglySorted Z.lt (p_overlap t 3 8).2)
  ∧ (∃ t cost ans t', p_iitii (λ _ _, Some (0%nat, 3)) chain_items = Some t
       ∧ p_iitii_overlap t 3 8 = Some (cost, ans, t')
       ∧ ans = [3; 4; 5; 6; 7]
       ∧ StronglySorted Z.lt ans).
Proof.
  split; [reflexivity|].
  destruct (overlap_in_rank_order p_get_beg p_get_end int_min int_max
              chain_items (λ _ _, Some (0%nat, 3)) 3 8 eq_refl)
    as [(t & Hb & Hs & _) (ti & cost & ans & t' & Hbi & Hov & Hsi & _)].
  split.
  - exists t. split; [exact Hb|]. split; [|exact Hs].
    vm_compute in Hb. injection Hb as <-. reflexivity.
  - exists ti, cost, ans, t'. split; [exact Hbi|]. split; [exact Hov|].
    split; [|exact Hsi].
    vm_compute in Hbi. injection Hbi as <-.
    vm_compute in Hov. by injection Hov as _ <- _.
Defined.

Lemma overlap_cost_bounds_witness :
  Z.of_nat (length chain_items) < 2 ^ 62
  ∧ (∃ t, p_iit chain_items = Some t
       ∧ (p_overlap t 3 8).1 = 9
       ∧ Z.of_nat (length (p_overlap t 3 8).2) ≤ (p_overlap t 3 8).1
       ∧ (p_overlap t 3 8).1 ≤ 2 ^ Z.of_nat (S (root_level t)) - 1)
  ∧ (∃ t cost ans t', p_iitii (λ _ _, Some (0%nat, 3)) chain_items = Some t
       ∧ p_iitii_overlap t 3 8 = Some (cost, ans, t')
       ∧ Z.of_nat (length ans) ≤ cost
       ∧ cost ≤ 2 ^ Z.of_nat (S (root_level (super t))) - 1
                + 3 * Z.of_nat (root_level (super t))).
Proof.
  split; [reflexivity|].
  destruct (overlap_cost_bounds p_get_beg p_get_end int_min int_max
              chain_items (λ _ _, Some (0%nat, 3)) 3 8 eq_refl)
    as [(t & Hb & Hlo & Hhi) (ti & cost & ans & t' & Hbi & Hov & Hloi & Hhii)].
  split.
  - exists t. split; [exact Hb|]. split; [|split; [exact Hlo|exact Hhi]].
    vm_compute in Hb. injection Hb as <-. reflexivity.
  - exists ti, cost, ans, t'. split; [exact Hbi|]. split; [exact Hov|].
    split; [exact Hloi|exact Hhii].
Defined.

(** the query of the header comment returns the items (0, 23) and (12, 34) *)
Lemma overlap_returns_overlapping_items_witness :
  Z.of_nat (length header_items) < 2 ^ 62
  ∧ (∃ t, p_iit header_items = Some t
       ∧ p_answer_items (nodes t) (p_overlap t 22 25).2 = [(0, 23); (12, 34)]
       ∧ p_answer_items (nodes t) (p_overlap t 22 25).2
         ≡ₚ filter (λ it, p_get_beg it < 25 ∧ 22 < p_get_end it)
              header_items)
  ∧ (∃ t cost ans t', p_iitii (λ _ _, Some (0%nat, 1)) header_items = Some t
       ∧ p_iitii_overlap t 22 25 = Some (cost, ans, t')
       ∧ p_answer_items (nodes (super t)) ans
         ≡ₚ filter (λ it, p_get_beg it < 25 ∧ 22 < p_get_end it)
              header_items).
Proof.
  split; [reflexivity|].
  destruct (overlap_returns_overlapping_items p_get_beg p_get_end int_min
              int_max header_items (λ _ _, Some (0%nat, 1)) 22 25 eq_refl)
    as [(t & Hb & _ & Hp) (ti & cost & ans & t' & Hbi & Hov & _ & Hpi)].
  split.
  - exists t. split; [exact Hb|]. split; [|exact Hp].
    vm_compute in Hb. injection Hb as <-. reflexivity.
  - exists ti, cost, ans, t'. split; [exact Hbi|]. split; [exact Hov|].
    exact Hpi.
Defined.

(** eleven items: root level 3, root 7, a full tree of 15 ranks *)
Lemma built_tree_geometry_witness :
  Z.of_nat (length chain_items) < 2 ^ 62
  ∧ ∃ t ti, p_iit chain_items = Some t
      ∧ p_iitii (λ _ _, None) chain_items = Some ti
      ∧ root_level t = 3%nat ∧ root t = 7 ∧ full_size t = 15
      ∧ root_level (super ti) = root_level t
      ∧ root (super ti) = root t
      ∧ full_size (super ti) = full_size t
      ∧ root t < Z.of_nat (length chain_items)
      ∧ full_size t ≤ 2 * Z.of_nat (length chain_items) - 1.
Proof.
  split; [reflexivity|].
  destruct (built_tree_geometry p_get_beg p_get_end int_min chain_items
              (λ _ _, None) eq_refl)
    as (t & ti & Hb & Hbi & _ & _ & Hrl & Hr & Hfs & _ & _ & _ & _ & H2).
  exists t, ti. split; [exact Hb|]. split; [exact Hbi|].
  assert (H : (2 ≤ length chain_items)%nat) by (vm_compute; lia).
  destruct (H2 H) as [Hreal Hfull].
  split; [vm_compute in Hb; by injection Hb as <-|].
  split; [vm_compute in Hb; by injection Hb as <-|].
  split; [vm_compute in Hb; by injection Hb as <-|].
  split; [exact Hrl|]. split; [exact Hr|]. split; [exact Hfs|].
  split; [exact Hreal|exact Hfull].
Defined.

(** the items of the header comment end up in the order (0, 23), (12, 34),
    (34, 56) *)
Lemma build_sorts_by_beg_then_end_witness :
  Z.of_nat (length header_items) < 2 ^ 62
  ∧ ∃ t, p_iit header_items = Some t
      ∧ p_node_items (nodes t) = [(0, 23); (12, 34); (34, 56)]
      ∧ ∀ i j x y, (i ≤ j)%nat →
          nodes t !! i = Some x → nodes t !! j = Some y →
          node_lt p_get_beg p_get_end y x = false.
Proof.
  split; [reflexivity|].
  destruct (build_sorts_by_beg_then_end p_get_beg p_get_end int_min
              header_items (λ _ _, None) eq_refl) as [(t & Hb & _ & Hs) _].
  exists t. split; [exact Hb|]. split.
  - vm_compute in Hb. injection Hb as <-. reflexivity.
  - intros i j x y Hij Hx Hy. exact (proj1 (Hs i j x y Hij Hx Hy)).
Defined.

(** the identity in the place of the sort, on items that ascend by [beg]
    but not by [end] *)
Lemma build_with_custom_sort_witness :
  Z.of_nat (length [(0, 50); (0, 10); (5, 7)]) < 2 ^ 62
  ∧ sorted_beg p_get_beg p_get_end
      (id (map (node_new p_get_end) [(0, 50); (0, 10); (5, 7)]
           : list iit_node_base))
  ∧ ∃ t, iit_build p_get_end
         (add_range p_get_end (Node := iit_node_base) (builder_new id)
            [(0, 50); (0, 10); (5, 7)]) = Some t
    ∧ p_node_items (nodes t) = [(0, 50); (0, 10); (5, 7)]
    ∧ (p_overlap t 6 20).2 = [0; 1; 2]
    ∧ ∀ m, m ∈ (p_overlap t 6 20).2 ↔
        0 ≤ m < size (nodes t) ∧ p_node_beg (nodes t) m < 20
        ∧ 6 < p_node_end (nodes t) m.
Proof.
  assert (Hs1 : sorted_beg p_get_beg p_get_end
            (id (map (node_new p_get_end) [(0, 50); (0, 10); (5, 7)]
                 : list iit_node_base))).
  { intros i j Hi Hij Hj. unfold size in Hj. cbn in Hj.
    assert (Hc : (i = 0 ∨ i = 1 ∨ i = 2) ∧ (j = 0 ∨ j = 1 ∨ j = 2)) by lia.
    destruct Hc as [[-> | [-> | ->]] [-> | [-> | ->]]];
      first [lia | vm_compute; discriminate]. }
  assert (Hs2 : sorted_beg p_get_beg p_get_end
            (id (map (node_new p_get_end) [(0, 50); (0, 10); (5, 7)]
                 : list iitii_node))).
  { intros i j Hi Hij Hj. unfold size in Hj. cbn in Hj.
    assert (Hc : (i = 0 ∨ i = 1 ∨ i = 2) ∧ (j = 0 ∨ j = 1 ∨ j = 2)) by lia.
    destruct Hc as [[-> | [-> | ->]] [-> | [-> | ->]]];
      first [lia | vm_compute; discriminate]. }
  destruct (build_with_custom_sort p_get_beg p_get_end int_min int_max
              id id [(0, 50); (0, 10); (5, 7)] (λ _ _, None) 6 20
              eq_refl (Permutation_refl _) Hs1 (Permutation_refl _) Hs2)
    as [(t & Hb & _ & Hm) _].
  split; [reflexivity|]. split; [exact Hs1|].
  exists t. split; [exact Hb|].
  split; [vm_compute in Hb; by injection Hb as <-|].
  split; [vm_compute in Hb; by injection Hb as <-|]. exact Hm.
Defined.

Lemma iitii_extends_iit_witness :
  Z.of_nat (length chain_items) < 2 ^ 62
  ∧ ∃ t ti, p_iit chain_items = Some t
      ∧ p_iitii (λ _ _, Some (0%nat, 3)) chain_items = Some ti
      ∧ node_ime p_get_end (nodes t) 7 = 111
      ∧ node_ime p_get_end (nodes (super ti)) 7 = 111
      ∧ ∀ qbeg qend,
          p_overlap t qbeg qend = p_overlap (super ti) qbeg qend.
Proof.
  split; [reflexivity|].
  destruct (iitii_extends_iit p_get_beg p_get_end int_min chain_items
              (λ _ _, Some (0%nat, 3)) eq_refl)
    as (t & ti & Hb & Hbi & _ & Hime & _ & Hov).
  exists t, ti. split; [exact Hb|]. split; [exact Hbi|].
  assert (H7 : node_ime p_get_end (nodes t) 7 = 111)
    by (vm_compute in Hb; by injection Hb as <-).
  split; [exact H7|]. split; [by rewrite <- Hime|exact Hov].
Defined.

(** the items of the header comment, added in two orders *)
Lemma build_ignores_insertion_order_witness :
  Z.of_nat (length header_items) < 2 ^ 62
  ∧ header_items ≡ₚ [(0, 23); (12, 34); (34, 56)]
  ∧ ∃ t t', p_iit header_items = Some t
      ∧ p_iit [(0, 23); (12, 34); (34, 56)] = Some t'
      ∧ ∀ qbeg qend, p_overlap t qbeg qend = p_overlap t' qbeg qend.
Proof.
  assert (Hp : header_items ≡ₚ [(0, 23); (12, 34); (34, 56)])
    by apply perm_swap.
  split; [reflexivity|]. split; [exact Hp|].
  destruct (build_ignores_insertion_order p_get_beg p_get_end header_items
              [(0, 23); (12, 34); (34, 56)] eq_refl Hp)
    as (t & t' & Hb & Hb' & _ & _ & _ & _ & _ & Hov).
  exists t, t'. split; [exact Hb|]. split; [exact Hb'|exact Hov].
Defined.

(** three nodes, a prediction of the imaginary rank 10: the fallback is
    rank 2 *)
Lemma interpolate_returns_real_node_witness :
  0 < size (map (iitii_node_new p_get_end int_min) same_beg_items) < 2 ^ 63
  ∧ rank_of_levelrank 0 5 = 10
  ∧ interpolate (map (iitii_node_new p_get_end int_min) same_beg_items) 0 5
    = 2.
Proof.
  assert (H : 0 < size (map (iitii_node_new p_get_end int_min)
                          same_beg_items) < 2 ^ 63) by (split; reflexivity).
  split; [exact H|]. split; [reflexivity|].
  destruct (interpolate_returns_real_node
              (map (iitii_node_new p_get_end int_min) same_beg_items) 0 5 H)
    as [_ Himag].
  destruct Himag as (Heq & _); [discriminate|]. exact Heq.
Defined.

(** from the leaf 4 of the chain the query [8, 9) climbs to the root: the
    nodes 4, 5 and 3 on the way fail a stopping condition *)
Lemma climb_stops_at_first_safe_ancestor_witness :
  Z.of_nat (length chain_items) < 2 ^ 62
  ∧ ∃ t, p_iitii (λ _ _, Some (0%nat, 2)) chain_items = Some t
      ∧ predict t 8 = 4 ∧ predict t 8 ≠ nrank
      ∧ p_climb 64 (super t) 8 9 4 (level 4) = Some (7, 3%nat)
      ∧ in_subtree 7 3 (predict t 8)
      ∧ ¬ p_climb_stops (nodes (super t)) 8 9 5 (level 5).
Proof.
  split; [reflexivity|].
  destruct (climb_stops_at_first_safe_ancestor p_get_beg p_get_end int_min
              int_max chain_items (λ _ _, Some (0%nat, 2)) 8 9 eq_refl)
    as (t & Hb & H).
  exists t. split; [exact Hb|].
  assert (Hp : predict t 8 = 4) by (vm_compute in Hb; by injection Hb as <-).
  assert (Hn : predict t 8 ≠ nrank) by (rewrite Hp; discriminate).
  destruct (H Hn) as (r & k & Hc & _ & Hsub & _ & Hmin).
  assert (Hrk : p_climb 64 (super t) 8 9 4 (level 4) = Some (7, 3%nat))
    by (vm_compute in Hb; by injection Hb as <-).
  rewrite Hp in Hc. rewrite Hrk in Hc. injection Hc as <- <-.
  split; [exact Hp|]. split; [exact Hn|]. split; [exact Hrk|].
  split; [exact Hsub|].
  apply (Hmin 5).
  - vm_compute in Hb. injection Hb as <-. split; discriminate || reflexivity.
  - rewrite Hp. apply (in_subtree_left 5 0 4). apply in_subtree_root.
  - vm_compute. lia.
Defined.

(** the scan of the subtree of node 5, the ranks 4 to 6, after the answer
    vector held 99 *)
Lemma scan_appends_subtree_overlaps_witness :
  Z.of_nat (length chain_items) < 2 ^ 62
  ∧ ∃ t, p_iit chain_items = Some t
      ∧ 0 ≤ 5 < full_size t
      ∧ leftmost_leaf2 5 = 4 ∧ rightmost_leaf2 5 = 6
      ∧ (p_scan (nodes t) 5 (level 5) 0 100 [99]).2 = [99; 4; 5; 6]
      ∧ (p_scan (nodes t) 5 (level 5) 0 100 [99]).2
        = [99] ++ filter (λ m, leftmost_leaf2 5 ≤ m ≤ rightmost_leaf2 5
                               ∧ p_node_beg (nodes t) m < 100
                               ∧ 0 < p_node_end (nodes t) m)
                    (seqZ 0 (size (nodes t))).
Proof.
  split; [reflexivity|].
  destruct (scan_appends_subtree_overlaps p_get_beg p_get_end int_min
              chain_items (λ _ _, None) 0 100 5 [99] eq_refl)
    as (t & _ & Hb & _ & H & _).
  exists t. split; [exact Hb|].
  assert (Hr : 0 ≤ 5 < full_size t).
  { vm_compute in Hb. injection Hb as <-. split; discriminate || reflexivity. }
  split; [exact Hr|]. split; [reflexivity|]. split; [reflexivity|].
  split; [vm_compute in Hb; by injection Hb as <-|]. exact (H Hr).
Defined.

(** every item of the chain ends by 111 *)
Lemma query_past_every_end_witness :
  (8 ≤ length chain_items)%nat
  ∧ Z.of_nat (length chain_items) < 2 ^ 62
  ∧ Forall (λ it, p_get_end it ≤ 111) chain_items
  ∧ ∃ t, p_iit chain_items = Some t ∧ p_overlap t 111 200 = (1, []).
Proof.
  assert (H8 : (8 ≤ length chain_items)%nat) by (vm_compute; lia).
  assert (Hall : Forall (λ it, p_get_end it ≤ 111) chain_items)
    by (repeat constructor; discriminate).
  split; [exact H8|]. split; [reflexivity|]. split; [exact Hall|].
  destruct (query_past_every_end p_get_beg p_get_end chain_items 111 200
              H8 eq_refl Hall) as (t & Hb & _ & _ & Hov).
  exists t. split; [exact Hb|exact Hov].
Defined.

(** a query with three climb steps, on counters that held 5 and 7 *)
Lemma iitii_overlap_accounting_witness :
  Z.of_nat (length chain_items) < 2 ^ 62
  ∧ ∃ t cost ans t',
      p_iitii (λ _ _, Some (0%nat, 2)) chain_items = Some t
      ∧ p_iitii_overlap
          {| super := super t; model := model t; queries := 5;
             total_climb_cost := 7 |} 8 9 = Some (cost, ans, t')
      ∧ predict t 8 ≠ nrank
      ∧ cost = 19 ∧ ans = [8]
      ∧ queries t' = 6 ∧ total_climb_cost t' = 10.
Proof.
  split; [reflexivity|].
  destruct (iitii_overlap_accounting p_get_beg p_get_end int_min int_max
              chain_items (λ _ _, Some (0%nat, 2)) 8 9 5 7 eq_refl)
    as (t & cost & ans & t' & Hb & Hov & _ & _ & _ & H).
  exists t, cost, ans, t'. split; [exact Hb|]. split; [exact Hov|].
  assert (Hn : predict t 8 ≠ nrank)
    by (vm_compute in Hb; injection Hb as <-; discriminate).
  split; [exact Hn|].
  destruct (H Hn) as (r & k & Hc & _ & Hcost & Hans & Hq & Htc).
  vm_compute in Hb. injection Hb as <-.
  vm_compute in Hc. injection Hc as <- <-.
  split; [exact Hcost|]. split; [exact Hans|]. split; [exact Hq|exact Htc].
Defined.

(** eleven nodes: the path from the leaf 10 is 10, 9, 11, 7 *)
Lemma right_border_is_path_to_root_witness :
  0 < 11 < 2 ^ 62
  ∧ tree_geometry 64 11 0 0 = Some (3%nat, 15)
  ∧ rightmost_real_leaf 11 = 10
  ∧ ∃ border,
      right_border 64 7 [10] 10 = Some border
      ∧ border = [10; 9; 11; 7]
      ∧ ∀ k b, border !! k = Some b →
          level b = k ∧ 0 ≤ b < 15 ∧ in_subtree b k 10.
Proof.
  assert (H : 0 < 11 < 2 ^ 62) by (split; reflexivity).
  split; [exact H|]. split; [reflexivity|]. split; [reflexivity|].
  destruct (right_border_is_path_to_root 11 H)
    as (L & fs & border & Hg & Hrb & _ & _ & _ & Hk).
  vm_compute in Hg. injection Hg as <- <-.
  exists border. split; [exact Hrb|]. split; [|exact Hk].
  vm_compute in Hrb. by injection Hrb as <-.
Defined.

(** the ends 56, 34, 23: the running maximum stays at 56 *)
Lemma running_max_end_is_prefix_max_witness :
  0 < size (map (iitii_node_new p_get_end int_min)
              [(0, 56); (12, 34); (34, 23)]) < 2 ^ 62
  ∧ running_max_loop p_get_end int_min
      (map (iitii_node_new p_get_end int_min) [(0, 56); (12, 34); (34, 23)])
      2 1 [56] = [56; 56; 56]
  ∧ ∃ m, 0 ≤ m ≤ 1
      ∧ vec_at (running_max_loop p_get_end int_min
                  (map (iitii_node_new p_get_end int_min)
                     [(0, 56); (12, 34); (34, 23)]) 2 1 [56]) 1
        = p_node_end
            (map (iitii_node_new p_get_end int_min)
               [(0, 56); (12, 34); (34, 23)]) m.
Proof.
  assert (H : 0 < size (map (iitii_node_new p_get_end int_min)
                          [(0, 56); (12, 34); (34, 23)]) < 2 ^ 62)
    by (split; reflexivity).
  split; [exact H|]. split; [reflexivity|].
  assert (H1 : 0 ≤ 1 < size (map (iitii_node_new p_get_end int_min)
                               [(0, 56); (12, 34); (34, 23)]))
    by (split; discriminate || reflexivity).
  exact (proj2 (proj2 (running_max_end_is_prefix_max p_get_end int_min
                         (map (iitii_node_new p_get_end int_min)
                            [(0, 56); (12, 34); (34, 23)]) 1 H H1))).
Defined.


(** [Pos = int]: four domains over the positions 0 to 10 have size 3, and
    the positions 7 and 9 are in the domains 2 and 3. Over the positions
    from -2000000000 to 2000000000 the difference overflows and the
    domain size wraps around to a negative value. *)
Lemma which_domain_in_range_witness :
  0 ≤ 4 < 2 ^ 64 ∧ int_min ≤ 0 ∧ int_max < 2 ^ 64
  ∧ 0 ≤ 10 ∧ 10 - 0 < int_max ∧ 7 ≤ 9 ∧ 9 - 0 ≤ int_max
  ∧ iitii_domain_size int_min int_max 4 0 10 = 3
  ∧ which_domain int_min int_max (iitii_domains 4) 0
      (iitii_domain_size int_min int_max 4 0 10) 7 = Some 2
  ∧ which_domain int_min int_max (iitii_domains 4) 0
      (iitii_domain_size int_min int_max 4 0 10) 9 = Some 3
  ∧ (∀ domain_size b v,
       which_domain int_min int_max (iitii_domains 4) 0 domain_size b
       = Some v → 0 ≤ v < iitii_domains 4)
  ∧ iitii_domain_size int_min int_max 1 (-2000000000) 2000000000
    = -294967295.
Proof.
  assert (H1 : 0 ≤ 4 < 2 ^ 64) by (split; discriminate || reflexivity).
  assert (H2 : int_min ≤ 0) by discriminate.
  assert (H3 : int_max < 2 ^ 64) by reflexivity.
  assert (H4 : 0 ≤ 10) by discriminate.
  assert (H5 : 10 - 0 < int_max) by reflexivity.
  assert (H6 : 7 ≤ 9) by discriminate.
  assert (H7 : 9 - 0 ≤ int_max) by discriminate.
  split; [exact H1|]. split; [exact H2|]. split; [exact H3|].
  split; [exact H4|]. split; [exact H5|]. split; [exact H6|].
  split; [exact H7|]. split; [reflexivity|]. split; [reflexivity|].
  split; [reflexivity|]. split; [|reflexivity].
  exact (proj2 (proj2 (proj2 (which_domain_in_range int_min int_max 4 0 10
                                7 9 H1 H2 H3 H4 H5 H6 H7)))).
Defined.

(** where all items begin at 7, the walk from rank 1 for the node 2 passes
    rank 1 and stops at rank 0 *)
Lemma walk_left_stops_witness :
  Z.of_nat (length same_beg_items) < 2 ^ 62
  ∧ ∃ t, p_iitii (λ _ _, None) same_beg_items = Some t
      ∧ 0 ≤ 2 < size (nodes (super t)) ∧ 0 < leftmost_leaf2 2
      ∧ ∃ leq,
          walk_leq p_get_beg p_get_end int_min (length (nodes (super t)))
            (nodes (super t)) (p_node_beg (nodes (super t)) 2)
            (wrap (leftmost_leaf2 2 - 1)) = Some leq
          ∧ leq = 0
          ∧ p_node_beg (nodes (super t)) leq ≤ p_node_beg (nodes (super t)) 2.
Proof.
  split; [reflexivity|].
  destruct (walk_left_stops p_get_beg p_get_end int_min same_beg_items
              (λ _ _, None) 2 eq_refl) as (t & Hb & H).
  exists t. split; [exact Hb|].
  assert (H1 : 0 ≤ 2 < size (nodes (super t))).
  { vm_compute in Hb. injection Hb as <-. split; discriminate || reflexivity. }
  assert (H2 : 0 < leftmost_leaf2 2) by reflexivity.
  split; [exact H1|]. split; [exact H2|].
  destruct (H H1 H2) as (leq & Hw & _ & Hle & _ & Hz).
  exists leq. split; [exact Hw|]. split; [|exact Hle].
  apply Hz. vm_compute in Hb. injection Hb as <-.
  vm_compute in Hw. by injection Hw as <-.
Defined.

(** the items of the header comment: the query [22, 25) passes every
    assertion of [scan] *)
Lemma scan_assertions_hold_witness :
  (0 < length header_items)%nat
  ∧ Z.of_nat (length header_items) < 2 ^ 62
  ∧ ∃ t, p_iit header_items = Some t
      ∧ overlap_checked p_get_beg p_get_end t 22 25 = Some (2, [0; 1])
      ∧ overlap_checked p_get_beg p_get_end t 22 25
        = Some (p_overlap t 22 25).
Proof.
  assert (H : (0 < length header_items)%nat) by (vm_compute; lia).
  split; [exact H|]. split; [reflexivity|].
  destruct (scan_assertions_hold p_get_beg p_get_end int_min header_items
              (λ _ _, None) 22 25 0 [] H eq_refl)
    as (t & _ & Hb & _ & Hov & _).
  exists t. split; [exact Hb|]. split; [|exact Hov].
  vm_compute in Hb. injection Hb as <-. reflexivity.
Defined.
